(** * simple-go-websockets: the server package, embedded and verified

    Shallow embedding of [server/server.go] (handshake, frame codec,
    connection loop, keepalive) together with the library functions it calls
    ([io.ReadFull], [strings.ToLower], [strings.Contains], [http.Header.Get],
    [crypto/sha1.Sum], [base64.StdEncoding.EncodeToString]), of the consumer
    of the example program, and of the second copy of the package that the
    repository holds ([Variant]).

    Conventions.
    - A Go [byte] is a [Byte.byte]; a Go [int] has 64 bits and is a [Z] kept
      in the signed range by [wrap_int] wherever the source can overflow.
    - A Go [string] is a Rocq [string]; [[]byte(s)] is [list_byte_of_string].
    - [http.Header] is a [gmap string (list string)].
    - A function returning [(T, error)] returns a [result T]; a run-time
      panic is a third outcome, never an error value.
    - The hijacked stream is a record [Conn]: what the peer has sent and how
      its side ends, what has been written, which writes will fail.
    - [make] panics on a length the runtime refuses; memory is taken to be
      there for every other length.
    - The consumer is a type class over its own state; the callbacks are
      logged as they are made.
    - The keepalive goroutine shares the stream with the read loop and
      touches it by [Write] alone; its pace beside the loop is a parameter
      of the loop. *)

From Stdlib Require Import ZArith List String Ascii Strings.Byte Bool Lia.
From stdpp Require Import gmap strings.
Import ListNotations.

Local Open Scope Z_scope.

(** ** Machine integers and bytes *)

Abbreviation byte := Byte.byte.

(** [int(b)] for a byte [b]. *)
Definition int_of_byte (b : byte) : Z := Z.of_N (Byte.to_N b).

(** [byte(x)] for an int [x]: the low eight bits. *)
Definition byte_of_int (x : Z) : byte :=
  match Byte.of_N (Z.to_N (x mod 256)) with
  | Some b => b
  | None => x00
  end.

(** Two's-complement wrap-around of a 64-bit [int]. *)
Definition wrap_int (x : Z) : Z := (x + 2 ^ 63) mod 2 ^ 64 - 2 ^ 63.

(** [x << n] on [int]. *)
Definition int_shl (x n : Z) : Z := wrap_int (Z.shiftl x n).

(** [a & b] and [a ^ b] on bytes. *)
Definition byte_and (a b : byte) : byte :=
  byte_of_int (Z.land (int_of_byte a) (int_of_byte b)).
Definition byte_xor (a b : byte) : byte :=
  byte_of_int (Z.lxor (int_of_byte a) (int_of_byte b)).

(** ** Big-endian integers (as in encoding/binary) *)

Module BigEndian.

(** Unsigned value of a run of bytes, most significant first. *)
Definition be_value (bs : list byte) : Z :=
  fold_left (fun acc b => acc * 256 + int_of_byte b) bs 0.

(** The [n] low bytes of [x], most significant first. *)
Fixpoint be_bytes (n : nat) (x : Z) : list byte :=
  match n with
  | O => []
  | S n' => byte_of_int (Z.shiftr x (8 * Z.of_nat n')) :: be_bytes n' x
  end.

End BigEndian.

(** ** crypto/sha1 (FIPS 180-4, section 6.1) *)

Module sha1.

Import BigEndian.

Definition w32 (x : Z) : Z := x mod 2 ^ 32.

Definition rotl (n x : Z) : Z :=
  w32 (Z.lor (Z.shiftl x n) (Z.shiftr x (32 - n))).

Definition f (t b c d : Z) : Z :=
  if t <? 20 then Z.lor (Z.land b c) (Z.land (Z.lxor b 0xFFFFFFFF) d)
  else if t <? 40 then Z.lxor (Z.lxor b c) d
  else if t <? 60 then Z.lor (Z.lor (Z.land b c) (Z.land b d)) (Z.land c d)
  else Z.lxor (Z.lxor b c) d.

Definition K (t : Z) : Z :=
  if t <? 20 then 0x5A827999
  else if t <? 40 then 0x6ED9EBA1
  else if t <? 60 then 0x8F1BBCDC
  else 0xCA62C1D6.

Record state := State { h0 : Z; h1 : Z; h2 : Z; h3 : Z; h4 : Z }.

Definition init : state :=
  State 0x67452301 0xEFCDAB89 0x98BADCFE 0x10325476 0xC3D2E1F0.

(** Message padding: a one bit, zeros, and the bit length on 64 bits. *)
Definition pad (msg : list byte) : list byte :=
  let len := Z.of_nat (length msg) in
  msg ++ [x80] ++ repeat x00 (Z.to_nat ((55 - len) mod 64))
      ++ be_bytes 8 (8 * len).

(** The sixteen 32-bit words of a 64-byte block. *)
Fixpoint words (n : nat) (block : list byte) : list Z :=
  match n with
  | O => []
  | S n' => be_value (firstn 4 block) :: words n' (skipn 4 block)
  end.

(** [n] rounds starting at round [t]; [w] is the sliding window
    W(t) .. W(t+15) of the message schedule. *)
Fixpoint rounds (n : nat) (t : Z) (w : list Z) (a b c d e : Z)
  : Z * Z * Z * Z * Z :=
  match n with
  | O => (a, b, c, d, e)
  | S n' =>
      let wt := nth 0 w 0 in
      let tmp := w32 (rotl 5 a + f t b c d + e + wt + K t) in
      let wnew := rotl 1 (Z.lxor (Z.lxor (Z.lxor (nth 13 w 0) (nth 8 w 0))
                                         (nth 2 w 0)) wt) in
      rounds n' (t + 1) (tl w ++ [wnew]) tmp a (rotl 30 b) c d
  end.

Definition block (s : state) (blk : list byte) : state :=
  let '(a, b, c, d, e) :=
    rounds 80 0 (words 16 blk) (h0 s) (h1 s) (h2 s) (h3 s) (h4 s) in
  State (w32 (h0 s + a)) (w32 (h1 s + b)) (w32 (h2 s + c))
        (w32 (h3 s + d)) (w32 (h4 s + e)).

Fixpoint blocks (n : nat) (s : state) (bs : list byte) : state :=
  match n with
  | O => s
  | S n' => blocks n' (block s (firstn 64 bs)) (skipn 64 bs)
  end.

(** [sha1.Sum(data)]: the 20-byte digest. *)
Definition Sum (data : list byte) : list byte :=
  let p := pad data in
  let s := blocks (Nat.div (length p) 64) init p in
  be_bytes 4 (h0 s) ++ be_bytes 4 (h1 s) ++ be_bytes 4 (h2 s)
    ++ be_bytes 4 (h3 s) ++ be_bytes 4 (h4 s).

End sha1.

(** ** encoding/base64, the standard alphabet with padding *)

Module base64.

Definition encodeStd : string :=
  "ABCDEFGHIJKLMNOPQRSTUVWXYZabcdefghijklmnopqrstuvwxyz0123456789+/".

Definition digit (i : Z) : ascii :=
  match String.get (Z.to_nat i) encodeStd with
  | Some c => c
  | None => "="%char
  end.

Fixpoint encode (src : list byte) : string :=
  match src with
  | [] => EmptyString
  | [a] =>
      let v := Z.shiftl (int_of_byte a) 16 in
      String (digit (Z.land (Z.shiftr v 18) 0x3F))
        (String (digit (Z.land (Z.shiftr v 12) 0x3F)) "==")
  | [a; b] =>
      let v := Z.lor (Z.shiftl (int_of_byte a) 16)
                     (Z.shiftl (int_of_byte b) 8) in
      String (digit (Z.land (Z.shiftr v 18) 0x3F))
        (String (digit (Z.land (Z.shiftr v 12) 0x3F))
           (String (digit (Z.land (Z.shiftr v 6) 0x3F)) "="))
  | a :: b :: c :: rest =>
      let v := Z.lor (Z.lor (Z.shiftl (int_of_byte a) 16)
                            (Z.shiftl (int_of_byte b) 8))
                     (int_of_byte c) in
      String (digit (Z.land (Z.shiftr v 18) 0x3F))
        (String (digit (Z.land (Z.shiftr v 12) 0x3F))
           (String (digit (Z.land (Z.shiftr v 6) 0x3F))
              (String (digit (Z.land v 0x3F)) (encode rest))))
  end.

(** [base64.StdEncoding.EncodeToString(src)]. *)
Definition EncodeToString (src : list byte) : string := encode src.

End base64.

Definition wsGUID : string := "258EAFA5-E914-47DA-95CA-C5AB0DC85B11".

(** ** Errors, panics and results *)

Inductive error : Type :=
| EOF                     (* io.EOF *)
| ErrUnexpectedEOF        (* io.ErrUnexpectedEOF *)
| ErrClosed               (* use of a closed connection *)
| ErrTransport (msg : string)   (* any other failure of the stream *)
| ErrFrameTooLarge.       (* the "WebSocket frame too large" of [Variant] *)

Inductive panic : Type :=
| MakeSliceLen            (* runtime error: makeslice: len out of range *)
| NotHijacker.            (* interface conversion: not an http.Hijacker *)

Inductive result (A : Type) : Type :=
| Ok (a : A)
| Err (e : error)
| Panic (p : panic).

Arguments Ok {A} a.
Arguments Err {A} e.
Arguments Panic {A} p.

(** ** The hijacked stream: an [io.ReadWriteCloser] *)

(** What one [Write] call does when it does not succeed: the number of
    bytes that still went out, and the error returned. *)
Definition fault : Type := nat * error.

Record Conn : Type := MkConn {
  rd : list byte;          (* bytes sent by the peer and not yet read *)
  rd_end : error;          (* what [Read] returns once [rd] is exhausted *)
  writes : list (list byte);  (* the argument of every [Write] so far *)
  sent : list byte;        (* bytes that went out to the peer *)
  wr_faults : list (option fault);  (* outcome of the coming [Write] calls;
                                       all succeed once the list is used up *)
  closed : bool
}.

Definition set_rd (c : Conn) (bs : list byte) : Conn :=
  MkConn bs (rd_end c) (writes c) (sent c) (wr_faults c) (closed c).

(** [conn.Close()]; the error of a second close is dropped by every caller. *)
Definition Close (c : Conn) : Conn :=
  MkConn (rd c) (rd_end c) (writes c) (sent c) (wr_faults c) true.

(** [conn.Write(p)]. *)
Definition Write (p : list byte) (c : Conn) : Conn * option error :=
  if closed c then
    (MkConn (rd c) (rd_end c) (writes c ++ [p]) (sent c) (wr_faults c) true,
     Some ErrClosed)
  else
    match wr_faults c with
    | Some (n, e) :: later =>
        (MkConn (rd c) (rd_end c) (writes c ++ [p]) (sent c ++ firstn n p)
                later false,
         Some e)
    | None :: later =>
        (MkConn (rd c) (rd_end c) (writes c ++ [p]) (sent c ++ p) later false,
         None)
    | [] =>
        (MkConn (rd c) (rd_end c) (writes c ++ [p]) (sent c ++ p) [] false,
         None)
    end.

(** A computation on the stream that returns a value, fails or panics. *)
Definition io (A : Type) : Type := Conn -> Conn * result A.

Definition ret {A} (a : A) : io A := fun c => (c, Ok a).

Definition bind {A B} (m : io A) (k : A -> io B) : io B :=
  fun c =>
    match m c with
    | (c', Ok a) => k a c'
    | (c', Err e) => (c', Err e)
    | (c', Panic p) => (c', Panic p)
    end.

Notation "'let*' x ':=' m 'in' k" := (bind m (fun x => k))
  (at level 10, x name, m at level 100, k at level 200).

(** [io.ReadFull(conn, buf)] with [len(buf) = n], returning the filled
    buffer. An empty buffer is filled without reading; a short stream
    gives [io.EOF] when nothing was read, [io.ErrUnexpectedEOF] when the
    stream ended cleanly half way, and the stream's own error otherwise. *)
Definition ReadFull (n : nat) : io (list byte) :=
  fun c =>
    if (n =? 0)%nat then (c, Ok [])
    else if closed c then (c, Err ErrClosed)
    else if (n <=? length (rd c))%nat then
      (set_rd c (skipn n (rd c)), Ok (firstn n (rd c)))
    else
      (set_rd c [],
       Err (match rd c, rd_end c with
            | [], e => e
            | _ :: _, EOF => ErrUnexpectedEOF
            | _ :: _, e => e
            end)).

(** Largest allocation the 64-bit runtime accepts (48 address bits). *)
Definition maxAlloc : Z := 2 ^ 48.

(** [make([]byte, n)]: the length of the new slice, or the run-time panic
    for a length that is negative or beyond [maxAlloc]. A length within
    [maxAlloc] that the machine cannot back ends the process, with no
    panic and no deferred call; that is outside this model, and what is
    stated below about a payload that is not on the stream is kept to
    lengths of at most 65535 bytes. *)
Definition make_bytes (n : Z) : io nat :=
  fun c =>
    if (n <? 0) || (maxAlloc <? n) then (c, Panic MakeSliceLen)
    else (c, Ok (Z.to_nat n)).

(** [s[i]]; every use below is within bounds. *)
Definition index (s : list byte) (i : nat) : byte := nth i s x00.

(** ** Frame codec *)

(** One turn of the unmasking loop: [payload[i] ^= maskKey[i%4]]. *)
Definition unmask_step (maskKey payload : list byte) (i : nat) : list byte :=
  <[ i := byte_xor (index payload i) (index maskKey (i mod 4)) ]> payload.

(** [for i := 0; i < payloadLen; i++ { payload[i] ^= maskKey[i%4] }] *)
Definition unmask (payloadLen : nat) (maskKey payload : list byte)
  : list byte :=
  fold_left (unmask_step maskKey) (seq 0 payloadLen) payload.

(** The 16-bit extended length, [int(extLen[0])<<8 | int(extLen[1])]. *)
Definition extLen16 (extLen : list byte) : Z :=
  Z.lor (int_shl (int_of_byte (index extLen 0)) 8)
        (int_of_byte (index extLen 1)).

(** The 64-bit extended length, assembled with [int] shifts. *)
Definition extLen64 (extLen : list byte) : Z :=
  Z.lor (Z.lor (Z.lor (Z.lor (Z.lor (Z.lor (Z.lor
    (int_shl (int_of_byte (index extLen 0)) 56)
    (int_shl (int_of_byte (index extLen 1)) 48))
    (int_shl (int_of_byte (index extLen 2)) 40))
    (int_shl (int_of_byte (index extLen 3)) 32))
    (int_shl (int_of_byte (index extLen 4)) 24))
    (int_shl (int_of_byte (index extLen 5)) 16))
    (int_shl (int_of_byte (index extLen 6)) 8))
    (int_of_byte (index extLen 7)).

Definition readFrame : io (list byte) :=
  let* header := ReadFull 2 in
  let payloadLen := int_of_byte (byte_and (index header 1) x7f) in
  let* payloadLen :=
    if payloadLen =? 126 then
      let* extLen := ReadFull 2 in
      ret (extLen16 extLen)
    else if payloadLen =? 127 then
      let* extLen := ReadFull 8 in
      ret (extLen64 extLen)
    else ret payloadLen in
  let* maskKey := ReadFull 4 in
  let* n := make_bytes payloadLen in
  let* payload := ReadFull n in
  ret (unmask n maskKey payload).

Definition writeFrame (message : list byte) (conn : Conn)
  : Conn * option error :=
  let payloadLen := Z.of_nat (length message) in
  let header :=
    if payloadLen <=? 125 then
      [x81; byte_of_int payloadLen]
    else if payloadLen <=? 65535 then
      [x81; x7e; byte_of_int (Z.shiftr payloadLen 8);
       byte_of_int (Z.land payloadLen 0xFF)]
    else
      [x81; x7f;
       byte_of_int (Z.shiftr payloadLen 56);
       byte_of_int (Z.shiftr payloadLen 48);
       byte_of_int (Z.shiftr payloadLen 40);
       byte_of_int (Z.shiftr payloadLen 32);
       byte_of_int (Z.shiftr payloadLen 24);
       byte_of_int (Z.shiftr payloadLen 16);
       byte_of_int (Z.shiftr payloadLen 8);
       byte_of_int (Z.land payloadLen 0xFF)] in
  Write (header ++ message) conn.

(** [WSConn.Send(message)] and [WSConn.Close()]: all a consumer can do with
    the connection it is handed, the stream itself being unexported. *)
Definition Send (message : string) (c : Conn) : Conn * option error :=
  writeFrame (list_byte_of_string message) c.

Inductive action : Type :=
| DoSend (message : string)
| DoClose.

Definition perform (c : Conn) (a : action) : Conn :=
  match a with
  | DoSend message => fst (Send message c)
  | DoClose => Close c
  end.

(** ** strings *)

Module strings.

Definition isUpper (c : ascii) : bool :=
  ((65 <=? N_of_ascii c) && (N_of_ascii c <=? 90))%N.

Definition isLower (c : ascii) : bool :=
  ((97 <=? N_of_ascii c) && (N_of_ascii c <=? 122))%N.

Definition lower (c : ascii) : ascii :=
  if isUpper c then ascii_of_N (N_of_ascii c + 32) else c.

Definition upper (c : ascii) : ascii :=
  if isLower c then ascii_of_N (N_of_ascii c - 32) else c.

Fixpoint isASCII (s : string) : bool :=
  match s with
  | EmptyString => true
  | String c s' => (N_of_ascii c <? 128)%N && isASCII s'
  end.

Fixpoint mapBytes (f : ascii -> ascii) (s : string) : string :=
  match s with
  | EmptyString => EmptyString
  | String c s' => String (f c) (mapBytes f s')
  end.

Section ToLower.
(** [strings.Map(unicode.ToLower, s)], the path taken by a string with a
    byte outside ASCII; its tables are not part of this development. *)
Variable unicodeToLower : string -> string.

Definition ToLower (s : string) : string :=
  if isASCII s then mapBytes lower s else unicodeToLower s.
End ToLower.

Fixpoint HasPrefix (s prefix : string) : bool :=
  match prefix, s with
  | EmptyString, _ => true
  | String _ _, EmptyString => false
  | String p prefix', String c s' => Ascii.eqb c p && HasPrefix s' prefix'
  end.

Fixpoint Contains (s substr : string) : bool :=
  HasPrefix s substr ||
  match s with
  | EmptyString => false
  | String _ s' => Contains s' substr
  end.

End strings.

(** ** net/http: headers, requests and the response writer *)

Module http.

Definition StatusBadRequest : Z := 400.
Definition StatusInternalServerError : Z := 500.

(** Bytes allowed in a header field name (RFC 7230 token). *)
Definition validHeaderFieldByte (c : ascii) : bool :=
  let n := N_of_ascii c in
  ((n =? 33) || ((35 <=? n) && (n <=? 39)) || (n =? 42) || (n =? 43)
   || (n =? 45) || (n =? 46) || ((48 <=? n) && (n <=? 57))
   || ((65 <=? n) && (n <=? 90)) || ((94 <=? n) && (n <=? 122))
   || (n =? 124) || (n =? 126))%N.

Fixpoint allValid (s : string) : bool :=
  match s with
  | EmptyString => true
  | String c s' => validHeaderFieldByte c && allValid s'
  end.

Fixpoint canonical (up : bool) (s : string) : string :=
  match s with
  | EmptyString => EmptyString
  | String c s' =>
      let c' := if up then strings.upper c else strings.lower c in
      String c' (canonical (Ascii.eqb c' "-") s')
  end.

(** [textproto.CanonicalMIMEHeaderKey]: first letter and letters after a
    dash in upper case, the rest in lower case; a name with a byte that
    is not allowed is left alone. *)
Definition CanonicalMIMEHeaderKey (s : string) : string :=
  if allValid s then canonical true s else s.

Definition Header : Type := gmap string (list string).

(** [h.Get(key)]: the first value under the canonical key, or the empty
    string. *)
Definition Get (h : Header) (key : string) : string :=
  match h !! CanonicalMIMEHeaderKey key with
  | Some (v :: _) => v
  | _ => EmptyString
  end.

Record Request : Type := MkRequest { header : Header }.

(** What [w.(http.Hijacker).Hijack()] does on this writer. *)
Inductive hijacker : Type :=
| NoHijacker                    (* the type assertion panics *)
| HijackFails (e : error)
| HijackGives (conn : Conn).

Record ResponseWriter : Type := MkWriter {
  hijack : hijacker;
  status : option Z;       (* status line written on the HTTP surface *)
  body : string;
  hijacked : bool          (* the stream was detached from the server *)
}.

Definition LF : string := String (ascii_of_nat 10) EmptyString.

(** [http.Error(w, msg, code)]. *)
Definition Error (w : ResponseWriter) (msg : string) (code : Z)
  : ResponseWriter :=
  MkWriter (hijack w) (Some code) (msg ++ LF)%string (hijacked w).

Definition detach (w : ResponseWriter) : ResponseWriter :=
  MkWriter (hijack w) (status w) (body w) true.

End http.

(** ** The consumer *)

(** The four callbacks. A callback is handed the connection (or has kept
    it from an earlier call), so what it does to the stream is a list of
    [Send] and [Close] calls; [H] is the consumer's own state. *)
Class WSHandler (H : Type) : Type := {
  OnMessage : H -> string -> H * list action;
  OnClose : H -> H * list action;
  OnError : H -> error -> H * list action;
  OnConnect : H -> H * list action
}.

(** The callbacks as the outside sees them. *)
Inductive call : Type :=
| CallConnect
| CallMessage (message : string)
| CallClose
| CallError (e : error).

Record Consumer (H : Type) : Type := MkConsumer {
  hstate : H;
  calls : list call        (* callbacks fired so far, oldest first *)
}.

Arguments MkConsumer {H} hstate calls.
Arguments hstate {H} c.
Arguments calls {H} c.

(** Run one callback: log it and let its actions reach the stream. *)
Definition invoke {H} (cb : H -> H * list action) (ev : call)
    (conn : Conn) (k : Consumer H) : Conn * Consumer H :=
  let (h', acts) := cb (hstate k) in
  (fold_left perform acts conn, MkConsumer h' (calls k ++ [ev])).

(** The consumer of the repository's example program: it echoes every
    message and keeps no state. *)
Module MyWSHandler.
#[export] Instance handler : WSHandler unit := {
  OnMessage := fun h message => (h, [DoSend message]);
  OnClose := fun h => (h, []);
  OnError := fun h _ => (h, []);
  OnConnect := fun h => (h, [])
}.
End MyWSHandler.

(** ** Keepalive *)

Module time.
(** A [time.Duration] counts nanoseconds. *)
Definition Second : Z := 1000000000.

Record Ticker : Type := MkTicker { period : Z }.
Definition NewTicker (d : Z) : Ticker := MkTicker d.
End time.

(** What a turn of the [select] receives: a tick, with the time since the
    ticker was made, or the closing of [done]. *)
Inductive ready : Type :=
| Tick (at_ns : Z)
| DoneClosed.

(** The first [n] ticks of a ticker that none of its readers lets lapse. *)
Definition ticks (tk : time.Ticker) (n : nat) : list ready :=
  map (fun i => Tick (Z.of_nat i * time.period tk)) (seq 1 n).

Record Pinged : Type := MkPinged {
  ping_conn : Conn;
  ping_times : list Z;     (* when each ping was written *)
  ping_returned : bool     (* false: still waiting in [select] *)
}.

(** [conn.Write([]byte{0x89, 0x00})], its result dropped. *)
Definition ping (conn : Conn) : Conn := fst (Write [x89; x00] conn).

Fixpoint pingSelect (events : list ready) (conn : Conn) (times : list Z)
  : Pinged :=
  match events with
  | [] => MkPinged conn times false
  | Tick t :: later => pingSelect later (ping conn) (times ++ [t])
  | DoneClosed :: _ => MkPinged conn times true
  end.

(** [pingLoop(conn, done)]; [sched] is what the runtime delivers to the
    loop's [select], given the ticker the loop creates. *)
Definition pingLoop (sched : time.Ticker -> list ready) (conn : Conn)
  : Pinged :=
  let ticker := time.NewTicker (15 * time.Second) in
  pingSelect (sched ticker) conn [].

(** What the keepalive goroutine does to the stream while it receives
    [n] ticks. *)
Fixpoint pings (n : nat) (conn : Conn) : Conn :=
  match n with
  | O => conn
  | S n' => ping (pings n' conn)
  end.

(** ** Handshake and connection loop *)

Definition CRLF : string :=
  String (ascii_of_nat 13) (String (ascii_of_nat 10) EmptyString).

(** How a call of [UpgradeToWebSocket] ends. *)
Inductive upgraded : Type :=
| Declined                  (* returned with the stream left to the server *)
| Aborted (conn : Conn)     (* hijacked, then closed before any callback *)
| Started (conn : Conn)     (* [go handleWebSocket(conn, handler)] *)
| Crashed (p : panic).

(** How the goroutine of a connection ends. *)
Inductive finished : Type :=
| LoopBroke                 (* the read loop ended on an error *)
| LoopPanicked (p : panic). (* a panic unwound the goroutine *)

Section Server.

Context {H : Type} `{handler : WSHandler H}.
Variable unicodeToLower : string -> string.

Definition acceptKey (key : string) : string :=
  let hash := sha1.Sum (list_byte_of_string (key ++ wsGUID)) in
  base64.EncodeToString hash.

Definition response (key : string) : string :=
  "HTTP/1.1 101 Switching Protocols" ++ CRLF ++
  "Upgrade: websocket" ++ CRLF ++
  "Connection: Upgrade" ++ CRLF ++
  "Sec-WebSocket-Accept: " ++ acceptKey key ++ CRLF ++ CRLF.

Definition UpgradeToWebSocket (w : http.ResponseWriter) (r : http.Request)
    (k : Consumer H) : http.ResponseWriter * Consumer H * upgraded :=
  if negb (String.eqb
             (strings.ToLower unicodeToLower
                (http.Get (http.header r) "Upgrade")) "websocket")
     || negb (strings.Contains
                (strings.ToLower unicodeToLower
                   (http.Get (http.header r) "Connection")) "upgrade")
  then
    (http.Error w "Invalid WebSocket handshake" http.StatusBadRequest,
     k, Declined)
  else
    let key := http.Get (http.header r) "Sec-WebSocket-Key" in
    if String.eqb key "" then
      (http.Error w "Missing Sec-WebSocket-Key" http.StatusBadRequest,
       k, Declined)
    else
      match http.hijack w with
      | http.NoHijacker => (w, k, Crashed NotHijacker)
      | http.HijackFails _ =>
          (http.Error w "Hijack failed" http.StatusInternalServerError,
           k, Declined)
      | http.HijackGives conn =>
          let w := http.detach w in
          match Write (list_byte_of_string (response key)) conn with
          | (conn, Some _) => (w, k, Aborted (Close conn))
          | (conn, None) =>
              let (conn, k) := invoke OnConnect CallConnect conn k in
              (w, k, Started conn)
          end
      end.

(** The [for] loop of [handleWebSocket], with the keepalive goroutine
    beside it: [beats] gives, turn by turn, the number of ticks that
    goroutine receives while the loop waits for its next frame. Every turn
    that does not end the loop takes at least six bytes off the stream, so
    the loop is run for as many turns as the stream has bytes, and one
    more. *)
Fixpoint readLoop (turns : nat) (beats : list nat) (conn : Conn)
    (k : Consumer H) : option (Conn * Consumer H * finished) :=
  match turns with
  | O => None
  | S turns' =>
      let conn := pings (hd O beats) conn in
      match readFrame conn with
      | (conn, Err err) =>
          let (conn, k) :=
            invoke (fun h => OnError h err) (CallError err) conn k in
          Some (conn, k, LoopBroke)
      | (conn, Panic p) => Some (conn, k, LoopPanicked p)
      | (conn, Ok msg) =>
          let message := string_of_list_byte msg in
          let (conn, k) :=
            invoke (fun h => OnMessage h message) (CallMessage message)
                   conn k in
          readLoop turns' (tl beats) conn k
      end
  end.

(** [handleWebSocket(conn, handler)]. [go pingLoop(conn, done)] starts the
    keepalive goroutine, whose writes land between the turns of the loop
    as [beats] says, and [close(done)] ends it. The two deferred calls run
    last registered first, on a normal return and on a panic alike. *)
Definition handleWebSocket (beats : list nat) (conn : Conn) (k : Consumer H)
  : option (Conn * Consumer H * finished) :=
  let (conn, k) := invoke OnConnect CallConnect conn k in
  match readLoop (S (length (rd conn))) beats conn k with
  | None => None
  | Some (conn, k, how) =>
      let (conn, k) := invoke OnClose CallClose conn k in
      Some (Close conn, k, how)
  end.

(** One request from arrival to the end of its connection, if any. *)
Definition serve (beats : list nat) (w : http.ResponseWriter)
    (r : http.Request) (k : Consumer H)
  : option (Consumer H * upgraded * option finished) :=
  match UpgradeToWebSocket w r k with
  | (_, k, Started conn) =>
      match handleWebSocket beats conn k with
      | None => None
      | Some (conn, k, how) => Some (k, Started conn, Some how)
      end
  | (_, k, other) => Some (k, other, None)
  end.

End Server.

(** ** The other copy of the package

    The repository holds a second copy of the server package. Its
    handshake is the same; its decoder refuses the 127 tier and reads a
    mask key only when the MASK bit is set, its encoder writes a two-byte
    header whatever the length, and its connection goroutine neither
    calls [OnConnect] nor starts a keepalive. *)

Module Variant.

Definition readFrame : io (list byte) :=
  let* header := ReadFull 2 in
  let payloadLen := int_of_byte (byte_and (index header 1) x7f) in
  let* payloadLen :=
    if payloadLen =? 126 then
      let* extLen := ReadFull 2 in
      ret (extLen16 extLen)
    else if payloadLen =? 127 then
      fun c => (c, Err ErrFrameTooLarge)
    else ret payloadLen in
  let isMasked := negb (int_of_byte (byte_and (index header 1) x80) =? 0) in
  let* maskKey :=
    if isMasked then ReadFull 4 else ret [x00; x00; x00; x00] in
  let* n := make_bytes payloadLen in
  let* payload := ReadFull n in
  ret (if isMasked then unmask (length payload) maskKey payload
       else payload).

Definition writeFrame (message : list byte) (conn : Conn)
  : Conn * option error :=
  let header := [x81; byte_of_int (Z.of_nat (length message))] in
  Write (header ++ message) conn.

Section Loop.

Context {H : Type} `{handler : WSHandler H}.

Fixpoint readLoop (turns : nat) (conn : Conn) (k : Consumer H)
  : option (Conn * Consumer H * finished) :=
  match turns with
  | O => None
  | S turns' =>
      match readFrame conn with
      | (conn, Err err) =>
          let (conn, k) :=
            invoke (fun h => OnError h err) (CallError err) conn k in
          Some (conn, k, LoopBroke)
      | (conn, Panic p) => Some (conn, k, LoopPanicked p)
      | (conn, Ok msg) =>
          let message := string_of_list_byte msg in
          let (conn, k) :=
            invoke (fun h => OnMessage h message) (CallMessage message)
                   conn k in
          readLoop turns' conn k
      end
  end.

Definition handleWebSocket (conn : Conn) (k : Consumer H)
  : option (Conn * Consumer H * finished) :=
  match readLoop (S (length (rd conn))) conn k with
  | None => None
  | Some (conn, k, how) =>
      let (conn, k) := invoke OnClose CallClose conn k in
      Some (Close conn, k, how)
  end.

Definition serve (unicodeToLower : string -> string)
    (w : http.ResponseWriter) (r : http.Request) (k : Consumer H)
  : option (Consumer H * upgraded * option finished) :=
  match UpgradeToWebSocket unicodeToLower w r k with
  | (_, k, Started conn) =>
      match handleWebSocket conn k with
      | None => None
      | Some (conn', k, how) => Some (k, Started conn', Some how)
      end
  | (_, k, other) => Some (k, other, None)
  end.

End Loop.

End Variant.

(** ** Notions the properties are stated with *)

(** A fresh, open connection on which the peer has sent [bs] and then
    ended its side cleanly. *)
Definition peer (bs : list byte) : Conn := MkConn bs EOF [] [] [] false.

(** The bytes the frame encoder puts on a healthy stream. *)
Definition encoded (message : list byte) : list byte :=
  sent (fst (writeFrame message (peer []))).

(** Bits 0-6 of header byte 1. *)
Definition baseLen (b1 : byte) : Z := Z.land (int_of_byte b1) 0x7F.

(** Bit 7 of header byte 1. *)
Definition maskBit (b1 : byte) : bool := Z.testbit (int_of_byte b1) 7.

(** Header size by length tier. *)
Definition tierHeaderSize (L : Z) : Z :=
  if L <=? 125 then 2 else if L <=? 65535 then 4 else 10.

(** XOR of each byte at (absolute) index [i] with [key[i % 4]]. *)
Fixpoint maskFrom (i : nat) (key payload : list byte) : list byte :=
  match payload with
  | [] => []
  | b :: later =>
      byte_xor b (index key (i mod 4)) :: maskFrom (S i) key later
  end.

(** Number of header bytes of an unmasked frame, read off its byte 1. *)
Definition headerLen (frame : list byte) : nat :=
  let base := baseLen (index frame 1) in
  if base =? 126 then 4%nat else if base =? 127 then 10%nat else 2%nat.

(** Masking an encoded frame the way a client would have sent it: set the
    MASK bit, put the key after the length fields, XOR the payload. *)
Definition injectMask (key frame : list byte) : list byte :=
  let n := headerLen frame in
  <[ 1%nat := byte_of_int (Z.lor (int_of_byte (index frame 1)) 0x80) ]>
    (firstn n frame)
  ++ key ++ maskFrom 0 key (skipn n frame).

(** The length fields [b1], [ext] of a header announce the length [L]. *)
Definition announces (b1 : byte) (ext : list byte) (L : Z) : Prop :=
  (baseLen b1 < 126 /\ ext = [] /\ L = baseLen b1)
  \/ (baseLen b1 = 126 /\ length ext = 2%nat /\ L = BigEndian.be_value ext)
  \/ (baseLen b1 = 127 /\ length ext = 8%nat
      /\ L = wrap_int (BigEndian.be_value ext)).

(** Lines 124-141 of [readFrame]: what the decoder does once the payload
    length is known. *)
Definition readBody (payloadLen : Z) : io (list byte) :=
  let* maskKey := ReadFull 4 in
  let* n := make_bytes payloadLen in
  let* payload := ReadFull n in
  ret (unmask n maskKey payload).

(** [sub] occurs in [s]. *)
Definition Substring (sub s : string) : Prop :=
  exists pre post, s = (pre ++ sub ++ post)%string.

(** A text frame as a client sends it: final, opcode text, masked with
    [key]. *)
Definition clientFrame (key payload : list byte) : list byte :=
  injectMask key (encoded payload).

(** The bytes of a run of client frames, one after the other. *)
Definition clientStream (frames : list (list byte * list byte))
  : list byte :=
  concat (map (fun f => clientFrame (fst f) (snd f)) frames).

(** A consumer that never closes the connection itself. *)
Definition keepsOpen {H} `{WSHandler H} : Prop :=
  (forall h, ~ In DoClose (snd (OnConnect h)))
  /\ (forall h message, ~ In DoClose (snd (OnMessage h message))).

Section Requests.

Variable unicodeToLower : string -> string.

(** [s] and [t] are equal up to the case of their letters. *)
Definition equalFold (s t : string) : Prop :=
  strings.ToLower unicodeToLower s = strings.ToLower unicodeToLower t.

(** [sub] occurs in [s], up to the case of letters. *)
Definition containsFold (s sub : string) : Prop :=
  Substring (strings.ToLower unicodeToLower sub)
            (strings.ToLower unicodeToLower s).

(** The request passes the three checks of the handshake. *)
Definition wellFormed (r : http.Request) : Prop :=
  equalFold (http.Get (http.header r) "Upgrade") "websocket"
  /\ containsFold (http.Get (http.header r) "Connection") "upgrade"
  /\ http.Get (http.header r) "Sec-WebSocket-Key" <> EmptyString.

End Requests.

(** The upgrade request of the protocol's own example. *)
Definition sampleRequest : http.Request :=
  http.MkRequest
    (<[ "Upgrade" := ["websocket"] ]>
       (<[ "Connection" := ["Upgrade"] ]>
          (<[ "Sec-Websocket-Key" := ["dGhlIHNhbXBsZSBub25jZQ=="] ]> ∅))).

(** A response writer whose stream can be taken, with [conn] behind it. *)
Definition hijackable (conn : Conn) : http.ResponseWriter :=
  http.MkWriter (http.HijackGives conn) None EmptyString false.

(** A consumer that has seen nothing yet. *)
Definition fresh {H} (h : H) : Consumer H := MkConsumer h [].

(** Two states of a stream that no read can tell apart. *)
Definition sameReadSide (c1 c2 : Conn) : Prop :=
  rd c1 = rd c2 /\ rd_end c1 = rd_end c2 /\ closed c1 = closed c2.

(** A computation that looks at the reading side of the stream only. *)
Definition readOnly {A} (m : io A) : Prop :=
  forall c1 c2, sameReadSide c1 c2 ->
    snd (m c1) = snd (m c2) /\ sameReadSide (fst (m c1)) (fst (m c2)).

(** A computation that never gives bytes back to the stream. *)
Definition consuming {A} (m : io A) : Prop :=
  forall c, (length (rd (fst (m c))) <= length (rd c))%nat.

(** What the consumer has seen of a connection once its goroutine is
    over, and how that ended. *)
Definition observed {H} (out : option (Conn * Consumer H * finished))
  : option (Consumer H * finished) :=
  match out with
  | Some (_, k, how) => Some (k, how)
  | None => None
  end.

(** ** Bytes and machine integers *)

(** The bytes of [n] keepalive pings. *)
Definition pingBytes (n : nat) : list byte := concat (repeat [x89; x00] n).

(** What a connection of the example consumer puts on the stream after
    the handshake: turn by turn the pings of that turn and the echo of
    the frame read, and the pings of the last turn. *)
Fixpoint echoOutput (beats : list nat)
    (frames : list (list byte * list byte)) : list byte :=
  match frames with
  | [] => pingBytes (hd O beats)
  | f :: later =>
      pingBytes (hd O beats) ++ encoded (snd f)
      ++ echoOutput (tl beats) later
  end.

(** The ticks a [select] schedule delivers before [done]. *)
Fixpoint ticksBeforeDone (events : list ready) : nat :=
  match events with
  | Tick _ :: later => S (ticksBeforeDone later)
  | _ => O
  end.

(** Whether the schedule ever delivers [done]. *)
Fixpoint doneSeen (events : list ready) : bool :=
  match events with
  | [] => false
  | Tick _ :: later => doneSeen later
  | DoneClosed :: _ => true
  end.

(** A consumer that closes the connection on every message. *)
Module Hangup.
#[export] Instance handler : WSHandler unit := {
  OnMessage := fun h _ => (h, [DoClose]);
  OnClose := fun h => (h, []);
  OnError := fun h _ => (h, []);
  OnConnect := fun h => (h, [])
}.
End Hangup.

(** The bytes the encoder of [Variant] puts on a healthy stream. *)
Definition variantEncoded (message : list byte) : list byte :=
  sent (fst (Variant.writeFrame message (peer []))).

(** A stream on which every write goes through. *)
Definition healthy (c : Conn) : Prop :=
  closed c = false /\ wr_faults c = [].

(** A write of the keepalive: the two bytes [0x89, 0x00] and no more. *)
Definition isPing (p : list byte) : bool :=
  match p with
  | [a; b] => Byte.eqb a x89 && Byte.eqb b x00
  | _ => false
  end.

(** How many of the writes made on a stream are keepalive pings. *)
Definition pingWrites (ws : list (list byte)) : nat :=
  length (filter isPing ws).

(** A computation that writes nothing. *)
Definition keepsWrites {A} (m : io A) : Prop :=
  forall c, writes (fst (m c)) = writes c.

(** The published vectors of the two library functions. *)
Example sha1_vectors :
  base64.EncodeToString (sha1.Sum []) = "2jmj7l5rSw0yVb/vlWAYkK/YBwk="
  /\ base64.EncodeToString (sha1.Sum (list_byte_of_string "abc"))
     = "qZk+NkcGgWq6PiVxeFDCbJzQ2J0="
  /\ base64.EncodeToString
       (sha1.Sum (list_byte_of_string
          "abcdbcdecdefdefgefghfghighijhijkijkljklmklmnlmnomnopnopq"))
     = "hJg+RBw70m66rkqh+VEp5eVGcPE="
  /\ base64.EncodeToString (sha1.Sum (repeat x61 64))
     = "AJi6gktcFkJ716ESKlpEKiXsZE0=".
Proof. repeat split; vm_compute; reflexivity. Qed.

Example base64_vectors :
  base64.EncodeToString (list_byte_of_string "f") = "Zg=="
  /\ base64.EncodeToString (list_byte_of_string "fo") = "Zm8="
  /\ base64.EncodeToString (list_byte_of_string "foo") = "Zm9v"
  /\ base64.EncodeToString (list_byte_of_string "foobar") = "Zm9vYmFy".
Proof. repeat split; vm_compute; reflexivity. Qed.

Example header_keys :
  http.CanonicalMIMEHeaderKey "Sec-WebSocket-Key" = "Sec-Websocket-Key"
  /\ http.CanonicalMIMEHeaderKey "upgrade" = "Upgrade"
  /\ http.Get (http.header sampleRequest) "Sec-WebSocket-Key"
     = "dGhlIHNhbXBsZSBub25jZQ==".
Proof. repeat split; vm_compute; reflexivity. Qed.

Lemma int_of_byte_range (b : byte) : 0 <= int_of_byte b < 256.
Proof.
  unfold int_of_byte. pose proof (Byte.to_N_bounded b). lia.
Qed.

Lemma int_of_byte_of_int (x : Z) : int_of_byte (byte_of_int x) = x mod 256.
Proof.
  unfold int_of_byte, byte_of_int.
  assert (Hr : 0 <= x mod 256 < 256) by (apply Z.mod_pos_bound; lia).
  destruct (Byte.of_N (Z.to_N (x mod 256))) as [b|] eqn:E.
  - apply Byte.to_of_N in E. rewrite E. lia.
  - apply Byte.of_N_None_iff in E. lia.
Qed.

Lemma byte_of_int_of_byte (b : byte) : byte_of_int (int_of_byte b) = b.
Proof.
  unfold byte_of_int, int_of_byte.
  pose proof (Byte.to_N_bounded b).
  rewrite Z.mod_small by lia. rewrite N2Z.id, Byte.of_to_N. reflexivity.
Qed.

Lemma int_of_byte_inj (a b : byte) : int_of_byte a = int_of_byte b -> a = b.
Proof.
  intros E. rewrite <- (byte_of_int_of_byte a), <- (byte_of_int_of_byte b).
  now rewrite E.
Qed.

Lemma mod256_land (x : Z) : x mod 256 = Z.land x 255.
Proof. change 256 with (2 ^ 8). rewrite <- Z.land_ones by lia. reflexivity. Qed.

Lemma byte_bits_high (b : byte) (n : Z) :
  8 <= n -> Z.testbit (int_of_byte b) n = false.
Proof.
  intros Hn. pose proof (int_of_byte_range b).
  rewrite <- (Z.mod_small (int_of_byte b) (2 ^ 8)) by lia.
  apply Z.mod_pow2_bits_high. lia.
Qed.

Lemma int_of_byte_xor (a b : byte) :
  int_of_byte (byte_xor a b) = Z.lxor (int_of_byte a) (int_of_byte b).
Proof.
  unfold byte_xor. rewrite int_of_byte_of_int.
  apply Z.bits_inj'. intros n Hn. change 256 with (2 ^ 8).
  destruct (Z.lt_ge_cases n 8) as [Hlt|Hge].
  - apply Z.mod_pow2_bits_low. lia.
  - rewrite Z.mod_pow2_bits_high by lia.
    rewrite Z.lxor_spec, !byte_bits_high by lia. reflexivity.
Qed.

Lemma byte_xor_involutive (a k : byte) : byte_xor (byte_xor a k) k = a.
Proof.
  apply int_of_byte_inj. rewrite !int_of_byte_xor.
  rewrite Z.lxor_assoc, Z.lxor_nilpotent, Z.lxor_0_r. reflexivity.
Qed.

Lemma wrap_int_small (x : Z) : - 2 ^ 63 <= x < 2 ^ 63 -> wrap_int x = x.
Proof. intros Hx. unfold wrap_int. rewrite Z.mod_small; lia. Qed.

(** Bitwise or is addition when the operands share no bit. *)
Lemma lor_disjoint (q y k : Z) :
  0 <= k -> 0 <= y < 2 ^ k -> Z.lor (q * 2 ^ k) y = q * 2 ^ k + y.
Proof.
  intros Hk Hy.
  assert (Hl : Z.land (q * 2 ^ k) y = 0).
  { apply Z.bits_inj'. intros n Hn. rewrite Z.land_spec, Z.bits_0.
    destruct (Z.lt_ge_cases n k) as [Hlt|Hge].
    - rewrite Z.mul_pow2_bits_low by lia. reflexivity.
    - rewrite <- (Z.mod_small y (2 ^ k)) by lia.
      rewrite Z.mod_pow2_bits_high by lia. apply andb_false_r. }
  rewrite Z.add_nocarry_lxor by exact Hl. symmetry. apply Z.lxor_lor, Hl.
Qed.

(** ** Reading from the stream *)

Lemma set_rd_same (c : Conn) : set_rd c (rd c) = c.
Proof. destruct c; reflexivity. Qed.

(** A read of as many bytes as [bs] has, on a stream that starts with
    [bs], returns [bs] and leaves the rest. *)
Lemma ReadFull_exact (c : Conn) (bs rest : list byte) :
  closed c = false -> rd c = bs ++ rest ->
  ReadFull (length bs) c = (set_rd c rest, Ok bs).
Proof.
  intros Hopen Hrd. unfold ReadFull.
  destruct bs as [|b bs].
  - simpl in *. rewrite <- Hrd, set_rd_same. reflexivity.
  - cbn [length Nat.eqb]. rewrite Hopen, Hrd.
    assert (Hle : (S (length bs) <=? length ((b :: bs) ++ rest))%nat = true).
    { apply Nat.leb_le. rewrite length_app. simpl. lia. }
    rewrite Hle.
    change (S (length bs)) with (length (b :: bs)).
    rewrite skipn_app, firstn_app, Nat.sub_diag, skipn_all, firstn_all.
    simpl. rewrite app_nil_r. reflexivity.
Qed.

(** A read of more bytes than the stream still has fails and drains it. *)
Lemma ReadFull_short (c : Conn) (n : nat) :
  closed c = false -> (length (rd c) < n)%nat ->
  exists e, ReadFull n c = (set_rd c [], Err e).
Proof.
  intros Hopen Hlt. unfold ReadFull.
  destruct n as [|n]; [lia|]. cbn [Nat.eqb]. rewrite Hopen.
  assert (Hle : (S n <=? length (rd c))%nat = false) by (apply Nat.leb_gt; lia).
  rewrite Hle. eexists. reflexivity.
Qed.

(** ** The unmasking loop *)

Lemma unmask_step_middle (key pre later : list byte) (b : byte) :
  unmask_step key (pre ++ b :: later) (length pre)
  = (pre ++ [byte_xor b (index key (length pre mod 4))]) ++ later.
Proof.
  unfold unmask_step, index.
  rewrite nth_middle, <- app_assoc. simpl.
  replace (length pre) with (length pre + 0)%nat at 1 by lia.
  rewrite insert_app_r. reflexivity.
Qed.

Lemma unmask_loop (key payload pre : list byte) :
  fold_left (unmask_step key) (seq (length pre) (length payload))
            (pre ++ payload)
  = pre ++ maskFrom (length pre) key payload.
Proof.
  revert pre. induction payload as [|b later IH]; intros pre.
  - reflexivity.
  - cbn [length seq fold_left maskFrom].
    rewrite unmask_step_middle.
    specialize (IH (pre ++ [byte_xor b (index key (length pre mod 4))])).
    rewrite length_app in IH. cbn [length] in IH.
    rewrite Nat.add_1_r in IH.
    rewrite IH, <- app_assoc. reflexivity.
Qed.

(** The loop computes the XOR of every byte with its key byte. *)
Lemma unmask_maskFrom (key payload : list byte) :
  unmask (length payload) key payload = maskFrom 0 key payload.
Proof. exact (unmask_loop key payload []). Qed.

Lemma maskFrom_length (i : nat) (key payload : list byte) :
  length (maskFrom i key payload) = length payload.
Proof.
  revert i. induction payload as [|b later IH]; intros i; simpl; [|rewrite IH]; reflexivity.
Qed.

Lemma maskFrom_index (key payload : list byte) (s i : nat) :
  (i < length payload)%nat ->
  index (maskFrom s key payload) i
  = byte_xor (index payload i) (index key ((s + i) mod 4)).
Proof.
  unfold index. revert s i.
  induction payload as [|b later IH]; intros s i Hi; cbn [length] in Hi; [lia|].
  destruct i as [|i]; cbn [maskFrom nth].
  - rewrite Nat.add_0_r. reflexivity.
  - rewrite IH by lia.
    replace (S s + i)%nat with (s + S i)%nat by lia. reflexivity.
Qed.

(** Masking twice with the same key gives the payload back. *)
Lemma maskFrom_involutive (i : nat) (key payload : list byte) :
  maskFrom i key (maskFrom i key payload) = payload.
Proof.
  revert i. induction payload as [|b later IH]; intros i; simpl.
  - reflexivity.
  - rewrite byte_xor_involutive, IH. reflexivity.
Qed.

(** ** Length fields *)

Lemma int_of_byte_and (a b : byte) :
  int_of_byte (byte_and a b) = Z.land (int_of_byte a) (int_of_byte b).
Proof.
  unfold byte_and. rewrite int_of_byte_of_int.
  apply Z.bits_inj'. intros n Hn. change 256 with (2 ^ 8).
  destruct (Z.lt_ge_cases n 8) as [Hlt|Hge].
  - apply Z.mod_pow2_bits_low. lia.
  - rewrite Z.mod_pow2_bits_high by lia.
    rewrite Z.land_spec, !byte_bits_high by lia. reflexivity.
Qed.

Lemma int_shl_small (x n : Z) :
  0 <= n -> 0 <= x -> x * 2 ^ n < 2 ^ 63 -> int_shl x n = x * 2 ^ n.
Proof.
  intros Hn Hx Hb. unfold int_shl. rewrite Z.shiftl_mul_pow2 by lia.
  apply wrap_int_small. nia.
Qed.

Lemma extLen16_be (e0 e1 : byte) :
  extLen16 [e0; e1] = BigEndian.be_value [e0; e1].
Proof.
  unfold extLen16, index, BigEndian.be_value. cbn [nth fold_left].
  pose proof (int_of_byte_range e0). pose proof (int_of_byte_range e1).
  rewrite int_shl_small by lia.
  rewrite lor_disjoint by lia. lia.
Qed.

(** The top byte is the only one whose shift can leave the [int] range. *)
Lemma int_shl_56 (x : Z) :
  0 <= x < 256 ->
  int_shl x 56 = (if x <? 128 then x else x - 256) * 2 ^ 56.
Proof.
  intros Hx. unfold int_shl, wrap_int. rewrite Z.shiftl_mul_pow2 by lia.
  destruct (x <? 128) eqn:E.
  - apply Z.ltb_lt in E. rewrite Z.mod_small; lia.
  - apply Z.ltb_ge in E.
    replace (x * 2 ^ 56 + 2 ^ 63) with ((x * 2 ^ 56 - 2 ^ 63) + 1 * 2 ^ 64) by lia.
    rewrite Z.mod_add by lia. rewrite Z.mod_small; lia.
Qed.

Lemma extLen64_signed (e0 e1 e2 e3 e4 e5 e6 e7 : byte) :
  extLen64 [e0; e1; e2; e3; e4; e5; e6; e7]
  = BigEndian.be_value [e0; e1; e2; e3; e4; e5; e6; e7]
    - (if int_of_byte e0 <? 128 then 0 else 2 ^ 64).
Proof.
  unfold extLen64, index, BigEndian.be_value. cbn [nth fold_left].
  pose proof (int_of_byte_range e0). pose proof (int_of_byte_range e1).
  pose proof (int_of_byte_range e2). pose proof (int_of_byte_range e3).
  pose proof (int_of_byte_range e4). pose proof (int_of_byte_range e5).
  pose proof (int_of_byte_range e6). pose proof (int_of_byte_range e7).
  rewrite int_shl_56 by lia.
  rewrite !int_shl_small by lia.
  set (t := if int_of_byte e0 <? 128 then int_of_byte e0 else int_of_byte e0 - 256).
  assert (Ht : -128 <= t < 128) by (subst t; destruct (int_of_byte e0 <? 128) eqn:E; lia).
  replace (int_of_byte e1 * 2 ^ 48) with (int_of_byte e1 * 2 ^ 48 + 0) by lia.
  rewrite (lor_disjoint t _ 56) by lia.
  replace (t * 2 ^ 56 + (int_of_byte e1 * 2 ^ 48 + 0))
    with ((t * 2 ^ 8 + int_of_byte e1) * 2 ^ 48) by lia.
  rewrite (lor_disjoint _ _ 48) by lia.
  replace ((t * 2 ^ 8 + int_of_byte e1) * 2 ^ 48 + int_of_byte e2 * 2 ^ 40)
    with (((t * 2 ^ 8 + int_of_byte e1) * 2 ^ 8 + int_of_byte e2) * 2 ^ 40) by lia.
  rewrite (lor_disjoint _ _ 40) by lia.
  replace (((t * 2 ^ 8 + int_of_byte e1) * 2 ^ 8 + int_of_byte e2) * 2 ^ 40
           + int_of_byte e3 * 2 ^ 32)
    with ((((t * 2 ^ 8 + int_of_byte e1) * 2 ^ 8 + int_of_byte e2) * 2 ^ 8
           + int_of_byte e3) * 2 ^ 32) by lia.
  rewrite (lor_disjoint _ _ 32) by lia.
  replace ((((t * 2 ^ 8 + int_of_byte e1) * 2 ^ 8 + int_of_byte e2) * 2 ^ 8
            + int_of_byte e3) * 2 ^ 32 + int_of_byte e4 * 2 ^ 24)
    with (((((t * 2 ^ 8 + int_of_byte e1) * 2 ^ 8 + int_of_byte e2) * 2 ^ 8
            + int_of_byte e3) * 2 ^ 8 + int_of_byte e4) * 2 ^ 24) by lia.
  rewrite (lor_disjoint _ _ 24) by lia.
  replace (((((t * 2 ^ 8 + int_of_byte e1) * 2 ^ 8 + int_of_byte e2) * 2 ^ 8
             + int_of_byte e3) * 2 ^ 8 + int_of_byte e4) * 2 ^ 24
           + int_of_byte e5 * 2 ^ 16)
    with ((((((t * 2 ^ 8 + int_of_byte e1) * 2 ^ 8 + int_of_byte e2) * 2 ^ 8
             + int_of_byte e3) * 2 ^ 8 + int_of_byte e4) * 2 ^ 8
           + int_of_byte e5) * 2 ^ 16) by lia.
  rewrite (lor_disjoint _ _ 16) by lia.
  replace ((((((t * 2 ^ 8 + int_of_byte e1) * 2 ^ 8 + int_of_byte e2) * 2 ^ 8
              + int_of_byte e3) * 2 ^ 8 + int_of_byte e4) * 2 ^ 8
            + int_of_byte e5) * 2 ^ 16 + int_of_byte e6 * 2 ^ 8)
    with (((((((t * 2 ^ 8 + int_of_byte e1) * 2 ^ 8 + int_of_byte e2) * 2 ^ 8
              + int_of_byte e3) * 2 ^ 8 + int_of_byte e4) * 2 ^ 8
            + int_of_byte e5) * 2 ^ 8 + int_of_byte e6) * 2 ^ 8) by lia.
  rewrite (lor_disjoint _ _ 8) by lia.
  subst t. destruct (int_of_byte e0 <? 128); lia.
Qed.

(** ** The decoder, field by field *)

Lemma ReadFull_2 (c : Conn) (a b : byte) (tail : list byte) :
  closed c = false -> rd c = a :: b :: tail ->
  ReadFull 2 c = (set_rd c tail, Ok [a; b]).
Proof. intros Ho Hr. exact (ReadFull_exact c [a; b] tail Ho Hr). Qed.

Lemma ReadFull_len (c : Conn) (n : nat) (bs rest : list byte) :
  closed c = false -> rd c = bs ++ rest -> length bs = n ->
  ReadFull n c = (set_rd c rest, Ok bs).
Proof. intros Ho Hr <-. now apply ReadFull_exact. Qed.

Lemma header_base (h0 h1 : byte) :
  int_of_byte (byte_and (index [h0; h1] 1) x7f) = baseLen h1.
Proof. rewrite int_of_byte_and. reflexivity. Qed.

(** Base length below 126: no extended length field is read. *)
Lemma readFrame_base (c : Conn) (h0 h1 : byte) (tail : list byte) :
  closed c = false -> rd c = h0 :: h1 :: tail ->
  baseLen h1 <> 126 -> baseLen h1 <> 127 ->
  readFrame c = readBody (baseLen h1) (set_rd c tail).
Proof.
  intros Ho Hr H6 H7. unfold readFrame at 1. unfold bind at 1.
  rewrite (ReadFull_2 c h0 h1 tail Ho Hr), header_base.
  apply Z.eqb_neq in H6, H7. rewrite H6, H7.
  unfold bind at 1. unfold ret at 1. reflexivity.
Qed.

(** Base length 126: two more bytes are read. *)
Lemma readFrame_ext16 (c : Conn) (h0 h1 e0 e1 : byte) (tail : list byte) :
  closed c = false -> rd c = h0 :: h1 :: e0 :: e1 :: tail ->
  baseLen h1 = 126 ->
  readFrame c = readBody (BigEndian.be_value [e0; e1]) (set_rd c tail).
Proof.
  intros Ho Hr H6. unfold readFrame at 1. unfold bind at 1.
  rewrite (ReadFull_2 c h0 h1 (e0 :: e1 :: tail) Ho Hr), header_base, H6.
  cbn [Z.eqb Pos.eqb]. unfold bind at 1. unfold bind at 1.
  rewrite (ReadFull_2 (set_rd c (e0 :: e1 :: tail)) e0 e1 tail Ho eq_refl).
  unfold ret at 1. rewrite extLen16_be. reflexivity.
Qed.

(** Base length 127: eight more bytes are read. *)
Lemma readFrame_ext64 (c : Conn) (h0 h1 : byte) (ext tail : list byte) :
  closed c = false -> rd c = h0 :: h1 :: ext ++ tail ->
  baseLen h1 = 127 -> length ext = 8%nat ->
  readFrame c = readBody (extLen64 ext) (set_rd c tail).
Proof.
  intros Ho Hr H7 Hl. unfold readFrame at 1. unfold bind at 1.
  rewrite (ReadFull_2 c h0 h1 (ext ++ tail) Ho Hr), header_base, H7.
  cbn [Z.eqb Pos.eqb]. unfold bind at 1. unfold bind at 1.
  rewrite (ReadFull_len (set_rd c (ext ++ tail)) 8 ext tail Ho eq_refl Hl).
  unfold ret at 1. reflexivity.
Qed.

Lemma extLen64_wrap (ext : list byte) :
  length ext = 8%nat -> extLen64 ext = wrap_int (BigEndian.be_value ext).
Proof.
  intros Hl.
  destruct ext as [|e0 [|e1 [|e2 [|e3 [|e4 [|e5 [|e6 [|e7 [|]]]]]]]]];
    try discriminate Hl.
  rewrite extLen64_signed.
  pose proof (int_of_byte_range e0). pose proof (int_of_byte_range e1).
  pose proof (int_of_byte_range e2). pose proof (int_of_byte_range e3).
  pose proof (int_of_byte_range e4). pose proof (int_of_byte_range e5).
  pose proof (int_of_byte_range e6). pose proof (int_of_byte_range e7).
  unfold BigEndian.be_value in *. cbn [fold_left] in *.
  set (v := (((((((0 * 256 + int_of_byte e0) * 256 + int_of_byte e1) * 256
      + int_of_byte e2) * 256 + int_of_byte e3) * 256 + int_of_byte e4) * 256
      + int_of_byte e5) * 256 + int_of_byte e6) * 256 + int_of_byte e7).
  assert (Hv : int_of_byte e0 * 2 ^ 56 <= v < int_of_byte e0 * 2 ^ 56 + 2 ^ 56)
    by (subst v; lia).
  unfold wrap_int.
  destruct (int_of_byte e0 <? 128) eqn:E.
  - apply Z.ltb_lt in E. rewrite Z.mod_small; lia.
  - apply Z.ltb_ge in E.
    replace (v + 2 ^ 63) with ((v - 2 ^ 63) + 1 * 2 ^ 64) by lia.
    rewrite Z.mod_add by lia. rewrite Z.mod_small; lia.
Qed.

Lemma be_value_range64 (ext : list byte) :
  length ext = 8%nat -> 0 <= BigEndian.be_value ext < 2 ^ 64.
Proof.
  intros Hl.
  destruct ext as [|e0 [|e1 [|e2 [|e3 [|e4 [|e5 [|e6 [|e7 [|]]]]]]]]];
    try discriminate Hl.
  pose proof (int_of_byte_range e0). pose proof (int_of_byte_range e1).
  pose proof (int_of_byte_range e2). pose proof (int_of_byte_range e3).
  pose proof (int_of_byte_range e4). pose proof (int_of_byte_range e5).
  pose proof (int_of_byte_range e6). pose proof (int_of_byte_range e7).
  unfold BigEndian.be_value. cbn [fold_left]. lia.
Qed.

(** The decoder's view of the length fields. *)
Lemma readFrame_announced (c : Conn) (h0 h1 : byte) (ext tail : list byte)
    (L : Z) :
  closed c = false -> rd c = h0 :: h1 :: ext ++ tail ->
  announces h1 ext L ->
  readFrame c = readBody L (set_rd c tail).
Proof.
  intros Ho Hr [(Hb & -> & ->) | [(Hb & Hl & ->) | (Hb & Hl & ->)]].
  - apply (readFrame_base c h0 h1 tail Ho Hr); lia.
  - destruct ext as [|e0 [|e1 [|]]]; try discriminate Hl.
    exact (readFrame_ext16 c h0 h1 e0 e1 tail Ho Hr Hb).
  - rewrite <- extLen64_wrap by exact Hl.
    exact (readFrame_ext64 c h0 h1 ext tail Ho Hr Hb Hl).
Qed.

(** After the length fields: four key bytes, then the payload, XORed. *)
Lemma readBody_payload (c : Conn) (key payload rest : list byte) :
  closed c = false -> rd c = key ++ payload ++ rest ->
  length key = 4%nat -> Z.of_nat (length payload) <= maxAlloc ->
  readBody (Z.of_nat (length payload)) c
  = (set_rd c rest, Ok (maskFrom 0 key payload)).
Proof.
  intros Ho Hr Hk Hm. unfold readBody. unfold bind at 1.
  rewrite (ReadFull_len c 4 key (payload ++ rest) Ho Hr Hk).
  unfold bind at 1. unfold make_bytes.
  assert (E : (Z.of_nat (length payload) <? 0) || (maxAlloc <? Z.of_nat (length payload)) = false).
  { apply orb_false_iff. split; [apply Z.ltb_ge | apply Z.ltb_ge]; lia. }
  rewrite E, Nat2Z.id. unfold bind at 1.
  rewrite (ReadFull_exact (set_rd c (payload ++ rest)) payload rest Ho eq_refl).
  unfold ret. rewrite unmask_maskFrom. reflexivity.
Qed.

(** A length the allocator refuses makes the decoder panic, once the four
    key bytes have been read. *)
Lemma readBody_refused (c : Conn) (key rest : list byte) (L : Z) :
  closed c = false -> rd c = key ++ rest -> length key = 4%nat ->
  L < 0 \/ maxAlloc < L ->
  readBody L c = (set_rd c rest, Panic MakeSliceLen).
Proof.
  intros Ho Hr Hk HL. unfold readBody. unfold bind at 1.
  rewrite (ReadFull_len c 4 key rest Ho Hr Hk).
  unfold bind at 1. unfold make_bytes.
  assert (E : (L <? 0) || (maxAlloc <? L) = true).
  { apply orb_true_iff. destruct HL; [left | right]; apply Z.ltb_lt; lia. }
  rewrite E. reflexivity.
Qed.

(** A stream that ends before the announced payload does gives an
    error. *)
Lemma readBody_truncated (c : Conn) (key rest : list byte) (L : Z) :
  closed c = false -> rd c = key ++ rest -> length key = 4%nat ->
  0 <= L <= maxAlloc -> Z.of_nat (length rest) < L ->
  exists e, readBody L c = (set_rd c [], Err e).
Proof.
  intros Ho Hr Hk HL Hshort. unfold readBody. unfold bind at 1.
  rewrite (ReadFull_len c 4 key rest Ho Hr Hk).
  unfold bind at 1. unfold make_bytes.
  assert (E : (L <? 0) || (maxAlloc <? L) = false).
  { apply orb_false_iff. split; apply Z.ltb_ge; lia. }
  rewrite E. unfold bind at 1.
  destruct (ReadFull_short (set_rd c rest) (Z.to_nat L) Ho) as [e ->].
  - cbn [set_rd rd]. lia.
  - exists e. reflexivity.
Qed.

(** A whole frame: header, length fields, key, payload. *)
Lemma readFrame_frame (c : Conn) (h0 h1 : byte)
    (ext key payload rest : list byte) :
  closed c = false ->
  rd c = h0 :: h1 :: ext ++ key ++ payload ++ rest ->
  announces h1 ext (Z.of_nat (length payload)) ->
  length key = 4%nat -> Z.of_nat (length payload) <= maxAlloc ->
  readFrame c = (set_rd c rest, Ok (maskFrom 0 key payload)).
Proof.
  intros Ho Hr Ha Hk Hm.
  rewrite (readFrame_announced c h0 h1 ext (key ++ payload ++ rest) _ Ho Hr Ha).
  now rewrite (readBody_payload (set_rd c _) key payload rest Ho eq_refl Hk Hm).
Qed.

Lemma wrap_int_high (v : Z) :
  2 ^ 63 <= v < 2 ^ 64 -> wrap_int v = v - 2 ^ 64.
Proof.
  intros Hv. unfold wrap_int.
  replace (v + 2 ^ 63) with ((v - 2 ^ 63) + 1 * 2 ^ 64) by lia.
  rewrite Z.mod_add by lia. rewrite Z.mod_small; lia.
Qed.

(** C4. Base length 126: the decoder reads two more bytes and takes their
    big-endian value as the payload length. Base length 127: it reads
    eight more bytes and takes their big-endian 64-bit value (as an [int],
    so in two's complement; it is the plain big-endian value whenever that
    is below 2^63). Any other base length is the payload length itself,
    and nothing more is read before the mask key. *)
Theorem readFrame_length_tiers (c : Conn) (h0 h1 : byte)
    (ext tail : list byte) :
  closed c = false ->
  rd c = h0 :: h1 :: ext ++ tail ->
  (baseLen h1 = 126 -> length ext = 2%nat ->
   readFrame c = readBody (BigEndian.be_value ext) (set_rd c tail))
  /\ (baseLen h1 = 127 -> length ext = 8%nat ->
      readFrame c
      = readBody (wrap_int (BigEndian.be_value ext)) (set_rd c tail)
      /\ (BigEndian.be_value ext < 2 ^ 63 ->
          wrap_int (BigEndian.be_value ext) = BigEndian.be_value ext))
  /\ (baseLen h1 <> 126 -> baseLen h1 <> 127 -> ext = [] ->
      readFrame c = readBody (baseLen h1) (set_rd c tail)).
Proof.
  intros Ho Hr. repeat split.
  - intros Hb Hl. apply (readFrame_announced c h0 h1 ext tail _ Ho Hr).
    right; left. auto.
  - apply (readFrame_announced c h0 h1 ext tail _ Ho Hr).
    right; right. auto.
  - intros Hlt. apply wrap_int_small.
    pose proof (be_value_range64 ext H0). lia.
  - intros H6 H7 ->. apply (readFrame_base c h0 h1 tail Ho Hr H6 H7).
Qed.

(** C5. Whatever the MASK flag says (byte 1 is constrained in its low
    seven bits only), the decoder takes the four bytes after the length
    fields as the mask key and returns the payload with byte [i] XORed
    with [key[i % 4]]; a payload masked with that key comes out as it was
    before masking. *)
Theorem readFrame_unmasks (c : Conn) (h0 h1 : byte)
    (ext key payload rest : list byte) :
  closed c = false ->
  rd c = h0 :: h1 :: ext ++ key ++ payload ++ rest ->
  announces h1 ext (Z.of_nat (length payload)) ->
  length key = 4%nat ->
  Z.of_nat (length payload) <= maxAlloc ->
  exists out,
    readFrame c = (set_rd c rest, Ok out)
    /\ length out = length payload
    /\ (forall i, (i < length payload)%nat ->
        index out i = byte_xor (index payload i) (index key (i mod 4)))
    /\ (forall original,
        payload = maskFrom 0 key original -> out = original).
Proof.
  intros Ho Hr Ha Hk Hm. exists (maskFrom 0 key payload).
  split; [|split; [|split]].
  - now apply (readFrame_frame c h0 h1 ext key payload rest).
  - apply maskFrom_length.
  - intros i Hi. now rewrite maskFrom_index.
  - intros original ->. apply maskFrom_involutive.
Qed.

(** C10. With base length 127 the payload length is assembled by [int]
    shifts: a length field with bit 63 set comes out negative and the
    allocation of the payload buffer panics, where an error was due. No
    bound of the decoder's own stands before the allocation: a length the
    allocator refuses panics too, and any other is accepted. *)
Theorem readFrame_length64_unchecked (c : Conn) (h0 h1 : byte)
    (ext key rest : list byte) :
  closed c = false ->
  baseLen h1 = 127 ->
  length ext = 8%nat ->
  length key = 4%nat ->
  rd c = h0 :: h1 :: ext ++ key ++ rest ->
  (2 ^ 63 <= BigEndian.be_value ext ->
   extLen64 ext = BigEndian.be_value ext - 2 ^ 64
   /\ extLen64 ext < 0
   /\ readFrame c = (set_rd c rest, Panic MakeSliceLen))
  /\ (BigEndian.be_value ext < 2 ^ 63 ->
      extLen64 ext = BigEndian.be_value ext
      /\ (maxAlloc < BigEndian.be_value ext ->
          readFrame c = (set_rd c rest, Panic MakeSliceLen))
      /\ (forall payload rest',
          rest = payload ++ rest' ->
          Z.of_nat (length payload) = BigEndian.be_value ext ->
          BigEndian.be_value ext <= maxAlloc ->
          readFrame c = (set_rd c rest', Ok (maskFrom 0 key payload)))).
Proof.
  intros Ho Hb Hl Hk Hr.
  pose proof (be_value_range64 ext Hl) as Hv.
  pose proof (readFrame_ext64 c h0 h1 ext (key ++ rest) Ho Hr Hb Hl) as Hf.
  pose proof (extLen64_wrap ext Hl) as Hw.
  split.
  - intros Hhigh. rewrite wrap_int_high in Hw by lia.
    split; [exact Hw|]. split; [lia|].
    rewrite Hf.
    apply (readBody_refused (set_rd c (key ++ rest)) key rest); auto. lia.
  - intros Hlow. rewrite wrap_int_small in Hw by lia.
    split; [exact Hw|]. split.
    + intros Hbig. rewrite Hf.
      apply (readBody_refused (set_rd c (key ++ rest)) key rest); auto. lia.
    + intros payload rest' -> Hlen Hfit.
      rewrite Hf, Hw, <- Hlen.
      apply (readBody_payload (set_rd c (key ++ payload ++ rest'))
               key payload rest'); auto. lia.
Qed.

(** ** The encoder *)

Lemma Write_writes (p : list byte) (c : Conn) :
  writes (fst (Write p c)) = writes c ++ [p].
Proof.
  unfold Write. destruct (closed c); [reflexivity|].
  destruct (wr_faults c) as [|[[n e]|] later]; reflexivity.
Qed.

(** [Write] leaves the reading side of the stream alone. *)
Lemma Write_read_side (p : list byte) (c : Conn) :
  rd (fst (Write p c)) = rd c
  /\ rd_end (fst (Write p c)) = rd_end c
  /\ closed (fst (Write p c)) = closed c.
Proof.
  unfold Write. destruct (closed c) eqn:E; [cbn; auto|].
  destruct (wr_faults c) as [|[[n e]|] later]; cbn; auto.
Qed.

Lemma Write_peer (p : list byte) (bs : list byte) :
  Write p (peer bs) = (MkConn bs EOF [p] p [] false, None).
Proof. reflexivity. Qed.

Lemma be_value_16 (L : Z) :
  0 <= L <= 65535 ->
  BigEndian.be_value
    [byte_of_int (Z.shiftr L 8); byte_of_int (Z.land L 0xFF)] = L.
Proof.
  intros HL. unfold BigEndian.be_value. cbn [fold_left].
  rewrite !int_of_byte_of_int, Z.shiftr_div_pow2, <- mod256_land by lia.
  change (2 ^ 8) with 256. rewrite Z.mod_mod by lia.
  rewrite (Z.mod_small (L / 256)) by (split; [apply Z.div_pos|apply Z.div_lt_upper_bound]; lia).
  pose proof (Z.div_mod L 256 ltac:(lia)). lia.
Qed.

(** The digit of [L] at byte position [k], as the encoder extracts it. *)
Lemma byte_digit (L k : Z) :
  0 <= k -> int_of_byte (byte_of_int (Z.shiftr L (8 * k)))
            = (L / 256 ^ k) mod 256.
Proof.
  intros Hk. rewrite int_of_byte_of_int, Z.shiftr_div_pow2 by lia.
  rewrite Z.pow_mul_r by lia. reflexivity.
Qed.

Lemma digit_step (L k k' : Z) :
  0 <= L -> 0 <= k -> k' = k + 1 ->
  L / 256 ^ k = (L / 256 ^ k') * 256 + (L / 256 ^ k) mod 256.
Proof.
  intros HL Hk ->. rewrite Z.pow_add_r, Z.pow_1_r by lia.
  rewrite <- Z.div_div by lia.
  pose proof (Z.div_mod (L / 256 ^ k) 256 ltac:(lia)). lia.
Qed.

Lemma be_value_64 (L : Z) :
  0 <= L < 2 ^ 64 ->
  BigEndian.be_value
    [byte_of_int (Z.shiftr L 56); byte_of_int (Z.shiftr L 48);
     byte_of_int (Z.shiftr L 40); byte_of_int (Z.shiftr L 32);
     byte_of_int (Z.shiftr L 24); byte_of_int (Z.shiftr L 16);
     byte_of_int (Z.shiftr L 8); byte_of_int (Z.land L 0xFF)] = L.
Proof.
  intros HL. unfold BigEndian.be_value. cbn [fold_left].
  rewrite (int_of_byte_of_int (Z.land L 255)), <- mod256_land, Z.mod_mod by lia.
  change 56 with (8 * 7). change 48 with (8 * 6). change 40 with (8 * 5).
  change 32 with (8 * 4). change 24 with (8 * 3). change 16 with (8 * 2).
  change (Z.shiftr L 8) with (Z.shiftr L (8 * 1)).
  rewrite !byte_digit by lia.
  pose proof (digit_step L 0 1 ltac:(lia) ltac:(lia) eq_refl) as D0.
  pose proof (digit_step L 1 2 ltac:(lia) ltac:(lia) eq_refl) as D1.
  pose proof (digit_step L 2 3 ltac:(lia) ltac:(lia) eq_refl) as D2.
  pose proof (digit_step L 3 4 ltac:(lia) ltac:(lia) eq_refl) as D3.
  pose proof (digit_step L 4 5 ltac:(lia) ltac:(lia) eq_refl) as D4.
  pose proof (digit_step L 5 6 ltac:(lia) ltac:(lia) eq_refl) as D5.
  pose proof (digit_step L 6 7 ltac:(lia) ltac:(lia) eq_refl) as D6.
  pose proof (digit_step L 7 8 ltac:(lia) ltac:(lia) eq_refl) as D7.
  assert (E8 : L / 256 ^ 8 = 0) by (apply Z.div_small; lia).
  rewrite E8 in D7. rewrite Z.pow_0_r, Z.div_1_r in D0.
  lia.
Qed.

Lemma small_byte (L : Z) :
  0 <= L <= 125 ->
  int_of_byte (byte_of_int L) = L
  /\ baseLen (byte_of_int L) = L
  /\ maskBit (byte_of_int L) = false.
Proof.
  intros HL. unfold baseLen, maskBit.
  rewrite int_of_byte_of_int, Z.mod_small by lia. repeat split.
  - change (Z.land L 0x7F) with (Z.land L (Z.ones 7)).
    rewrite Z.land_ones by lia. apply Z.mod_small. lia.
  - rewrite <- (Z.mod_small L (2 ^ 7)) by lia.
    apply Z.mod_pow2_bits_high. lia.
Qed.

(** What the encoder hands to [Write]: 0x81, a length byte with the MASK
    bit clear, the extended length if any, and the message. *)
Lemma writeFrame_shape (message : list byte) (c : Conn) :
  Z.of_nat (length message) < 2 ^ 63 ->
  exists h1 ext,
    writeFrame message c = Write (x81 :: h1 :: ext ++ message) c
    /\ announces h1 ext (Z.of_nat (length message))
    /\ maskBit h1 = false
    /\ 2 + Z.of_nat (length ext)
       = tierHeaderSize (Z.of_nat (length message)).
Proof.
  intros HL. unfold writeFrame, tierHeaderSize.
  set (L := Z.of_nat (length message)) in *.
  assert (H0 : 0 <= L) by (subst L; lia).
  destruct (L <=? 125) eqn:E1; [|destruct (L <=? 65535) eqn:E2].
  - apply Z.leb_le in E1.
    destruct (small_byte L ltac:(lia)) as (_ & Hb & Hm).
    exists (byte_of_int L), []. repeat split; auto.
    left. rewrite Hb. repeat split; auto. lia.
  - apply Z.leb_gt in E1. apply Z.leb_le in E2.
    exists x7e, [byte_of_int (Z.shiftr L 8); byte_of_int (Z.land L 0xFF)].
    repeat split; auto.
    right; left. repeat split; auto. symmetry. apply be_value_16. lia.
  - apply Z.leb_gt in E1, E2.
    exists x7f,
      [byte_of_int (Z.shiftr L 56); byte_of_int (Z.shiftr L 48);
       byte_of_int (Z.shiftr L 40); byte_of_int (Z.shiftr L 32);
       byte_of_int (Z.shiftr L 24); byte_of_int (Z.shiftr L 16);
       byte_of_int (Z.shiftr L 8); byte_of_int (Z.land L 0xFF)].
    repeat split; auto.
    right; right. repeat split; auto.
    rewrite be_value_64 by lia. symmetry. apply wrap_int_small. lia.
Qed.

Lemma set_mask_bit (h1 : byte) :
  baseLen (byte_of_int (Z.lor (int_of_byte h1) 0x80)) = baseLen h1
  /\ maskBit (byte_of_int (Z.lor (int_of_byte h1) 0x80)) = true.
Proof. destruct h1; vm_compute; split; reflexivity. Qed.

Lemma announces_base (h1 h1' : byte) (ext : list byte) (L : Z) :
  baseLen h1' = baseLen h1 -> announces h1 ext L -> announces h1' ext L.
Proof. unfold announces. intros ->. auto. Qed.

(** Where the mask goes in an encoded frame. *)
Lemma injectMask_frame (key : list byte) (h0 h1 : byte)
    (ext payload : list byte) (L : Z) :
  announces h1 ext L ->
  injectMask key (h0 :: h1 :: ext ++ payload)
  = h0 :: byte_of_int (Z.lor (int_of_byte h1) 0x80)
       :: ext ++ key ++ maskFrom 0 key payload.
Proof.
  unfold injectMask, headerLen. cbn [index nth].
  intros [(Hb & -> & _) | [(Hb & Hl & _) | (Hb & Hl & _)]].
  - assert (E6 : (baseLen h1 =? 126) = false) by (apply Z.eqb_neq; lia).
    assert (E7 : (baseLen h1 =? 127) = false) by (apply Z.eqb_neq; lia).
    rewrite E6, E7. reflexivity.
  - rewrite Hb. destruct ext as [|e0 [|e1 [|]]]; try discriminate Hl.
    reflexivity.
  - rewrite Hb.
    destruct ext as [|e0 [|e1 [|e2 [|e3 [|e4 [|e5 [|e6 [|e7 [|]]]]]]]]];
      try discriminate Hl.
    reflexivity.
Qed.

(** Encoding, masking and decoding returns the payload, for every payload
    the allocator can hold. *)
Lemma roundtrip (payload key rest : list byte) :
  length key = 4%nat ->
  Z.of_nat (length payload) <= maxAlloc ->
  snd (writeFrame payload (peer [])) = None
  /\ readFrame (peer (injectMask key (encoded payload) ++ rest))
     = (peer rest, Ok payload)
  /\ exists header,
       encoded payload = header ++ payload
       /\ Z.of_nat (length header)
          = tierHeaderSize (Z.of_nat (length payload)).
Proof.
  intros Hk Hm. unfold encoded.
  destruct (writeFrame_shape payload (peer [])) as (h1 & ext & Hw & Ha & _ & Hs).
  { unfold maxAlloc in Hm. lia. }
  rewrite Hw, Write_peer. cbn [fst snd sent].
  split; [reflexivity|]. split.
  - rewrite (injectMask_frame key x81 h1 ext payload _ Ha).
    destruct (set_mask_bit h1) as (Hb & _).
    pose proof (announces_base h1 _ ext _ Hb Ha) as Ha'.
    set (h1' := byte_of_int (Z.lor (int_of_byte h1) 128)) in *.
    pose proof (readFrame_frame
                  (peer ((x81 :: h1' :: ext ++ key ++ maskFrom 0 key payload)
                         ++ rest))
                  x81 h1' ext key (maskFrom 0 key payload) rest) as E.
    rewrite maskFrom_length, maskFrom_involutive in E.
    apply E; auto.
    cbn [peer rd app]. rewrite <- !app_assoc. reflexivity.
  - exists (x81 :: h1 :: ext). split; [reflexivity|].
    cbn [length]. lia.
Qed.

Lemma Write_healthy (p : list byte) (c : Conn) :
  closed c = false -> wr_faults c = [] ->
  snd (Write p c) = None /\ sent (fst (Write p c)) = sent c ++ p.
Proof. intros Ho Hf. unfold Write. rewrite Ho, Hf. split; reflexivity. Qed.

(** C2. The encoder makes one [Write] of a header followed by the message
    as it is. The header is [0x81, L] for L <= 125, [0x81, 126] and L on
    two big-endian bytes for 126 <= L <= 65535, [0x81, 127] and L on eight
    big-endian bytes above; bit 7 of its second byte is clear, and with a
    header of 2, 4 or 10 bytes there is no room for a mask key. *)
Theorem writeFrame_header_tiers (message : list byte) (c : Conn) :
  Z.of_nat (length message) < 2 ^ 63 ->
  exists header,
    writes (fst (writeFrame message c)) = writes c ++ [header ++ message]
    /\ (Z.of_nat (length message) <= 125 ->
        header = [byte_of_int 0x81; byte_of_int (Z.of_nat (length message))]
        /\ int_of_byte (index header 1) = Z.of_nat (length message))
    /\ (126 <= Z.of_nat (length message) <= 65535 ->
        exists hi lo,
          header = [byte_of_int 0x81; byte_of_int 126; hi; lo]
          /\ BigEndian.be_value [hi; lo] = Z.of_nat (length message))
    /\ (65535 < Z.of_nat (length message) ->
        exists ext,
          header = byte_of_int 0x81 :: byte_of_int 127 :: ext
          /\ length ext = 8%nat
          /\ BigEndian.be_value ext = Z.of_nat (length message))
    /\ maskBit (index header 1) = false
    /\ Z.of_nat (length header) = tierHeaderSize (Z.of_nat (length message))
    /\ (closed c = false -> wr_faults c = [] ->
        snd (writeFrame message c) = None
        /\ sent (fst (writeFrame message c)) = sent c ++ header ++ message).
Proof.
  intros HL. unfold writeFrame, tierHeaderSize.
  set (L := Z.of_nat (length message)) in *.
  assert (H0 : 0 <= L) by (subst L; lia).
  destruct (L <=? 125) eqn:E1; [|destruct (L <=? 65535) eqn:E2].
  - apply Z.leb_le in E1.
    destruct (small_byte L ltac:(lia)) as (Hi & _ & Hm).
    exists [x81; byte_of_int L].
    split; [apply Write_writes|]. split; [auto|].
    split; [intros; lia|]. split; [intros; lia|].
    split; [exact Hm|]. split; [reflexivity|]. apply Write_healthy.
  - apply Z.leb_gt in E1. apply Z.leb_le in E2.
    exists [x81; x7e; byte_of_int (Z.shiftr L 8); byte_of_int (Z.land L 0xFF)].
    split; [apply Write_writes|]. split; [intros; lia|].
    split.
    { intros _. eexists _, _. split; [reflexivity|]. apply be_value_16. lia. }
    split; [intros; lia|].
    split; [reflexivity|]. split; [reflexivity|]. apply Write_healthy.
  - apply Z.leb_gt in E1, E2.
    exists [x81; x7f;
            byte_of_int (Z.shiftr L 56); byte_of_int (Z.shiftr L 48);
            byte_of_int (Z.shiftr L 40); byte_of_int (Z.shiftr L 32);
            byte_of_int (Z.shiftr L 24); byte_of_int (Z.shiftr L 16);
            byte_of_int (Z.shiftr L 8); byte_of_int (Z.land L 0xFF)].
    split; [apply Write_writes|]. split; [intros; lia|].
    split; [intros; lia|].
    split.
    { intros _. eexists. split; [reflexivity|]. split; [reflexivity|].
      apply be_value_64. lia. }
    split; [reflexivity|]. split; [reflexivity|]. apply Write_healthy.
Qed.

Lemma writeFrame_header_tiers_witness :
  Z.of_nat (length (repeat x61 300)) < 2 ^ 63
  /\ exists header,
       writes (fst (writeFrame (repeat x61 300) (peer [])))
       = [header ++ repeat x61 300]
       /\ header = [x81; x7e; x01; x2c].
Proof.
  split; [vm_compute; reflexivity|].
  destruct (writeFrame_header_tiers (repeat x61 300) (peer []))
    as (header & Hw & _ & H16 & _); [vm_compute; reflexivity|].
  exists header. split; [exact Hw|].
  destruct H16 as (hi & lo & Hh & _); [vm_compute; split; discriminate|].
  rewrite Hh in Hw. vm_compute in Hw.
  injection Hw as Ehi Elo. rewrite Hh, <- Ehi, <- Elo. reflexivity.
Defined.

(** C1. For a payload of 0, 1, 125, 126, 65535, 65536 or 70000 bytes and
    any four-byte key: the encoder succeeds, the decoder returns the
    payload from the encoded frame with the mask injected, and the
    encoded frame is the payload behind a header of 2, 4 or 10 bytes
    according to its length tier. *)
Theorem roundtrip_lengths (payload key : list byte) :
  length key = 4%nat ->
  In (Z.of_nat (length payload)) [0; 1; 125; 126; 65535; 65536; 70000] ->
  snd (writeFrame payload (peer [])) = None
  /\ readFrame (peer (injectMask key (encoded payload)))
     = (peer [], Ok payload)
  /\ exists header,
       encoded payload = header ++ payload
       /\ Z.of_nat (length header)
          = tierHeaderSize (Z.of_nat (length payload)).
Proof.
  intros Hk Hin.
  assert (Hm : Z.of_nat (length payload) <= maxAlloc).
  { unfold maxAlloc. cbn [In] in Hin. intuition lia. }
  destruct (roundtrip payload key [] Hk Hm) as (Hw & Hr & Hh).
  rewrite app_nil_r in Hr. auto.
Qed.

Lemma roundtrip_lengths_witness :
  length [x01; x02; x03; x04] = 4%nat
  /\ In (Z.of_nat (length (repeat x61 126)))
        [0; 1; 125; 126; 65535; 65536; 70000]
  /\ readFrame (peer (injectMask [x01; x02; x03; x04]
                                 (encoded (repeat x61 126))))
     = (peer [], Ok (repeat x61 126)).
Proof.
  split; [reflexivity|]. split; [vm_compute; tauto|].
  apply (roundtrip_lengths (repeat x61 126) [x01; x02; x03; x04]).
  - reflexivity.
  - vm_compute; tauto.
Defined.

Lemma readFrame_length_tiers_witness :
  closed (peer [x81; xfe; x01; x00; x0a; x0b; x0c; x0d]) = false
  /\ rd (peer [x81; xfe; x01; x00; x0a; x0b; x0c; x0d])
     = x81 :: xfe :: [x01; x00] ++ [x0a; x0b; x0c; x0d]
  /\ readFrame (peer [x81; xfe; x01; x00; x0a; x0b; x0c; x0d])
     = readBody 256 (peer [x0a; x0b; x0c; x0d]).
Proof.
  split; [reflexivity|]. split; [reflexivity|].
  destruct (readFrame_length_tiers
              (peer [x81; xfe; x01; x00; x0a; x0b; x0c; x0d])
              x81 xfe [x01; x00] [x0a; x0b; x0c; x0d] eq_refl eq_refl)
    as (H16 & _).
  exact (H16 eq_refl eq_refl).
Defined.

Lemma readFrame_unmasks_witness :
  announces x02 [] (Z.of_nat (length [x69; x6b]))
  /\ exists out,
       readFrame (peer [x81; x02; x01; x02; x03; x04; x69; x6b; xff])
       = (peer [xff], Ok out)
       /\ out = [x68; x69].
Proof.
  assert (Ha : announces x02 [] (Z.of_nat (length [x69; x6b]))).
  { left. vm_compute. repeat split; reflexivity. }
  split; [exact Ha|].
  destruct (readFrame_unmasks
              (peer [x81; x02; x01; x02; x03; x04; x69; x6b; xff])
              x81 x02 [] [x01; x02; x03; x04] [x69; x6b] [xff]
              eq_refl eq_refl Ha eq_refl)
    as (out & Hr & _ & _ & Hu); [vm_compute; discriminate|].
  exists out. split; [exact Hr|].
  apply Hu. reflexivity.
Defined.

Lemma readFrame_length64_unchecked_witness :
  baseLen xff = 127
  /\ 2 ^ 63 <= BigEndian.be_value [x80; x00; x00; x00; x00; x00; x00; x01]
  /\ readFrame (peer [x81; xff; x80; x00; x00; x00; x00; x00; x00; x01;
                      x0a; x0b; x0c; x0d; x41])
     = (peer [x41], Panic MakeSliceLen).
Proof.
  split; [reflexivity|]. split; [vm_compute; discriminate|].
  destruct (readFrame_length64_unchecked
              (peer [x81; xff; x80; x00; x00; x00; x00; x00; x00; x01;
                     x0a; x0b; x0c; x0d; x41])
              x81 xff [x80; x00; x00; x00; x00; x00; x00; x01]
              [x0a; x0b; x0c; x0d] [x41]
              eq_refl eq_refl eq_refl eq_refl eq_refl)
    as (Hneg & _).
  destruct Hneg as (_ & _ & Hp); [vm_compute; discriminate|].
  exact Hp.
Defined.

(** ** strings *)

Lemma HasPrefix_spec (s prefix : string) :
  strings.HasPrefix s prefix = true
  <-> exists post, s = (prefix ++ post)%string.
Proof.
  revert s. induction prefix as [|p prefix IH]; intros s.
  - split; [intros _; exists s; reflexivity | destruct s; reflexivity].
  - destruct s as [|c s]; cbn [strings.HasPrefix].
    { split; [discriminate | intros [post Hp]; discriminate]. }
    rewrite andb_true_iff, IH. split.
    + intros [Hc [post ->]]. apply Ascii.eqb_eq in Hc. subst.
      exists post. reflexivity.
    + intros [post Hp]. injection Hp as -> ->. split.
      * apply Ascii.eqb_refl.
      * exists post. reflexivity.
Qed.

(** [strings.Contains] finds exactly the substrings. *)
Lemma Contains_spec (s sub : string) :
  strings.Contains s sub = true <-> Substring sub s.
Proof.
  unfold Substring. induction s as [|c s IH].
  - cbn [strings.Contains]. rewrite orb_false_r, HasPrefix_spec. split.
    + intros [post Hp]. exists EmptyString, post. exact Hp.
    + intros (pre & post & Hp). destruct pre; [exists post; exact Hp|].
      discriminate.
  - cbn [strings.Contains]. rewrite orb_true_iff, HasPrefix_spec, IH. split.
    + intros [[post Hp] | (pre & post & Hp)].
      * exists EmptyString, post. exact Hp.
      * exists (String c pre), post. simpl. now rewrite Hp.
    + intros (pre & post & Hp). destruct pre as [|a pre].
      * left. exists post. exact Hp.
      * right. simpl in Hp. injection Hp as _ Hp. exists pre, post. exact Hp.
Qed.

(** ** What a consumer can do to the stream *)

Lemma writeFrame_Write (message : list byte) (c : Conn) :
  exists p, writeFrame message c = Write p c.
Proof. unfold writeFrame. eexists. reflexivity. Qed.

Lemma perform_read_side (c : Conn) (a : action) :
  rd (perform c a) = rd c /\ rd_end (perform c a) = rd_end c.
Proof.
  destruct a as [message|]; cbn [perform]; [|split; reflexivity].
  unfold Send. destruct (writeFrame_Write (list_byte_of_string message) c) as [p ->].
  destruct (Write_read_side p c) as (? & ? & ?). auto.
Qed.

Lemma perform_closed (c : Conn) (a : action) :
  closed (perform c a)
  = match a with DoClose => true | DoSend _ => closed c end.
Proof.
  destruct a as [message|]; cbn [perform]; [|reflexivity].
  unfold Send. destruct (writeFrame_Write (list_byte_of_string message) c) as [p ->].
  apply Write_read_side.
Qed.

Lemma perform_writes (c : Conn) (a : action) :
  exists more, writes (perform c a) = writes c ++ more.
Proof.
  destruct a as [message|]; cbn [perform].
  - unfold Send. destruct (writeFrame_Write (list_byte_of_string message) c) as [p ->].
    rewrite Write_writes. eexists. reflexivity.
  - exists []. cbn. now rewrite app_nil_r.
Qed.

Lemma actions_read_side (acts : list action) (c : Conn) :
  rd (fold_left perform acts c) = rd c
  /\ rd_end (fold_left perform acts c) = rd_end c.
Proof.
  revert c. induction acts as [|a acts IH]; intros c; cbn [fold_left].
  - split; reflexivity.
  - destruct (IH (perform c a)) as (-> & ->). apply perform_read_side.
Qed.

Lemma actions_keep_open (acts : list action) (c : Conn) :
  ~ In DoClose acts -> closed (fold_left perform acts c) = closed c.
Proof.
  revert c. induction acts as [|a acts IH]; intros c Hn; cbn [fold_left].
  - reflexivity.
  - rewrite IH by (intros Hin; apply Hn; right; exact Hin).
    rewrite perform_closed. destruct a; [reflexivity|].
    exfalso. apply Hn. left. reflexivity.
Qed.

Lemma actions_writes (acts : list action) (c : Conn) :
  exists more, writes (fold_left perform acts c) = writes c ++ more.
Proof.
  revert c. induction acts as [|a acts IH]; intros c; cbn [fold_left].
  - exists []. now rewrite app_nil_r.
  - destruct (IH (perform c a)) as [m2 ->].
    destruct (perform_writes c a) as [m1 ->].
    exists (m1 ++ m2). now rewrite app_assoc.
Qed.

(** A callback is logged once and never touches the reading side. *)
Lemma invoke_spec {H} (cb : H -> H * list action) (ev : call)
    (conn : Conn) (k : Consumer H) :
  calls (snd (invoke cb ev conn k)) = calls k ++ [ev]
  /\ hstate (snd (invoke cb ev conn k)) = fst (cb (hstate k))
  /\ rd (fst (invoke cb ev conn k)) = rd conn
  /\ rd_end (fst (invoke cb ev conn k)) = rd_end conn
  /\ (~ In DoClose (snd (cb (hstate k))) ->
      closed (fst (invoke cb ev conn k)) = closed conn)
  /\ exists more, writes (fst (invoke cb ev conn k)) = writes conn ++ more.
Proof.
  unfold invoke. destruct (cb (hstate k)) as [h' acts]. cbn [fst snd calls hstate].
  destruct (actions_read_side acts conn) as (Hr & He).
  repeat split; auto.
  - apply actions_keep_open.
  - apply actions_writes.
Qed.

(** On a string of ASCII bytes, lower-casing is byte by byte, so two such
    strings are equal up to case when their bytes are, letter for
    letter. *)
Lemma equalFold_ASCII (u : string -> string) (s t : string) :
  strings.isASCII s = true -> strings.isASCII t = true ->
  equalFold u s t <-> strings.mapBytes strings.lower s
                      = strings.mapBytes strings.lower t.
Proof.
  intros Hs Ht. unfold equalFold, strings.ToLower. rewrite Hs, Ht. tauto.
Qed.

(** ** The handshake *)

Section Handshake.

Context {H : Type} `{handler : WSHandler H}.
Variable unicodeToLower : string -> string.

Lemma wellFormed_checks (r : http.Request) :
  wellFormed unicodeToLower r ->
  negb (String.eqb
          (strings.ToLower unicodeToLower
             (http.Get (http.header r) "Upgrade")) "websocket")
  || negb (strings.Contains
             (strings.ToLower unicodeToLower
                (http.Get (http.header r) "Connection")) "upgrade") = false
  /\ String.eqb (http.Get (http.header r) "Sec-WebSocket-Key") "" = false.
Proof.
  intros (Hu & Hc & Hk). unfold equalFold, containsFold in *.
  change (strings.ToLower unicodeToLower "websocket") with "websocket" in Hu.
  change (strings.ToLower unicodeToLower "upgrade") with "upgrade" in Hc.
  split.
  - rewrite Hu. apply Contains_spec in Hc. rewrite Hc. reflexivity.
  - apply String.eqb_neq. exact Hk.
Qed.

(** C7. A request whose Upgrade header is not "websocket" up to case, or
    whose Connection header does not contain "upgrade" up to case, or
    whose Sec-WebSocket-Key header is empty, is answered with status 400
    on the HTTP surface; the stream is not taken and the consumer is left
    exactly as it was, so no callback has fired. *)
Theorem UpgradeToWebSocket_rejects (w : http.ResponseWriter)
    (r : http.Request) (k : Consumer H) :
  ~ equalFold unicodeToLower
      (http.Get (http.header r) "Upgrade") "websocket"
  \/ ~ containsFold unicodeToLower
        (http.Get (http.header r) "Connection") "upgrade"
  \/ http.Get (http.header r) "Sec-WebSocket-Key" = EmptyString ->
  exists w',
    UpgradeToWebSocket unicodeToLower w r k = (w', k, Declined)
    /\ http.status w' = Some 400
    /\ http.hijacked w' = http.hijacked w
    /\ (forall beats,
        serve unicodeToLower beats w r k = Some (k, Declined, None)).
Proof.
  intros Hbad. unfold serve, UpgradeToWebSocket.
  destruct (negb (String.eqb
                    (strings.ToLower unicodeToLower
                       (http.Get (http.header r) "Upgrade")) "websocket")
            || negb (strings.Contains
                       (strings.ToLower unicodeToLower
                          (http.Get (http.header r) "Connection")) "upgrade"))
    eqn:E.
  - eexists. repeat split.
  - apply orb_false_iff in E. destruct E as [E1 E2].
    apply negb_false_iff in E1, E2.
    apply String.eqb_eq in E1. apply Contains_spec in E2.
    destruct Hbad as [Hb | [Hb | Hb]];
      [exfalso; apply Hb; exact E1 | exfalso; apply Hb; exact E2 |].
    rewrite Hb. cbn [String.eqb]. eexists. repeat split.
Qed.

(** C8. When the write of the 101 response on the hijacked stream fails,
    the stream is closed and the call returns: the consumer is left as it
    was and no connection goroutine is started, so neither [OnConnect]
    nor [OnClose] nor any other callback fires. *)
Theorem handshake_write_failure (w : http.ResponseWriter)
    (r : http.Request) (k : Consumer H) (conn : Conn) (e : error) :
  wellFormed unicodeToLower r ->
  http.hijack w = http.HijackGives conn ->
  snd (Write (list_byte_of_string
                (response (http.Get (http.header r) "Sec-WebSocket-Key")))
             conn) = Some e ->
  exists conn',
    UpgradeToWebSocket unicodeToLower w r k
    = (http.detach w, k, Aborted conn')
    /\ closed conn' = true
    /\ (forall beats,
        serve unicodeToLower beats w r k = Some (k, Aborted conn', None)).
Proof.
  intros Hwf Hh Hfail. destruct (wellFormed_checks r Hwf) as (E1 & E2).
  unfold serve, UpgradeToWebSocket. rewrite E1, E2, Hh.
  destruct (Write _ conn) as [c' [e'|]] eqn:EW; [|discriminate Hfail].
  exists (Close c'). repeat split.
Qed.

(** C3. The response written on the hijacked stream carries, as its
    Sec-WebSocket-Accept token, the base64 text of the SHA-1 digest of the
    client's key followed by the GUID; for the key of the protocol's
    example this is "s3pPLMBiTxaQ9kYGzzhZRbK+xOo=". *)
Theorem accept_token (w : http.ResponseWriter) (r : http.Request)
    (k : Consumer H) (conn : Conn) :
  wellFormed unicodeToLower r ->
  http.hijack w = http.HijackGives conn ->
  let key := http.Get (http.header r) "Sec-WebSocket-Key" in
  let token :=
    base64.EncodeToString
      (sha1.Sum (list_byte_of_string
                   (key ++ "258EAFA5-E914-47DA-95CA-C5AB0DC85B11"))) in
  (exists k' conn' more,
     (UpgradeToWebSocket unicodeToLower w r k
      = (http.detach w, k', Started conn')
      \/ UpgradeToWebSocket unicodeToLower w r k
         = (http.detach w, k', Aborted conn'))
     /\ writes conn'
        = writes conn
          ++ [list_byte_of_string
                ("HTTP/1.1 101 Switching Protocols" ++ CRLF
                 ++ "Upgrade: websocket" ++ CRLF
                 ++ "Connection: Upgrade" ++ CRLF
                 ++ "Sec-WebSocket-Accept: " ++ token ++ CRLF ++ CRLF)]
          ++ more)
  /\ acceptKey key = token
  /\ acceptKey "dGhlIHNhbXBsZSBub25jZQ==" = "s3pPLMBiTxaQ9kYGzzhZRbK+xOo=".
Proof.
  intros Hwf Hh key token. split; [|split; [reflexivity | vm_compute; reflexivity]].
  destruct (wellFormed_checks r Hwf) as (E1 & E2).
  unfold UpgradeToWebSocket. rewrite E1, E2, Hh. fold key.
  pose proof (Write_writes (list_byte_of_string (response key)) conn) as Hw.
  destruct (Write (list_byte_of_string (response key)) conn) as [c' [e'|]].
  - exists k, (Close c'), []. split; [right; reflexivity|].
    cbn [fst] in Hw. cbn [Close writes]. rewrite Hw, app_nil_r. reflexivity.
  - destruct (invoke_spec OnConnect CallConnect c' k) as (_ & _ & _ & _ & _ & more & Hm).
    destruct (invoke OnConnect CallConnect c' k) as [c'' k''].
    exists k'', c'', more. split; [left; reflexivity|].
    cbn [fst] in Hw, Hm. rewrite Hm, Hw, <- app_assoc. reflexivity.
Qed.

End Handshake.

(** ** The read loop terminates *)

Lemma consuming_ret {A} (a : A) : consuming (ret a).
Proof. intros c. reflexivity. Qed.

Lemma consuming_bind {A B} (m : io A) (k : A -> io B) :
  consuming m -> (forall a, consuming (k a)) -> consuming (bind m k).
Proof.
  intros Hm Hk c. unfold bind. specialize (Hm c).
  destruct (m c) as [c' [a|e|p]]; cbn [fst] in *; auto.
  specialize (Hk a c'). lia.
Qed.

Lemma consuming_ReadFull (n : nat) : consuming (ReadFull n).
Proof.
  intros c. unfold ReadFull.
  destruct (n =? 0)%nat; [reflexivity|].
  destruct (closed c); [reflexivity|].
  destruct (n <=? length (rd c))%nat; cbn [fst set_rd rd].
  - rewrite length_skipn. lia.
  - cbn [length]. lia.
Qed.

Lemma consuming_make_bytes (n : Z) : consuming (make_bytes n).
Proof.
  intros c. unfold make_bytes.
  destruct ((n <? 0) || (maxAlloc <? n)); reflexivity.
Qed.

(** A successful read of [n > 0] bytes takes [n] bytes off the stream. *)
Lemma ReadFull_Ok (n : nat) (c c' : Conn) (bs : list byte) :
  ReadFull (S n) c = (c', Ok bs) ->
  (length (rd c') + S n = length (rd c))%nat.
Proof.
  unfold ReadFull. cbn [Nat.eqb].
  destruct (closed c); [discriminate|].
  destruct (S n <=? length (rd c))%nat eqn:E; [|discriminate].
  intros [= <- _]. apply Nat.leb_le in E.
  cbn [set_rd rd]. rewrite length_skipn. lia.
Qed.

(** A frame that decodes has taken bytes off the stream. *)
Lemma readFrame_progress (c c' : Conn) (payload : list byte) :
  readFrame c = (c', Ok payload) -> (length (rd c') < length (rd c))%nat.
Proof.
  unfold readFrame. unfold bind at 1.
  destruct (ReadFull 2 c) as [c1 [header|e|p]] eqn:E1; try discriminate.
  apply ReadFull_Ok in E1. intros E2.
  match type of E2 with ?m c1 = _ =>
    assert (Hc : consuming m) end.
  { repeat first [ apply consuming_bind; [|intros ?]
                 | apply consuming_ReadFull
                 | apply consuming_make_bytes
                 | apply consuming_ret
                 | match goal with |- consuming (if ?b then _ else _) =>
                     destruct b end ]. }
  specialize (Hc c1). rewrite E2 in Hc. cbn [fst] in Hc. lia.
Qed.

(** ** The keepalive writes *)

Lemma sameReadSide_refl (c : Conn) : sameReadSide c c.
Proof. repeat split. Qed.

Lemma sameReadSide_trans (a b c : Conn) :
  sameReadSide a b -> sameReadSide b c -> sameReadSide a c.
Proof. unfold sameReadSide. intuition congruence. Qed.

Lemma sameReadSide_sym (a b : Conn) : sameReadSide a b -> sameReadSide b a.
Proof. unfold sameReadSide. intuition congruence. Qed.

Lemma Write_sameReadSide (p : list byte) (c : Conn) :
  sameReadSide (fst (Write p c)) c.
Proof. exact (Write_read_side p c). Qed.

(** The keepalive leaves the reading side of the stream as it is, and
    adds one write of [0x89, 0x00] for each tick. *)
Lemma pings_spec (n : nat) (conn : Conn) :
  sameReadSide (pings n conn) conn
  /\ writes (pings n conn) = writes conn ++ repeat [x89; x00] n.
Proof.
  induction n as [|n (Hs & Hw)]; cbn [pings repeat].
  - split; [apply sameReadSide_refl | now rewrite app_nil_r].
  - split; unfold ping at 1.
    + eapply sameReadSide_trans; [apply Write_sameReadSide | exact Hs].
    + rewrite Write_writes, Hw, <- app_assoc. f_equal.
      rewrite repeat_cons. reflexivity.
Qed.

Lemma pings_rd (n : nat) (conn : Conn) : rd (pings n conn) = rd conn.
Proof. apply pings_spec. Qed.

Lemma pings_rd_end (n : nat) (conn : Conn) :
  rd_end (pings n conn) = rd_end conn.
Proof. apply pings_spec. Qed.

Lemma pings_closed (n : nat) (conn : Conn) :
  closed (pings n conn) = closed conn.
Proof. apply pings_spec. Qed.

Section Loop.

Context {H : Type} `{handler : WSHandler H}.

(** With at least one turn more than the stream has bytes, the loop
    comes to its end. *)
Lemma readLoop_total (turns : nat) (beats : list nat) (conn : Conn)
    (k : Consumer H) :
  (length (rd conn) < turns)%nat ->
  exists out, readLoop turns beats conn k = Some out.
Proof.
  revert beats conn k.
  induction turns as [|turns IH]; intros beats conn k Hlt; [lia|].
  cbn [readLoop]. cbv zeta.
  rewrite <- (pings_rd (hd O beats) conn) in Hlt.
  destruct (readFrame (pings (hd O beats) conn)) as [c1 [msg|e|p]] eqn:E.
  - apply readFrame_progress in E.
    destruct (invoke_spec
                (fun h => OnMessage h (string_of_list_byte msg))
                (CallMessage (string_of_list_byte msg)) c1 k)
      as (_ & _ & Hr & _).
    destruct (invoke _ _ c1 k) as [c2 k2]. cbn [fst] in Hr.
    apply IH. rewrite Hr. lia.
  - destruct (invoke _ _ c1 k) as [c2 k2]. eexists. reflexivity.
  - eexists. reflexivity.
Qed.

(** [handleWebSocket] returns, whatever the stream, the consumer and the
    pace of the keepalive. *)
Lemma handleWebSocket_total (beats : list nat) (conn : Conn)
    (k : Consumer H) :
  exists out, handleWebSocket beats conn k = Some out.
Proof.
  unfold handleWebSocket.
  destruct (invoke OnConnect CallConnect conn k) as [c1 k1].
  destruct (readLoop_total (S (length (rd c1))) beats c1 k1 ltac:(lia))
    as [[[c2 k2] how] ->].
  destruct (invoke OnClose CallClose c2 k2) as [c3 k3].
  eexists. reflexivity.
Qed.

End Loop.

(** ** Client frames on the stream *)

Lemma clientFrame_shape (key payload : list byte) :
  Z.of_nat (length payload) < 2 ^ 63 ->
  exists h1 ext,
    clientFrame key payload
    = x81 :: h1 :: ext ++ key ++ maskFrom 0 key payload
    /\ announces h1 ext (Z.of_nat (length payload))
    /\ maskBit h1 = true.
Proof.
  intros HL. unfold clientFrame, encoded.
  destruct (writeFrame_shape payload (peer []) HL) as (h1 & ext & -> & Ha & _).
  rewrite Write_peer. cbn [fst sent].
  destruct (set_mask_bit h1) as (Hb & Hm).
  eexists _, ext. split; [apply (injectMask_frame key x81 h1 ext payload _ Ha)|].
  split; [exact (announces_base h1 _ ext _ Hb Ha) | exact Hm].
Qed.

(** The decoder returns the payload of a client frame and stops right
    behind it. *)
Lemma readFrame_clientFrame (c : Conn) (key payload rest : list byte) :
  closed c = false ->
  rd c = clientFrame key payload ++ rest ->
  length key = 4%nat ->
  Z.of_nat (length payload) <= maxAlloc ->
  readFrame c = (set_rd c rest, Ok payload).
Proof.
  intros Ho Hr Hk Hm.
  destruct (clientFrame_shape key payload) as (h1 & ext & Hs & Ha & _).
  { unfold maxAlloc in Hm. lia. }
  pose proof (readFrame_frame c x81 h1 ext key (maskFrom 0 key payload) rest Ho)
    as E.
  rewrite maskFrom_length, maskFrom_involutive in E.
  apply E; auto.
  rewrite Hr, Hs. cbn [app]. rewrite <- !app_assoc. reflexivity.
Qed.

Lemma clientStream_length (frames : list (list byte * list byte)) :
  Forall (fun f => Z.of_nat (length (snd f)) <= maxAlloc) frames ->
  (length frames <= length (clientStream frames))%nat.
Proof.
  induction 1 as [|[key payload] frames Hf _ IH]; [reflexivity|].
  unfold clientStream in *. cbn [map concat fst snd length] in *.
  destruct (clientFrame_shape key payload) as (h1 & ext & -> & _).
  { unfold maxAlloc in Hf. lia. }
  rewrite length_app. cbn [length]. lia.
Qed.

Lemma readFrame_drained (c : Conn) :
  closed c = false -> rd c = [] ->
  readFrame c = (c, Err (rd_end c)).
Proof.
  intros Ho Hr. unfold readFrame, bind, ReadFull. cbn [Nat.eqb].
  rewrite Ho, Hr. cbn [length Nat.leb]. rewrite <- Hr, set_rd_same.
  reflexivity.
Qed.

Section Lifecycle.

Context {H : Type} `{handler : WSHandler H}.
Variable unicodeToLower : string -> string.

(** The read loop over a run of client frames and then the end of the
    stream: one [OnMessage] per frame, in order, and one [OnError]. *)
Lemma readLoop_frames (frames : list (list byte * list byte)) :
  keepsOpen ->
  Forall (fun f => length (fst f) = 4%nat
                   /\ Z.of_nat (length (snd f)) <= maxAlloc) frames ->
  forall (turns : nat) (beats : list nat) (conn : Conn) (k : Consumer H),
    (length frames < turns)%nat ->
    closed conn = false ->
    rd conn = clientStream frames ->
    exists conn' k',
      readLoop turns beats conn k = Some (conn', k', LoopBroke)
      /\ calls k'
         = calls k
           ++ map (fun f => CallMessage (string_of_list_byte (snd f))) frames
           ++ [CallError (rd_end conn)].
Proof.
  intros (_ & Hmsg) Hall.
  induction Hall as [|[key payload] frames (Hk & Hm) _ IH];
    intros turns beats conn k Hlt Ho Hr;
    (destruct turns as [|turns]; [cbn [length] in Hlt; lia|]);
    cbn [readLoop]; cbv zeta;
    rewrite <- (pings_closed (hd O beats) conn) in Ho;
    rewrite <- (pings_rd (hd O beats) conn) in Hr;
    rewrite <- (pings_rd_end (hd O beats) conn);
    set (c0 := pings (hd O beats) conn) in *.
  - rewrite (readFrame_drained c0 Ho Hr).
    destruct (invoke_spec (fun h => OnError h (rd_end c0))
                (CallError (rd_end c0)) c0 k) as (Hc & _).
    destruct (invoke _ _ c0 k) as [c2 k2]. cbn [snd] in Hc.
    exists c2, k2. split; [reflexivity|]. exact Hc.
  - cbn [fst snd] in Hk, Hm.
    unfold clientStream in Hr. cbn [map concat fst snd] in Hr.
    fold (clientStream frames) in Hr.
    rewrite (readFrame_clientFrame c0 key payload _ Ho Hr Hk Hm).
    destruct (invoke_spec
                (fun h => OnMessage h (string_of_list_byte payload))
                (CallMessage (string_of_list_byte payload))
                (set_rd c0 (clientStream frames)) k)
      as (Hc & _ & Hrd & He & Hop & _).
    destruct (invoke _ _ (set_rd c0 (clientStream frames)) k) as [c2 k2].
    cbn [fst snd] in *.
    destruct (IH turns (tl beats) c2 k2) as (c3 & k3 & -> & Hc3).
    + cbn [length] in Hlt. lia.
    + rewrite Hop by apply Hmsg. exact Ho.
    + exact Hrd.
    + exists c3, k3. split; [reflexivity|].
      rewrite Hc3, Hc, He. cbn [map snd rd_end set_rd].
      rewrite <- !app_assoc. reflexivity.
Qed.

(** The goroutine of a connection, from its own [OnConnect] to
    [OnClose]. *)
Lemma handleWebSocket_frames (frames : list (list byte * list byte))
    (beats : list nat) (conn : Conn) (k : Consumer H) :
  keepsOpen ->
  Forall (fun f => length (fst f) = 4%nat
                   /\ Z.of_nat (length (snd f)) <= maxAlloc) frames ->
  closed conn = false ->
  rd conn = clientStream frames ->
  exists conn' k',
    handleWebSocket beats conn k = Some (conn', k', LoopBroke)
    /\ closed conn' = true
    /\ calls k'
       = calls k ++ [CallConnect]
         ++ map (fun f => CallMessage (string_of_list_byte (snd f))) frames
         ++ [CallError (rd_end conn); CallClose].
Proof.
  intros Hkeep Hall Ho Hr. unfold handleWebSocket.
  destruct (invoke_spec OnConnect CallConnect conn k)
    as (Hc & _ & Hrd & He & Hop & _).
  destruct (invoke OnConnect CallConnect conn k) as [c1 k1].
  cbn [fst snd] in *.
  destruct (readLoop_frames frames Hkeep Hall (S (length (rd c1))) beats
              c1 k1)
    as (c2 & k2 & -> & Hc2).
  - rewrite Hrd, Hr.
    assert (Hlen : (length frames <= length (clientStream frames))%nat).
    { apply clientStream_length. eapply Forall_impl; [exact Hall|].
      intros f (_ & Hf). exact Hf. }
    lia.
  - rewrite Hop by apply Hkeep. exact Ho.
  - rewrite Hrd. exact Hr.
  - destruct (invoke_spec OnClose CallClose c2 k2) as (Hc3 & _).
    destruct (invoke OnClose CallClose c2 k2) as [c3 k3]. cbn [snd] in Hc3.
    exists (Close c3), k3. split; [reflexivity|]. split; [reflexivity|].
    rewrite Hc3, Hc2, Hc, He. rewrite <- !app_assoc. reflexivity.
Qed.

(** The callbacks of a whole connection: the handshake's [OnConnect], the
    goroutine's [OnConnect], the messages in their order of arrival, the
    error that ended the reading, and [OnClose]. *)
Lemma connection_callbacks (frames : list (list byte * list byte))
    (beats : list nat) (w : http.ResponseWriter) (r : http.Request)
    (conn : Conn) (k : Consumer H) :
  keepsOpen ->
  Forall (fun f => length (fst f) = 4%nat
                   /\ Z.of_nat (length (snd f)) <= maxAlloc) frames ->
  wellFormed unicodeToLower r ->
  http.hijack w = http.HijackGives conn ->
  closed conn = false ->
  hd None (wr_faults conn) = None ->
  rd conn = clientStream frames ->
  exists conn' k',
    serve unicodeToLower beats w r k
    = Some (k', Started conn', Some LoopBroke)
    /\ calls k'
       = calls k ++ [CallConnect; CallConnect]
         ++ map (fun f => CallMessage (string_of_list_byte (snd f))) frames
         ++ [CallError (rd_end conn); CallClose].
Proof.
  intros Hkeep Hall Hwf Hh Ho Hf Hr.
  destruct (wellFormed_checks unicodeToLower r Hwf) as (E1 & E2).
  unfold serve, UpgradeToWebSocket. rewrite E1, E2, Hh.
  set (p := list_byte_of_string (response _)).
  destruct (Write_read_side p conn) as (Hrd & He & Hcl).
  assert (Hok : snd (Write p conn) = None).
  { unfold Write. rewrite Ho.
    destruct (wr_faults conn) as [|[f|] later]; [reflexivity | discriminate Hf | reflexivity]. }
  destruct (Write p conn) as [c1 [e|]]; [discriminate Hok|].
  cbn [fst] in *.
  destruct (invoke_spec OnConnect CallConnect c1 k)
    as (Hc & _ & Hrd2 & He2 & Hop & _).
  destruct (invoke OnConnect CallConnect c1 k) as [c2 k2].
  cbn [fst snd] in *.
  destruct (handleWebSocket_frames frames beats c2 k2 Hkeep Hall)
    as (c3 & k3 & -> & _ & Hc3).
  - rewrite Hop by apply Hkeep. congruence.
  - congruence.
  - exists c3, k3. split; [reflexivity|].
    rewrite Hc3, Hc, He2, He. rewrite <- !app_assoc. reflexivity.
Qed.

End Lifecycle.

(** ** Writes do not reach the consumer *)

Lemma readOnly_ret {A} (a : A) : readOnly (ret a).
Proof. intros c1 c2 Hs. split; [reflexivity | exact Hs]. Qed.

Lemma readOnly_bind {A B} (m : io A) (k : A -> io B) :
  readOnly m -> (forall a, readOnly (k a)) -> readOnly (bind m k).
Proof.
  intros Hm Hk c1 c2 Hs. unfold bind.
  destruct (Hm c1 c2 Hs) as (Hr & Hs').
  destruct (m c1) as [c1' r1], (m c2) as [c2' r2]. cbn [fst snd] in *.
  subst r2. destruct r1 as [a|e|p]; [apply Hk; exact Hs' | |]; split; auto.
Qed.

Lemma readOnly_ReadFull (n : nat) : readOnly (ReadFull n).
Proof.
  intros c1 c2 (Hr & He & Hc). unfold ReadFull, sameReadSide.
  rewrite Hc, Hr, He.
  destruct (n =? 0)%nat; [cbn [fst snd]; repeat split; congruence|].
  destruct (closed c2) eqn:E; [cbn [fst snd]; repeat split; congruence|].
  destruct (n <=? length (rd c2))%nat;
    cbn [fst snd set_rd rd rd_end closed]; repeat split; congruence.
Qed.

Lemma readOnly_make_bytes (n : Z) : readOnly (make_bytes n).
Proof.
  intros c1 c2 Hs. unfold make_bytes.
  destruct ((n <? 0) || (maxAlloc <? n)); split; auto.
Qed.

(** The decoder looks at the reading side of the stream only. *)
Lemma readOnly_readFrame : readOnly readFrame.
Proof.
  unfold readFrame.
  repeat first [ apply readOnly_bind; [|intros ?]
               | apply readOnly_ReadFull
               | apply readOnly_make_bytes
               | apply readOnly_ret
               | match goal with |- readOnly (if ?b then _ else _) =>
                   destruct b end ].
Qed.

Lemma perform_sameReadSide (c1 c2 : Conn) (a : action) :
  sameReadSide c1 c2 -> sameReadSide (perform c1 a) (perform c2 a).
Proof.
  intros (Hr & He & Hc).
  destruct (perform_read_side c1 a) as (R1 & E1).
  destruct (perform_read_side c2 a) as (R2 & E2).
  repeat split; [congruence | congruence |].
  rewrite !perform_closed. destruct a; auto.
Qed.

Lemma actions_sameReadSide (acts : list action) (c1 c2 : Conn) :
  sameReadSide c1 c2 ->
  sameReadSide (fold_left perform acts c1) (fold_left perform acts c2).
Proof.
  revert c1 c2. induction acts as [|a acts IH]; intros c1 c2 Hs; cbn [fold_left].
  - exact Hs.
  - apply IH, perform_sameReadSide, Hs.
Qed.

Lemma invoke_sameReadSide {H} (cb : H -> H * list action) (ev : call)
    (c1 c2 : Conn) (k : Consumer H) :
  sameReadSide c1 c2 ->
  snd (invoke cb ev c1 k) = snd (invoke cb ev c2 k)
  /\ sameReadSide (fst (invoke cb ev c1 k)) (fst (invoke cb ev c2 k)).
Proof.
  intros Hs. unfold invoke. destruct (cb (hstate k)) as [h' acts].
  cbn [fst snd]. split; [reflexivity|]. apply actions_sameReadSide, Hs.
Qed.

Lemma pings_shift (n : nat) (conn : Conn) :
  pings n (ping conn) = ping (pings n conn).
Proof. induction n as [|n IH]; cbn [pings]; [|rewrite IH]; reflexivity. Qed.

Lemma pingSelect_ticks (later : list ready) (n : nat) (conn : Conn)
    (times : list Z) (tk : time.Ticker) (start : nat) :
  pingSelect (map (fun i => Tick (Z.of_nat i * time.period tk))
                  (seq start n) ++ DoneClosed :: later)
             conn times
  = MkPinged (pings n conn)
      (times ++ map (fun i => Z.of_nat i * time.period tk) (seq start n))
      true.
Proof.
  revert conn times start. induction n as [|n IH]; intros conn times start.
  - cbn. rewrite app_nil_r. reflexivity.
  - cbn [seq map app pingSelect pings].
    rewrite IH, pings_shift, <- app_assoc. reflexivity.
Qed.

Section Keepalive.

Context {H : Type} `{handler : WSHandler H}.

Lemma readLoop_sameReadSide (turns : nat) (b1 b2 : list nat)
    (c1 c2 : Conn) (k : Consumer H) :
  sameReadSide c1 c2 ->
  observed (readLoop turns b1 c1 k) = observed (readLoop turns b2 c2 k)
  /\ match readLoop turns b1 c1 k, readLoop turns b2 c2 k with
     | Some (a, _, _), Some (b, _, _) => sameReadSide a b
     | _, _ => True
     end.
Proof.
  revert b1 b2 c1 c2 k.
  induction turns as [|turns IH]; intros b1 b2 c1 c2 k Hs;
    cbn [readLoop]; [split; [reflexivity | exact I]|].
  cbv zeta.
  assert (Hp : sameReadSide (pings (hd O b1) c1) (pings (hd O b2) c2)).
  { eapply sameReadSide_trans; [apply pings_spec|].
    eapply sameReadSide_trans; [exact Hs|].
    apply sameReadSide_sym, pings_spec. }
  destruct (readOnly_readFrame _ _ Hp) as (Hr & Hs').
  destruct (readFrame (pings (hd O b1) c1)) as [a r1],
           (readFrame (pings (hd O b2) c2)) as [b r2].
  cbn [fst snd] in *. subst r2. destruct r1 as [msg|e|p].
  - destruct (invoke_sameReadSide
                (fun h => OnMessage h (string_of_list_byte msg))
                (CallMessage (string_of_list_byte msg)) a b k Hs')
      as (Hk & Hs'').
    destruct (invoke _ _ a k) as [a' ka], (invoke _ _ b k) as [b' kb].
    cbn [fst snd] in *. subst kb. apply IH, Hs''.
  - destruct (invoke_sameReadSide (fun h => OnError h e) (CallError e)
                a b k Hs') as (Hk & Hs'').
    destruct (invoke _ _ a k) as [a' ka], (invoke _ _ b k) as [b' kb].
    cbn [fst snd] in *. subst kb. split; [reflexivity | exact Hs''].
  - split; [reflexivity | exact Hs'].
Qed.

(** Two streams that read alike give the consumer the same callbacks,
    at whatever pace the keepalive writes: nothing written to the stream,
    and no failure of a write, ever shows in what [handleWebSocket]
    calls. *)
Lemma handleWebSocket_sameReadSide (b1 b2 : list nat) (c1 c2 : Conn)
    (k : Consumer H) :
  sameReadSide c1 c2 ->
  observed (handleWebSocket b1 c1 k) = observed (handleWebSocket b2 c2 k).
Proof.
  intros Hs. unfold handleWebSocket.
  destruct (invoke_sameReadSide OnConnect CallConnect c1 c2 k Hs)
    as (Hk & Hs').
  destruct (invoke _ _ c1 k) as [a ka], (invoke _ _ c2 k) as [b kb].
  cbn [fst snd] in *. subst kb.
  assert (Hl : length (rd a) = length (rd b))
    by (destruct Hs' as (-> & _); reflexivity).
  rewrite Hl.
  destruct (readLoop_sameReadSide (S (length (rd b))) b1 b2 a b ka Hs')
    as (Ho & Hc).
  destruct (readLoop _ b1 a ka) as [[[a' ka'] ha]|],
           (readLoop _ b2 b ka) as [[[b' kb'] hb]|];
    cbn [observed] in Ho; try discriminate Ho; [|reflexivity].
  injection Ho as -> ->.
  destruct (invoke_sameReadSide OnClose CallClose a' b' kb' Hc) as (Hk2 & _).
  destruct (invoke _ _ a' kb') as [a'' ka''], (invoke _ _ b' kb') as [b'' kb''].
  cbn [fst snd] in *. subst kb''. reflexivity.
Qed.

End Keepalive.

(** ** The protocol's example request, end to end *)

Lemma sampleRequest_wellFormed : wellFormed (fun s => s) sampleRequest.
Proof.
  unfold wellFormed. split; [vm_compute; reflexivity|]. split.
  - exists EmptyString, EmptyString. vm_compute. reflexivity.
  - vm_compute. discriminate.
Defined.

Lemma UpgradeToWebSocket_rejects_witness :
  ~ equalFold (fun s => s)
      (http.Get (http.header (http.MkRequest ∅)) "Upgrade") "websocket"
  /\ exists w',
       @UpgradeToWebSocket unit MyWSHandler.handler (fun s => s)
         (hijackable (peer [])) (http.MkRequest ∅) (fresh tt)
       = (w', fresh tt, Declined)
       /\ http.status w' = Some 400
       /\ http.hijacked w' = false.
Proof.
  assert (Hno : ~ equalFold (fun s => s)
                    (http.Get (http.header (http.MkRequest ∅)) "Upgrade")
                    "websocket") by (vm_compute; discriminate).
  split; [exact Hno|].
  destruct (@UpgradeToWebSocket_rejects unit MyWSHandler.handler
              (fun s => s) (hijackable (peer [])) (http.MkRequest ∅)
              (fresh tt) (or_introl Hno))
    as (w' & E & Hs & Hh & _).
  exists w'. auto.
Defined.

Lemma handshake_write_failure_witness :
  wellFormed (fun s => s) sampleRequest
  /\ exists conn',
       @serve unit MyWSHandler.handler (fun s => s) [1%nat]
         (hijackable (MkConn [] EOF [] []
                        [Some (0%nat, ErrTransport "broken pipe")] false))
         sampleRequest (fresh tt)
       = Some (fresh tt, Aborted conn', None)
       /\ closed conn' = true.
Proof.
  split; [exact sampleRequest_wellFormed|].
  destruct (@handshake_write_failure unit MyWSHandler.handler (fun s => s)
              (hijackable (MkConn [] EOF [] []
                             [Some (0%nat, ErrTransport "broken pipe")] false))
              sampleRequest (fresh tt)
              (MkConn [] EOF [] []
                 [Some (0%nat, ErrTransport "broken pipe")] false)
              (ErrTransport "broken pipe")
              sampleRequest_wellFormed eq_refl eq_refl)
    as (conn' & _ & Hc & Hs).
  exists conn'. split; [apply Hs | exact Hc].
Defined.

Lemma accept_token_witness :
  wellFormed (fun s => s) sampleRequest
  /\ exists k' conn' more,
       @UpgradeToWebSocket unit MyWSHandler.handler (fun s => s)
         (hijackable (peer [])) sampleRequest (fresh tt)
       = (http.detach (hijackable (peer [])), k', Started conn')
       /\ writes conn'
          = [list_byte_of_string
               ("HTTP/1.1 101 Switching Protocols" ++ CRLF
                ++ "Upgrade: websocket" ++ CRLF
                ++ "Connection: Upgrade" ++ CRLF
                ++ "Sec-WebSocket-Accept: s3pPLMBiTxaQ9kYGzzhZRbK+xOo="
                ++ CRLF ++ CRLF)] ++ more.
Proof.
  split; [exact sampleRequest_wellFormed|].
  destruct (@accept_token unit MyWSHandler.handler (fun s => s)
              (hijackable (peer [])) sampleRequest (fresh tt) (peer [])
              sampleRequest_wellFormed eq_refl)
    as ((k' & conn' & more & [E | E] & Hw) & _).
  - exists k', conn', more. split; [exact E|].
    rewrite Hw. vm_compute. reflexivity.
  - vm_compute in E. discriminate E.
Defined.

(** C6, where the code departs from it. The example request, then two
    client frames "hi" and "yo", then the end of the stream: the consumer
    is called with OnConnect, OnConnect, OnMessage "hi", OnMessage "yo",
    OnError (end of stream), OnClose. [OnConnect] fires once in
    [UpgradeToWebSocket] and once more in [handleWebSocket]. *)
Theorem connection_connects_twice :
  exists conn,
    @serve unit MyWSHandler.handler (fun s => s) [1%nat; 0%nat; 2%nat]
      (hijackable
         (peer (clientStream
                  [([x01; x02; x03; x04], list_byte_of_string "hi");
                   ([x0a; x0b; x0c; x0d], list_byte_of_string "yo")])))
      sampleRequest (fresh tt)
    = Some (MkConsumer tt
              [CallConnect; CallConnect; CallMessage "hi"; CallMessage "yo";
               CallError EOF; CallClose],
            Started conn, Some LoopBroke).
Proof. eexists. vm_compute. reflexivity. Qed.

(** ** The other copy of the package, for comparison *)

(** Its goroutine does not call [OnConnect]: for the example request
    followed by the frames "hi" and "yo", the consumer sees one
    [OnConnect]. *)
Lemma Variant_connects_once :
  exists conn,
    @Variant.serve unit MyWSHandler.handler (fun s => s)
      (hijackable
         (peer (clientStream
                  [([x01; x02; x03; x04], list_byte_of_string "hi");
                   ([x0a; x0b; x0c; x0d], list_byte_of_string "yo")])))
      sampleRequest (fresh tt)
    = Some (MkConsumer tt
              [CallConnect; CallMessage "hi"; CallMessage "yo";
               CallError EOF; CallClose],
            Started conn, Some LoopBroke).
Proof. eexists. vm_compute. reflexivity. Qed.

(** Its encoder has the first length tier only: a message of 126 bytes
    gets the header [0x81, 126], which announces a 16-bit length that does
    not follow. *)
Lemma Variant_writeFrame_one_tier (message : list byte) (c : Conn) :
  writes (fst (Variant.writeFrame message c))
  = writes c
    ++ [[x81; byte_of_int (Z.of_nat (length message))] ++ message].
Proof. unfold Variant.writeFrame. apply Write_writes. Qed.

(** Its decoder refuses the 127 tier with an error. *)
Lemma Variant_readFrame_refuses_127 (c : Conn) (h0 h1 : byte)
    (tail : list byte) :
  closed c = false -> rd c = h0 :: h1 :: tail -> baseLen h1 = 127 ->
  Variant.readFrame c = (set_rd c tail, Err ErrFrameTooLarge).
Proof.
  intros Ho Hr Hb. unfold Variant.readFrame. unfold bind at 1.
  rewrite (ReadFull_2 c h0 h1 tail Ho Hr), header_base, Hb.
  reflexivity.
Qed.

(** Its decoder takes no key from a frame whose MASK bit is clear, where
    the decoder above takes the next four bytes for one. *)
Lemma Variant_readFrame_unmasked :
  Variant.readFrame (peer [x81; x02; x68; x69; x01; x02; x03; x04])
  = (peer [x01; x02; x03; x04], Ok [x68; x69])
  /\ readFrame (peer [x81; x02; x68; x69; x01; x02; x03; x04])
     = (peer [], Ok [byte_xor x03 x68; byte_xor x04 x69]).
Proof. split; vm_compute; reflexivity. Qed.

(** The example consumer echoes and never closes: its connections run as
    [connection_callbacks] says. *)
Lemma MyWSHandler_keepsOpen : @keepsOpen unit MyWSHandler.handler.
Proof. split; intros; cbn; intuition discriminate. Qed.

Lemma MyWSHandler_callbacks (frames : list (list byte * list byte))
    (beats : list nat) :
  Forall (fun f => length (fst f) = 4%nat
                   /\ Z.of_nat (length (snd f)) <= maxAlloc) frames ->
  exists conn' k',
    @serve unit MyWSHandler.handler (fun s => s) beats
      (hijackable (peer (clientStream frames))) sampleRequest (fresh tt)
    = Some (k', Started conn', Some LoopBroke)
    /\ calls k'
       = [CallConnect; CallConnect]
         ++ map (fun f => CallMessage (string_of_list_byte (snd f))) frames
         ++ [CallError EOF; CallClose].
Proof.
  intros Hall.
  exact (connection_callbacks (fun s => s) frames beats
           (hijackable (peer (clientStream frames))) sampleRequest
           (peer (clientStream frames)) (fresh tt)
           MyWSHandler_keepsOpen Hall sampleRequest_wellFormed
           eq_refl eq_refl eq_refl eq_refl).
Qed.

(** ** The decoder, read backwards *)

(** What a successful [ReadFull] says about the stream. *)
Lemma ReadFull_inv (n : nat) (c c' : Conn) (bs : list byte) :
  ReadFull n c = (c', Ok bs) ->
  rd c = bs ++ rd c' /\ length bs = n /\ c' = set_rd c (rd c')
  /\ (n <> 0%nat -> closed c = false).
Proof.
  unfold ReadFull. destruct n as [|n]; cbn [Nat.eqb].
  - intros [= <- <-]. rewrite set_rd_same. repeat split. congruence.
  - destruct (closed c) eqn:Ho; [discriminate|].
    destruct (S n <=? length (rd c))%nat eqn:E; [|discriminate].
    intros [= <- <-]. apply Nat.leb_le in E. cbn [set_rd rd].
    rewrite firstn_skipn, length_firstn. repeat split. lia.
Qed.

(** What a failed [ReadFull] leaves and returns. *)
Lemma ReadFull_short_error (c : Conn) (n : nat) :
  closed c = false -> (length (rd c) < n)%nat ->
  exists e,
    ReadFull n c = (set_rd c [], Err e)
    /\ (e = rd_end c \/ (e = ErrUnexpectedEOF /\ rd_end c = EOF))
    /\ (rd c = [] -> e = rd_end c).
Proof.
  intros Ho Hlt. unfold ReadFull.
  destruct n as [|n]; [lia|]. cbn [Nat.eqb]. rewrite Ho.
  assert (Hle : (S n <=? length (rd c))%nat = false) by (apply Nat.leb_gt; lia).
  rewrite Hle. eexists. split; [reflexivity|].
  destruct (rd c) as [|b bs]; [auto|].
  split; [|discriminate]. destruct (rd_end c); auto.
Qed.

Lemma readBody_sound (L : Z) (c c' : Conn) (out : list byte) :
  readBody L c = (c', Ok out) ->
  exists key payload,
    rd c = key ++ payload ++ rd c'
    /\ length key = 4%nat
    /\ Z.of_nat (length payload) = L
    /\ L <= maxAlloc
    /\ out = maskFrom 0 key payload
    /\ c' = set_rd c (rd c')
    /\ closed c = false.
Proof.
  unfold readBody. unfold bind at 1.
  destruct (ReadFull 4 c) as [c1 [key|e|p]] eqn:E1; try discriminate.
  apply ReadFull_inv in E1. destruct E1 as (Hr1 & Hk & Hc1 & Ho).
  unfold bind at 1. unfold make_bytes.
  destruct ((L <? 0) || (maxAlloc <? L)) eqn:EL; [discriminate|].
  apply orb_false_iff in EL. destruct EL as [EL1 EL2].
  apply Z.ltb_ge in EL1, EL2.
  unfold bind at 1.
  destruct (ReadFull (Z.to_nat L) c1) as [c2 [payload|e|p]] eqn:E2;
    try discriminate.
  apply ReadFull_inv in E2. destruct E2 as (Hr2 & Hp & Hc2 & _).
  unfold ret. intros [= <- <-].
  exists key, payload. rewrite Hr1, Hr2.
  repeat split; auto; try lia.
  - rewrite <- Hp. apply unmask_maskFrom.
  - rewrite Hc2, Hc1. reflexivity.
Qed.

(** X1. When the decoder returns a payload, the stream began with a whole
    frame: two header bytes, the length fields that announce the
    payload's length, four key bytes and the payload; the decoder has
    taken exactly these bytes, and what it returns is the payload XORed
    with the key. *)
Theorem readFrame_sound (c c' : Conn) (out : list byte) :
  readFrame c = (c', Ok out) ->
  exists h0 h1 ext key payload,
    rd c = h0 :: h1 :: ext ++ key ++ payload ++ rd c'
    /\ announces h1 ext (Z.of_nat (length payload))
    /\ length key = 4%nat
    /\ Z.of_nat (length payload) <= maxAlloc
    /\ out = maskFrom 0 key payload
    /\ c' = set_rd c (rd c')
    /\ closed c = false.
Proof.
  unfold readFrame. unfold bind at 1.
  destruct (ReadFull 2 c) as [c1 [header|e|p]] eqn:E1; try discriminate.
  apply ReadFull_inv in E1. destruct E1 as (Hr1 & Hh & Hc1 & Ho).
  destruct header as [|h0 [|h1 [|]]]; try discriminate Hh.
  rewrite header_base.
  assert (Hopen : closed c = false) by (apply Ho; discriminate).
  destruct (baseLen h1 =? 126) eqn:E6; [|destruct (baseLen h1 =? 127) eqn:E7].
  - apply Z.eqb_eq in E6. unfold bind at 1. unfold bind at 1.
    destruct (ReadFull 2 c1) as [c2 [ext|e|p]] eqn:E2; try discriminate.
    apply ReadFull_inv in E2. destruct E2 as (Hr2 & He & Hc2 & _).
    destruct ext as [|e0 [|e1 [|]]]; try discriminate He.
    unfold ret at 1. rewrite extLen16_be. intros Hb.
    apply readBody_sound in Hb.
    destruct Hb as (key & payload & Hr3 & Hk & HL & Hm & Hout & Hc3 & _).
    exists h0, h1, [e0; e1], key, payload.
    rewrite Hr1, Hr2, Hr3, HL. repeat split; auto.
    + right; left. rewrite <- HL. auto.
    + rewrite Hc3, Hc2, Hc1. reflexivity.
  - apply Z.eqb_eq in E7. unfold bind at 1. unfold bind at 1.
    destruct (ReadFull 8 c1) as [c2 [ext|e|p]] eqn:E2; try discriminate.
    apply ReadFull_inv in E2. destruct E2 as (Hr2 & He & Hc2 & _).
    unfold ret at 1. rewrite (extLen64_wrap ext He). intros Hb.
    apply readBody_sound in Hb.
    destruct Hb as (key & payload & Hr3 & Hk & HL & Hm & Hout & Hc3 & _).
    exists h0, h1, ext, key, payload.
    rewrite Hr1, Hr2, Hr3, HL. cbn [app]. repeat split; auto.
    + right; right. rewrite <- HL. auto.
    + rewrite Hc3, Hc2, Hc1. reflexivity.
  - apply Z.eqb_neq in E6, E7. unfold bind at 1. unfold ret at 1. intros Hb.
    apply readBody_sound in Hb.
    destruct Hb as (key & payload & Hr3 & Hk & HL & Hm & Hout & Hc3 & _).
    exists h0, h1, [], key, payload.
    rewrite Hr1, Hr3, HL. cbn [app]. repeat split; auto.
    + left. repeat split; auto.
      assert (0 <= baseLen h1 <= 127); [|lia].
      unfold baseLen.
      change (Z.land (int_of_byte h1) 0x7F)
        with (Z.land (int_of_byte h1) (Z.ones 7)).
      rewrite Z.land_ones by lia.
      pose proof (Z.mod_pos_bound (int_of_byte h1) (2 ^ 7) ltac:(lia)). lia.
    + rewrite Hc3, Hc1. reflexivity.
Qed.

Lemma readFrame_sound_witness :
  readFrame (peer [x81; x82; x01; x02; x03; x04; x69; x6b; xff])
  = (peer [xff], Ok [x68; x69])
  /\ exists h0 h1 ext key payload,
       [x81; x82; x01; x02; x03; x04; x69; x6b; xff]
       = h0 :: h1 :: ext ++ key ++ payload ++ [xff]
       /\ length key = 4%nat
       /\ [x68; x69] = maskFrom 0 key payload.
Proof.
  assert (E : readFrame (peer [x81; x82; x01; x02; x03; x04; x69; x6b; xff])
              = (peer [xff], Ok [x68; x69])) by (vm_compute; reflexivity).
  split; [exact E|].
  destruct (readFrame_sound _ _ _ E)
    as (h0 & h1 & ext & key & payload & Hr & _ & Hk & _ & Ho & _).
  exists h0, h1, ext, key, payload. auto.
Defined.

(** ** Truncated frames *)

Lemma bind_Err {A B} (m : io A) (k : A -> io B) (c c' : Conn) (e : error) :
  m c = (c', Err e) -> bind m k c = (c', Err e).
Proof. intros E. unfold bind. rewrite E. reflexivity. Qed.

Lemma bind_Ok {A B} (m : io A) (k : A -> io B) (c c' : Conn) (a : A) :
  m c = (c', Ok a) -> bind m k c = k a c'.
Proof. intros E. unfold bind. rewrite E. reflexivity. Qed.

(** The stream ends inside the key or inside the payload. The slice for
    the payload is made once the key is read, so its length matters only
    when the key is whole. *)
Lemma readBody_cut (c : Conn) (key payload cut : list byte) :
  closed c = false ->
  rd c ++ cut = key ++ payload -> cut <> [] ->
  length key = 4%nat ->
  (length payload < length cut)%nat
  \/ Z.of_nat (length payload) <= maxAlloc ->
  exists e,
    readBody (Z.of_nat (length payload)) c = (set_rd c [], Err e)
    /\ (e = rd_end c \/ (e = ErrUnexpectedEOF /\ rd_end c = EOF)).
Proof.
  intros Ho Hr Hcut Hk Hm'.
  assert (Hlen : (length (rd c) + length cut = 4 + length payload)%nat).
  { rewrite <- Hk, <- !length_app, Hr. reflexivity. }
  assert (Hc : (0 < length cut)%nat) by (destruct cut; [congruence | cbn; lia]).
  destruct (Nat.lt_ge_cases (length (rd c)) 4) as [Hlt | Hge].
  - destruct (ReadFull_short_error c 4 Ho Hlt) as (e & E & He & _).
    exists e. split; [|exact He]. unfold readBody. now apply bind_Err.
  - assert (Hm : Z.of_nat (length payload) <= maxAlloc)
      by (destruct Hm' as [Hm' | Hm']; [lia | exact Hm']).
    clear Hm'.
    apply app_eq_app in Hr. destruct Hr as [l [[Hr1 Hr2] | [Hr1 Hr2]]].
    + unfold readBody. unfold bind at 1.
      rewrite (ReadFull_len c 4 key l Ho Hr1 Hk).
      unfold bind at 1. unfold make_bytes.
      assert (E : (Z.of_nat (length payload) <? 0)
                  || (maxAlloc <? Z.of_nat (length payload)) = false).
      { apply orb_false_iff. split; apply Z.ltb_ge; lia. }
      rewrite E, Nat2Z.id. unfold bind at 1.
      destruct (ReadFull_short_error (set_rd c l) (length payload) Ho)
        as (e & -> & He & _).
      { cbn [set_rd rd]. rewrite Hr2, length_app. lia. }
      exists e. split; [reflexivity | exact He].
    + assert (Hl0 : length l = 0%nat).
      { apply (f_equal (@length byte)) in Hr1.
        rewrite length_app in Hr1. lia. }
      destruct l; [|discriminate]. cbn [app] in Hr2. subst cut.
      rewrite app_nil_r in Hr1. symmetry in Hr1.
      rewrite <- (app_nil_r key) in Hr1.
      unfold readBody. unfold bind at 1.
      rewrite (ReadFull_len c 4 key [] Ho Hr1 Hk).
      unfold bind at 1. unfold make_bytes.
      assert (E : (Z.of_nat (length payload) <? 0)
                  || (maxAlloc <? Z.of_nat (length payload)) = false).
      { apply orb_false_iff. split; apply Z.ltb_ge; lia. }
      rewrite E, Nat2Z.id. unfold bind at 1.
      destruct (ReadFull_short_error (set_rd c []) (length payload) Ho Hc)
        as (e & -> & He & _).
      exists e. split; [reflexivity | exact He].
Qed.

(** A stream that ends inside a frame: the decoder fails on the field
    it cannot fill. *)
Lemma readFrame_cut (c : Conn) (h0 h1 : byte)
    (ext key payload cut : list byte) :
  closed c = false ->
  rd c ++ cut = h0 :: h1 :: ext ++ key ++ payload ->
  cut <> [] ->
  announces h1 ext (Z.of_nat (length payload)) ->
  length key = 4%nat ->
  (length payload < length cut)%nat
  \/ Z.of_nat (length payload) <= maxAlloc ->
  exists e,
    readFrame c = (set_rd c [], Err e)
    /\ (e = rd_end c \/ (e = ErrUnexpectedEOF /\ rd_end c = EOF)).
Proof.
  intros Ho Hr Hcut Ha Hk Hm.
  destruct (rd c) as [|a [|b tail]] eqn:Hrd.
  - destruct (ReadFull_short_error c 2 Ho) as (e & E & He & _).
    { rewrite Hrd. cbn. lia. }
    exists e. split; [|exact He]. unfold readFrame. now apply bind_Err.
  - destruct (ReadFull_short_error c 2 Ho) as (e & E & He & _).
    { rewrite Hrd. cbn. lia. }
    exists e. split; [|exact He]. unfold readFrame. now apply bind_Err.
  - cbn [app] in Hr. injection Hr as -> -> Hr.
    destruct Ha as [(Hb & -> & HL) | [(Hb & Hl & HL) | (Hb & Hl & HL)]].
    + rewrite (readFrame_base c h0 h1 tail Ho Hrd) by lia.
      rewrite <- HL.
      destruct (readBody_cut (set_rd c tail) key payload cut Ho Hr Hcut Hk Hm)
        as (e & E & He).
      exists e. split; [exact E | exact He].
    + destruct ext as [|e0 [|e1 [|]]]; try discriminate Hl.
      destruct tail as [|t0 [|t1 tail]].
      * destruct (ReadFull_short_error (set_rd c []) 2 Ho) as (e & E & He & _).
        { cbn. lia. }
        exists e. split; [|exact He].
        unfold readFrame. unfold bind at 1.
        rewrite (ReadFull_2 c h0 h1 [] Ho Hrd), header_base, Hb.
        cbn [Z.eqb Pos.eqb]. apply bind_Err. now apply bind_Err.
      * destruct (ReadFull_short_error (set_rd c [t0]) 2 Ho) as (e & E & He & _).
        { cbn. lia. }
        exists e. split; [|exact He].
        unfold readFrame. unfold bind at 1.
        rewrite (ReadFull_2 c h0 h1 [t0] Ho Hrd), header_base, Hb.
        cbn [Z.eqb Pos.eqb]. apply bind_Err. now apply bind_Err.
      * cbn [app] in Hr. injection Hr as -> -> Hr.
        rewrite (readFrame_ext16 c h0 h1 e0 e1 tail Ho Hrd Hb), <- HL.
        destruct (readBody_cut (set_rd c tail) key payload cut Ho Hr Hcut Hk Hm)
          as (e & E & He).
        exists e. split; [exact E | exact He].
    + destruct (Nat.lt_ge_cases (length tail) 8) as [Hlt | Hge].
      * destruct (ReadFull_short_error (set_rd c tail) 8 Ho Hlt)
          as (e & E & He & _).
        exists e. split; [|exact He].
        unfold readFrame. unfold bind at 1.
        rewrite (ReadFull_2 c h0 h1 tail Ho Hrd), header_base, Hb.
        cbn [Z.eqb Pos.eqb]. apply bind_Err. now apply bind_Err.
      * apply app_eq_app in Hr.
        destruct Hr as [l [[Hr1 Hr2] | [Hr1 Hr2]]].
        -- subst tail.
           rewrite (readFrame_ext64 c h0 h1 ext l Ho Hrd Hb Hl).
           rewrite (extLen64_wrap ext Hl), <- HL.
           destruct (readBody_cut (set_rd c l) key payload cut Ho)
             as (e & E' & He); auto.
           exists e. split; [exact E' | exact He].
        -- assert (Hl0 : length l = 0%nat).
           { apply (f_equal (@length byte)) in Hr1.
             rewrite length_app in Hr1. lia. }
           destruct l; [|discriminate]. rewrite app_nil_r in Hr1.
           cbn [app] in Hr2. subst tail.
           pose proof (readFrame_ext64 c h0 h1 ext [] Ho) as E.
           rewrite app_nil_r in E. rewrite (E Hrd Hb Hl).
           rewrite (extLen64_wrap ext Hl), <- HL.
           destruct (readBody_cut (set_rd c []) key payload cut Ho)
             as (e & E' & He); auto.
           exists e. split; [exact E' | exact He].
Qed.

(** X2. A frame cut short is an error, never a payload and never a panic.
    The stream holds a proper prefix of a well-formed frame and ends
    there. If it ends before the mask key is whole, whatever length the
    header announces, or if the announced payload is of at most 65535
    bytes, the decoder fails and has drained the stream. The error is the
    stream's own ending ([io.EOF] on a clean close) when the cut falls
    between two fields, and [io.ErrUnexpectedEOF] when a clean close falls
    inside one. *)
Theorem readFrame_truncated (c : Conn) (h0 h1 : byte)
    (ext key payload cut : list byte) :
  closed c = false ->
  rd c ++ cut = h0 :: h1 :: ext ++ key ++ payload ->
  cut <> [] ->
  announces h1 ext (Z.of_nat (length payload)) ->
  length key = 4%nat ->
  (length payload < length cut)%nat
  \/ Z.of_nat (length payload) <= 65535 ->
  exists e,
    readFrame c = (set_rd c [], Err e)
    /\ (e = rd_end c \/ (e = ErrUnexpectedEOF /\ rd_end c = EOF)).
Proof.
  intros Ho Hr Hcut Ha Hk Hm.
  apply (readFrame_cut c h0 h1 ext key payload cut Ho Hr Hcut Ha Hk).
  destruct Hm as [Hm | Hm]; [left; exact Hm | right].
  unfold maxAlloc. lia.
Qed.

Lemma readFrame_truncated_witness :
  (exists e,
     readFrame (peer [x81; x82; x01; x02]) = (peer [], Err e)
     /\ e = ErrUnexpectedEOF)
  /\ (exists e,
        readFrame (peer [x81; xff; x00; x00; x40; x00; x00; x00; x00; x00;
                         x01; x02; x03])
        = (peer [], Err e)
        /\ e = ErrUnexpectedEOF).
Proof.
  split.
  - destruct (readFrame_truncated (peer [x81; x82; x01; x02]) x81 x82 []
                [x01; x02; x03; x04] [x69; x6b] [x03; x04; x69; x6b]
                eq_refl eq_refl ltac:(discriminate))
      as (e & E & He).
    + left. vm_compute. repeat split; reflexivity.
    + reflexivity.
    + right. vm_compute. discriminate.
    + exists e. split; [exact E|].
      destruct He as [He | (He & _)]; [|exact He].
      rewrite He in E. vm_compute in E. discriminate E.
  - assert (Hr : forall P : list byte,
               rd (peer [x81; xff; x00; x00; x40; x00; x00; x00; x00; x00;
                         x01; x02; x03])
               ++ x04 :: P
               = x81 :: xff :: [x00; x00; x40; x00; x00; x00; x00; x00]
                 ++ [x01; x02; x03; x04] ++ P)
      by (intros P; reflexivity).
    assert (Hlt : forall P : list byte,
               (length P < length (x04 :: P))%nat)
      by (intros P; cbn [length]; lia).
    assert (Ha : announces xff [x00; x00; x40; x00; x00; x00; x00; x00]
                   (Z.of_nat (length (repeat x00 (Z.to_nat (2 ^ 46)))))).
    { right; right. split; [vm_compute; reflexivity|].
      split; [reflexivity|].
      rewrite repeat_length, Z2Nat.id by lia. vm_compute. reflexivity. }
    destruct (readFrame_truncated
                (peer [x81; xff; x00; x00; x40; x00; x00; x00; x00; x00;
                       x01; x02; x03])
                x81 xff [x00; x00; x40; x00; x00; x00; x00; x00]
                [x01; x02; x03; x04]
                (repeat x00 (Z.to_nat (2 ^ 46)))
                (x04 :: repeat x00 (Z.to_nat (2 ^ 46)))
                eq_refl (Hr _) ltac:(discriminate) Ha eq_refl
                (or_introl (Hlt _)))
      as (e & E & He).
    exists e. split; [exact E|].
    destruct He as [He | (He & _)]; [|exact He].
    rewrite He in E. vm_compute in E. discriminate E.
Defined.

(** ** The first header byte *)

Lemma ReadFull_one (c : Conn) (b : byte) :
  closed c = false -> rd c = [b] ->
  ReadFull 2 c
  = (set_rd c [],
     Err (match rd_end c with EOF => ErrUnexpectedEOF | e => e end)).
Proof.
  intros Ho Hr. unfold ReadFull. cbn [Nat.eqb]. rewrite Ho, Hr.
  cbn [length Nat.leb]. destruct (rd_end c); reflexivity.
Qed.

(** X3. The decoder never looks at the first header byte: whatever FIN,
    reserved bits and opcode say, the outcome and the bytes taken are
    the same, so a control frame (ping, pong, close) is decoded, and
    handed on, like a text frame. *)
Theorem readFrame_ignores_byte0 (c : Conn) (h0 h0' : byte)
    (tail : list byte) :
  closed c = false ->
  rd c = h0 :: tail ->
  readFrame (set_rd c (h0' :: tail)) = readFrame c.
Proof.
  intros Ho Hr. destruct tail as [|h1 tail].
  - unfold readFrame.
    rewrite (bind_Err _ _ _ _ _ (ReadFull_one c h0 Ho Hr)).
    rewrite (bind_Err _ _ _ _ _ (ReadFull_one (set_rd c [h0']) h0' Ho eq_refl)).
    reflexivity.
  - unfold readFrame.
    rewrite (bind_Ok _ _ _ _ _ (ReadFull_2 c h0 h1 tail Ho Hr)).
    rewrite (bind_Ok _ _ _ _ _
               (ReadFull_2 (set_rd c (h0' :: h1 :: tail)) h0' h1 tail
                  Ho eq_refl)).
    reflexivity.
Qed.

Lemma readFrame_ignores_byte0_witness :
  rd (peer [x81; x82; x01; x02; x03; x04; x69; x6b]) = x81 :: [x82; x01; x02; x03; x04; x69; x6b]
  /\ readFrame (peer [x89; x82; x01; x02; x03; x04; x69; x6b])
     = (peer [], Ok [x68; x69]).
Proof.
  split; [reflexivity|].
  transitivity (readFrame (peer [x81; x82; x01; x02; x03; x04; x69; x6b])).
  - exact (readFrame_ignores_byte0
             (peer [x81; x82; x01; x02; x03; x04; x69; x6b])
             x81 x89 [x82; x01; x02; x03; x04; x69; x6b] eq_refl eq_refl).
  - vm_compute. reflexivity.
Defined.

(** ** How a connection ends *)

Lemma skipn_tl {A} (n : nat) (l : list A) : skipn n (tl l) = skipn (S n) l.
Proof. destruct l; [now rewrite !skipn_nil | reflexivity]. Qed.

Lemma actions_stay_closed (acts : list action) (c : Conn) :
  closed c = true -> closed (fold_left perform acts c) = true.
Proof.
  revert c. induction acts as [|a acts IH]; intros c Hc; cbn [fold_left].
  - exact Hc.
  - apply IH. rewrite perform_closed. destruct a; auto.
Qed.

Lemma actions_close (acts : list action) (c : Conn) :
  In DoClose acts -> closed (fold_left perform acts c) = true.
Proof.
  revert c. induction acts as [|a acts IH]; intros c Hin; cbn [fold_left].
  - destruct Hin.
  - destruct Hin as [-> | Hin]; [|now apply IH].
    apply actions_stay_closed. reflexivity.
Qed.

Lemma readFrame_closed (c : Conn) :
  closed c = true -> readFrame c = (c, Err ErrClosed).
Proof.
  intros Hc. unfold readFrame. apply bind_Err.
  unfold ReadFull. cbn [Nat.eqb]. rewrite Hc. reflexivity.
Qed.

Section Endings.

Context {H : Type} `{handler : WSHandler H}.

(** The loop over a run of client frames, whatever follows them on the
    stream: one [OnMessage] per frame, and the loop goes on with what
    follows. *)
Lemma readLoop_messages (frames : list (list byte * list byte))
    (tail : list byte) :
  keepsOpen ->
  Forall (fun f => length (fst f) = 4%nat
                   /\ Z.of_nat (length (snd f)) <= maxAlloc) frames ->
  forall (t : nat) (beats : list nat) (conn : Conn) (k : Consumer H),
    closed conn = false ->
    rd conn = clientStream frames ++ tail ->
    exists conn1 k1,
      readLoop (length frames + t) beats conn k
      = readLoop t (skipn (length frames) beats) conn1 k1
      /\ closed conn1 = false
      /\ rd conn1 = tail
      /\ rd_end conn1 = rd_end conn
      /\ calls k1
         = calls k
           ++ map (fun f => CallMessage (string_of_list_byte (snd f)))
                  frames.
Proof.
  intros (_ & Hmsg) Hall.
  induction Hall as [|[key payload] frames (Hk & Hm) _ IH];
    intros t beats conn k Ho Hr.
  - exists conn, k. cbn [length Nat.add skipn map]. rewrite app_nil_r.
    auto.
  - cbn [length Nat.add readLoop]. cbv zeta.
    rewrite <- (pings_closed (hd O beats) conn) in Ho.
    rewrite <- (pings_rd (hd O beats) conn) in Hr.
    rewrite <- (pings_rd_end (hd O beats) conn).
    set (c0 := pings (hd O beats) conn) in *.
    cbn [fst snd] in Hk, Hm.
    unfold clientStream in Hr. cbn [map concat fst snd] in Hr.
    fold (clientStream frames) in Hr. rewrite <- app_assoc in Hr.
    rewrite (readFrame_clientFrame c0 key payload _ Ho Hr Hk Hm).
    destruct (invoke_spec
                (fun h => OnMessage h (string_of_list_byte payload))
                (CallMessage (string_of_list_byte payload))
                (set_rd c0 (clientStream frames ++ tail)) k)
      as (Hc & _ & Hrd & He & Hop & _).
    destruct (invoke _ _ (set_rd c0 (clientStream frames ++ tail)) k)
      as [c2 k2].
    cbn [fst snd] in *.
    destruct (IH t (tl beats) c2 k2) as (c3 & k3 & E & Ho3 & Hr3 & He3 & Hc3).
    + rewrite Hop by apply Hmsg. exact Ho.
    + exact Hrd.
    + exists c3, k3. rewrite E, skipn_tl. repeat split; auto.
      * rewrite He3, He. reflexivity.
      * rewrite Hc3, Hc. cbn [map snd]. rewrite <- app_assoc. reflexivity.
Qed.

(** The goroutine up to the point where the frames have been handed on. *)
Lemma handleWebSocket_messages (frames : list (list byte * list byte))
    (tail : list byte) (beats : list nat) (conn : Conn) (k : Consumer H) :
  keepsOpen ->
  Forall (fun f => length (fst f) = 4%nat
                   /\ Z.of_nat (length (snd f)) <= maxAlloc) frames ->
  closed conn = false ->
  rd conn = clientStream frames ++ tail ->
  exists conn1 k1,
    handleWebSocket beats conn k
    = match readLoop (S (length tail)) (skipn (length frames) beats)
              conn1 k1 with
      | None => None
      | Some (c, k, how) =>
          let (c, k) := invoke OnClose CallClose c k in
          Some (Close c, k, how)
      end
    /\ closed conn1 = false
    /\ rd conn1 = tail
    /\ rd_end conn1 = rd_end conn
    /\ calls k1
       = calls k ++ [CallConnect]
         ++ map (fun f => CallMessage (string_of_list_byte (snd f))) frames.
Proof.
  intros Hkeep Hall Ho Hr. unfold handleWebSocket.
  destruct (invoke_spec OnConnect CallConnect conn k)
    as (Hc & _ & Hrd & He & Hop & _).
  destruct (invoke OnConnect CallConnect conn k) as [c1 k1].
  cbn [fst snd] in *.
  assert (Ho1 : closed c1 = false) by (rewrite Hop by apply Hkeep; exact Ho).
  assert (Hr1 : rd c1 = clientStream frames ++ tail) by congruence.
  destruct (readLoop_total (S (length (rd c1))) beats c1 k1 ltac:(lia))
    as [out Hout].
  destruct (readLoop_messages frames tail Hkeep Hall
              (S (length (rd c1)) - length frames) beats c1 k1 Ho1 Hr1)
    as (c2 & k2 & E & Ho2 & Hr2 & He2 & Hc2).
  assert (Hlen : (length frames <= length (clientStream frames))%nat).
  { apply clientStream_length. eapply Forall_impl; [exact Hall|].
    intros f (_ & Hf). exact Hf. }
  assert (Hrl : length (rd c1)
                = (length (clientStream frames) + length tail)%nat)
    by (rewrite Hr1, length_app; reflexivity).
  replace (length frames + (S (length (rd c1)) - length frames))%nat
    with (S (length (rd c1))) in E by lia.
  exists c2, k2. split; [|repeat split; auto].
  - rewrite E.
    destruct (readLoop_total (S (length tail)) (skipn (length frames) beats)
                c2 k2 ltac:(rewrite Hr2; lia)) as [o1 Ho1'].
    destruct (readLoop_total (S (length (rd c1)) - length frames)
                (skipn (length frames) beats) c2 k2
                ltac:(rewrite Hr2; lia)) as [o2 Ho2'].
    assert (Hmono : forall a b beats' c' k' o,
               (a <= b)%nat ->
               readLoop a beats' c' k' = Some o ->
               readLoop b beats' c' k' = Some o).
    { clear. induction a as [|a IHa]; intros b beats' c' k' o Hab Ha;
        [discriminate|].
      destruct b as [|b]; [lia|]. cbn [readLoop] in *. cbv zeta in *.
      destruct (readFrame (pings (hd O beats') c')) as [c1 [msg|e|p]];
        auto.
      destruct (invoke _ _ c1 k') as [c2 k2]. apply (IHa b); [lia | exact Ha]. }
    assert (Heq : o2 = o1).
    { destruct (Nat.le_ge_cases (S (length tail))
                  (S (length (rd c1)) - length frames)) as [Hle | Hle].
      - apply (Hmono _ _ _ _ _ _ Hle) in Ho1'. congruence.
      - apply (Hmono _ _ _ _ _ _ Hle) in Ho2'. congruence. }
    rewrite Ho1', Ho2', Heq. reflexivity.
  - rewrite He2, He. reflexivity.
  - rewrite Hc2, Hc, <- app_assoc. reflexivity.
Qed.

End Endings.

Lemma invoke_close {H} (cb : H -> H * list action) (ev : call)
    (conn : Conn) (k : Consumer H) :
  In DoClose (snd (cb (hstate k))) ->
  closed (fst (invoke cb ev conn k)) = true.
Proof.
  unfold invoke. destruct (cb (hstate k)) as [h' acts]. cbn [fst snd].
  apply actions_close.
Qed.

Section Lifecycles.

Context {H : Type} `{handler : WSHandler H}.

(** X5. One frame is enough to bring the goroutine down. After any run of
    frames that were handed on, a frame of the 127 tier whose length
    field is beyond what can be allocated (every field with bit 63 set is)
    makes the decoder panic: [OnError] is not called, the deferred
    [OnClose] and [Close] still run, and the goroutine ends in the
    panic. *)
Theorem bad_length_unwinds (frames : list (list byte * list byte))
    (h0 h1 : byte) (ext key rest : list byte) (beats : list nat)
    (conn : Conn) (k : Consumer H) :
  keepsOpen ->
  Forall (fun f => length (fst f) = 4%nat
                   /\ Z.of_nat (length (snd f)) <= maxAlloc) frames ->
  closed conn = false ->
  rd conn = clientStream frames ++ h0 :: h1 :: ext ++ key ++ rest ->
  baseLen h1 = 127 -> length ext = 8%nat -> length key = 4%nat ->
  maxAlloc < BigEndian.be_value ext ->
  exists conn' k',
    handleWebSocket beats conn k
    = Some (conn', k', LoopPanicked MakeSliceLen)
    /\ closed conn' = true
    /\ calls k'
       = calls k ++ [CallConnect]
         ++ map (fun f => CallMessage (string_of_list_byte (snd f))) frames
         ++ [CallClose].
Proof.
  intros Hkeep Hall Ho Hr Hb Hl Hk Hbig.
  destruct (handleWebSocket_messages frames _ beats conn k Hkeep Hall Ho Hr)
    as (c1 & k1 & -> & Ho1 & Hr1 & _ & Hc1).
  cbn [readLoop]. cbv zeta.
  set (b := hd O (skipn (length frames) beats)).
  rewrite <- (pings_closed b c1) in Ho1. rewrite <- (pings_rd b c1) in Hr1.
  assert (E : readFrame (pings b c1)
              = (set_rd (pings b c1) rest, Panic MakeSliceLen)).
  { rewrite (readFrame_ext64 _ h0 h1 ext (key ++ rest) Ho1 Hr1 Hb Hl).
    apply (readBody_refused (set_rd (pings b c1) (key ++ rest)) key rest);
      auto.
    rewrite (extLen64_wrap ext Hl).
    pose proof (be_value_range64 ext Hl) as Hv.
    destruct (Z.lt_ge_cases (BigEndian.be_value ext) (2 ^ 63)) as [Hlt | Hge].
    - rewrite wrap_int_small by lia. right. exact Hbig.
    - rewrite wrap_int_high by lia. left. lia. }
  rewrite E.
  destruct (invoke_spec OnClose CallClose (set_rd (pings b c1) rest) k1)
    as (Hc2 & _).
  destruct (invoke OnClose CallClose (set_rd (pings b c1) rest) k1)
    as [c3 k3].
  cbn [snd] in Hc2. exists (Close c3), k3.
  split; [reflexivity|]. split; [reflexivity|].
  rewrite Hc2, Hc1, <- !app_assoc. reflexivity.
Qed.

(** X6. A consumer that closes the connection while it handles a message
    ends the loop there: the next read fails on the closed stream, the
    consumer gets [OnError] with that failure and then [OnClose], and
    whatever the peer had sent after that message is never handed on. *)
Theorem consumer_close_ends (key payload rest : list byte)
    (beats : list nat) (conn : Conn) (k : Consumer H) :
  closed conn = false ->
  rd conn = clientFrame key payload ++ rest ->
  length key = 4%nat ->
  Z.of_nat (length payload) <= maxAlloc ->
  ~ In DoClose (snd (OnConnect (hstate k))) ->
  In DoClose (snd (OnMessage (fst (OnConnect (hstate k)))
                             (string_of_list_byte payload))) ->
  exists conn' k',
    handleWebSocket beats conn k = Some (conn', k', LoopBroke)
    /\ closed conn' = true
    /\ calls k'
       = calls k
         ++ [CallConnect; CallMessage (string_of_list_byte payload);
             CallError ErrClosed; CallClose].
Proof.
  intros Ho Hr Hk Hm Hkeep Hclose. unfold handleWebSocket.
  destruct (invoke_spec OnConnect CallConnect conn k)
    as (Hc & Hh & Hrd & _ & Hop & _).
  destruct (invoke OnConnect CallConnect conn k) as [c1 k1].
  cbn [fst snd] in *.
  assert (Ho1 : closed c1 = false) by (rewrite Hop by exact Hkeep; exact Ho).
  assert (Hr1 : rd c1 = clientFrame key payload ++ rest) by congruence.
  destruct (clientFrame_shape key payload) as (g1 & ext & Hs & _).
  { unfold maxAlloc in Hm. lia. }
  destruct (length (rd c1)) as [|n] eqn:Hn.
  { rewrite Hr1, Hs in Hn. discriminate Hn. }
  cbn [readLoop]. cbv zeta.
  rewrite <- (pings_closed (hd O beats) c1) in Ho1.
  rewrite <- (pings_rd (hd O beats) c1) in Hr1.
  rewrite (readFrame_clientFrame _ key payload rest Ho1 Hr1 Hk Hm).
  set (c1' := set_rd (pings (hd O beats) c1) rest).
  pose proof (invoke_close
                (fun h => OnMessage h (string_of_list_byte payload))
                (CallMessage (string_of_list_byte payload)) c1' k1) as Hcl.
  cbv beta in Hcl. rewrite Hh in Hcl. specialize (Hcl Hclose).
  destruct (invoke_spec
              (fun h => OnMessage h (string_of_list_byte payload))
              (CallMessage (string_of_list_byte payload)) c1' k1)
    as (Hc2 & _).
  destruct (invoke _ _ c1' k1) as [c2 k2]. cbn [fst snd] in *.
  assert (Hcl' : closed (pings (hd O (tl beats)) c2) = true)
    by (rewrite pings_closed; exact Hcl).
  rewrite (readFrame_closed _ Hcl').
  destruct (invoke_spec (fun h => OnError h ErrClosed) (CallError ErrClosed)
              (pings (hd O (tl beats)) c2) k2) as (Hc3 & _).
  destruct (invoke _ _ (pings (hd O (tl beats)) c2) k2) as [c3 k3].
  destruct (invoke_spec OnClose CallClose c3 k3) as (Hc4 & _).
  destruct (invoke OnClose CallClose c3 k3) as [c4 k4].
  cbn [fst snd] in *. exists (Close c4), k4.
  split; [reflexivity|]. split; [reflexivity|].
  rewrite Hc4, Hc3, Hc2, Hc, <- !app_assoc. reflexivity.
Qed.

(** The loop over a run of short client frames followed by a frame cut
    short, with any consumer: it hands on the frames one by one until the
    stream is closed or ends. *)
Lemma readLoop_cut (frames : list (list byte * list byte))
    (h0 h1 : byte) (ext key payload cut tail : list byte) :
  Forall (fun f => length (fst f) = 4%nat
                   /\ Z.of_nat (length (snd f)) <= 65535) frames ->
  tail ++ cut = h0 :: h1 :: ext ++ key ++ payload ->
  cut <> [] ->
  announces h1 ext (Z.of_nat (length payload)) ->
  length key = 4%nat ->
  (length payload < length cut)%nat
  \/ Z.of_nat (length payload) <= 65535 ->
  forall (turns : nat) (beats : list nat) (conn : Conn) (k : Consumer H),
    (length frames < turns)%nat ->
    rd conn = clientStream frames ++ tail ->
    exists conn' k' n e,
      readLoop turns beats conn k = Some (conn', k', LoopBroke)
      /\ (n <= length frames)%nat
      /\ calls k'
         = calls k
           ++ map (fun f => CallMessage (string_of_list_byte (snd f)))
                  (firstn n frames)
           ++ [CallError e]
      /\ (e = ErrClosed
          \/ (n = length frames
              /\ (e = rd_end conn
                  \/ (e = ErrUnexpectedEOF /\ rd_end conn = EOF))))
      /\ (keepsOpen -> closed conn = false -> n = length frames).
Proof.
  intros Hall Ht Hcut Ha Hk Hm.
  assert (Hm' : (length payload < length cut)%nat
                \/ Z.of_nat (length payload) <= maxAlloc).
  { destruct Hm as [Hm | Hm]; [left; exact Hm | right].
    unfold maxAlloc. lia. }
  assert (Hshut : forall (t : nat) (beats : list nat) (conn : Conn)
                         (k : Consumer H) (fs : list (list byte * list byte)),
             closed conn = true ->
             exists conn' k' n e,
               readLoop (S t) beats conn k = Some (conn', k', LoopBroke)
               /\ (n <= length fs)%nat
               /\ calls k'
                  = calls k
                    ++ map (fun f =>
                              CallMessage (string_of_list_byte (snd f)))
                           (firstn n fs)
                    ++ [CallError e]
               /\ (e = ErrClosed
                   \/ (n = length fs
                       /\ (e = rd_end conn
                           \/ (e = ErrUnexpectedEOF /\ rd_end conn = EOF))))
               /\ (keepsOpen -> closed conn = false -> n = length fs)).
  { intros t beats conn k fs Ho. cbn [readLoop]. cbv zeta.
    assert (Hc0 : closed (pings (hd O beats) conn) = true)
      by (rewrite pings_closed; exact Ho).
    rewrite (readFrame_closed _ Hc0).
    destruct (invoke_spec (fun h => OnError h ErrClosed)
                (CallError ErrClosed) (pings (hd O beats) conn) k)
      as (Hc & _).
    destruct (invoke _ _ (pings (hd O beats) conn) k) as [c2 k2].
    cbn [snd] in Hc.
    exists c2, k2, 0%nat, ErrClosed.
    split; [reflexivity|]. split; [lia|]. split; [exact Hc|].
    split; [left; reflexivity|]. intros _ Hf. congruence. }
  induction Hall as [|[fkey fpay] frames (Hfk & Hfm) _ IH];
    intros turns beats conn k Hturns Hr;
    (destruct turns as [|t]; [cbn [length] in Hturns; lia|]);
    (destruct (Bool.bool_dec (closed conn) true) as [Ho | Ho];
     [now apply Hshut | apply not_true_is_false in Ho]).
  - cbn [readLoop]. cbv zeta.
    assert (Ho0 : closed (pings (hd O beats) conn) = false)
      by (rewrite pings_closed; exact Ho).
    assert (Hr0 : rd (pings (hd O beats) conn) ++ cut
                  = h0 :: h1 :: ext ++ key ++ payload).
    { rewrite pings_rd, Hr. exact Ht. }
    destruct (readFrame_cut _ h0 h1 ext key payload cut Ho0 Hr0 Hcut Ha Hk
                Hm') as (e & E & He).
    rewrite E, pings_rd_end in *.
    destruct (invoke_spec (fun h => OnError h e) (CallError e)
                (set_rd (pings (hd O beats) conn) []) k) as (Hc & _).
    destruct (invoke _ _ (set_rd (pings (hd O beats) conn) []) k)
      as [c2 k2].
    cbn [snd] in Hc.
    exists c2, k2, 0%nat, e.
    split; [reflexivity|]. split; [cbn [length]; lia|].
    split; [exact Hc|]. split; [right; split; [reflexivity | exact He]|].
    intros _ _. reflexivity.
  - cbn [fst snd] in Hfk, Hfm. cbn [readLoop]. cbv zeta.
    assert (Ho0 : closed (pings (hd O beats) conn) = false)
      by (rewrite pings_closed; exact Ho).
    assert (Hr0 : rd (pings (hd O beats) conn)
                  = clientFrame fkey fpay ++ clientStream frames ++ tail).
    { rewrite pings_rd, Hr. unfold clientStream.
      cbn [map concat fst snd]. rewrite <- app_assoc. reflexivity. }
    assert (Hfm' : Z.of_nat (length fpay) <= maxAlloc)
      by (unfold maxAlloc; lia).
    rewrite (readFrame_clientFrame _ fkey fpay _ Ho0 Hr0 Hfk Hfm').
    destruct (invoke_spec
                (fun h => OnMessage h (string_of_list_byte fpay))
                (CallMessage (string_of_list_byte fpay))
                (set_rd (pings (hd O beats) conn)
                        (clientStream frames ++ tail)) k)
      as (Hc & _ & Hrd & He & Hop & _).
    destruct (invoke _ _
                (set_rd (pings (hd O beats) conn)
                        (clientStream frames ++ tail)) k) as [c2 k2].
    cbn [fst snd] in Hc, Hrd, He, Hop.
    cbn [set_rd rd rd_end closed] in Hrd, He, Hop.
    rewrite pings_rd_end in He. rewrite pings_closed, Ho in Hop.
    destruct (IH t (tl beats) c2 k2)
      as (c3 & k3 & n & e & E & Hn & Hcalls & Hor & Hkeep);
      [cbn [length] in Hturns; lia | exact Hrd |].
    exists c3, k3, (S n), e. rewrite E.
    split; [reflexivity|]. split; [cbn [length]; lia|]. split.
    { cbn [firstn map snd]. rewrite Hcalls, Hc, <- app_assoc.
      reflexivity. }
    split.
    + destruct Hor as [-> | (-> & Hend)]; [left; reflexivity | right].
      split; [reflexivity|]. rewrite He in Hend. exact Hend.
    + intros Hko _. cbn [length]. f_equal.
      apply Hkeep; [exact Hko|]. apply Hop. apply Hko.
Qed.

(** X7. A connection that ends between two frames or in the middle of
    one. The stream holds whole client frames of at most 65535 bytes each
    and then a proper prefix (it may be empty) of one more frame, cut
    before its mask key is whole or with a payload of at most 65535 bytes.
    Whatever the consumer does and at whatever pace the keepalive writes,
    the goroutine ends with the stream closed, and what it has called is
    [OnConnect], [OnMessage] for the first [n] frames in their order,
    [OnError] once, and [OnClose] last. Frames are left out only when the
    stream was closed, and the error is then that of the closed stream;
    otherwise it is the stream's own ending, or [io.ErrUnexpectedEOF]
    when a clean close falls inside a field. With a consumer that never
    closes, every frame is handed on. *)
Theorem handleWebSocket_lifecycle (frames : list (list byte * list byte))
    (h0 h1 : byte) (ext key payload cut tail : list byte)
    (beats : list nat) (conn : Conn) (k : Consumer H) :
  Forall (fun f => length (fst f) = 4%nat
                   /\ Z.of_nat (length (snd f)) <= 65535) frames ->
  rd conn = clientStream frames ++ tail ->
  tail ++ cut = h0 :: h1 :: ext ++ key ++ payload ->
  cut <> [] ->
  announces h1 ext (Z.of_nat (length payload)) ->
  length key = 4%nat ->
  (length payload < length cut)%nat
  \/ Z.of_nat (length payload) <= 65535 ->
  exists conn' k' n e,
    handleWebSocket beats conn k = Some (conn', k', LoopBroke)
    /\ closed conn' = true
    /\ (n <= length frames)%nat
    /\ calls k'
       = calls k
         ++ CallConnect
            :: map (fun f => CallMessage (string_of_list_byte (snd f)))
                   (firstn n frames)
         ++ [CallError e; CallClose]
    /\ (e = ErrClosed
        \/ (n = length frames
            /\ (e = rd_end conn
                \/ (e = ErrUnexpectedEOF /\ rd_end conn = EOF))))
    /\ (keepsOpen -> closed conn = false -> n = length frames).
Proof.
  intros Hall Hr Ht Hcut Ha Hk Hm. unfold handleWebSocket.
  destruct (invoke_spec OnConnect CallConnect conn k)
    as (Hc & _ & Hrd & He & Hop & _).
  destruct (invoke OnConnect CallConnect conn k) as [c1 k1].
  cbn [fst snd] in Hc, Hrd, He, Hop.
  assert (Hlen : (length frames <= length (clientStream frames))%nat).
  { apply clientStream_length. eapply Forall_impl; [exact Hall|].
    intros f (_ & Hf). unfold maxAlloc. lia. }
  destruct (readLoop_cut frames h0 h1 ext key payload cut tail Hall Ht Hcut
              Ha Hk Hm (S (length (rd c1))) beats c1 k1)
    as (c2 & k2 & n & e & E & Hn & Hcalls & Hor & Hkeep).
  { rewrite Hrd, Hr, length_app. lia. }
  { rewrite Hrd. exact Hr. }
  rewrite E.
  destruct (invoke_spec OnClose CallClose c2 k2) as (Hc3 & _).
  destruct (invoke OnClose CallClose c2 k2) as [c3 k3]. cbn [snd] in Hc3.
  exists (Close c3), k3, n, e.
  split; [reflexivity|]. split; [reflexivity|]. split; [exact Hn|].
  split.
  { rewrite Hc3, Hcalls, Hc, <- !app_assoc. reflexivity. }
  split.
  - rewrite He in Hor. exact Hor.
  - intros Hko Ho. apply Hkeep; [exact Hko|].
    rewrite Hop by apply Hko. exact Ho.
Qed.

End Lifecycles.

Lemma handleWebSocket_lifecycle_witness :
  exists conn' k',
    @handleWebSocket unit MyWSHandler.handler [1%nat]
      (peer (clientStream
               [([x01; x02; x03; x04], list_byte_of_string "hi")]
             ++ [x81; x85; x0a; x0b]))
      (fresh tt)
    = Some (conn', k', LoopBroke)
    /\ closed conn' = true
    /\ calls k'
       = [CallConnect; CallMessage "hi"; CallError ErrUnexpectedEOF;
          CallClose].
Proof.
  destruct (@handleWebSocket_lifecycle unit MyWSHandler.handler
              [([x01; x02; x03; x04], list_byte_of_string "hi")]
              x81 x85 [] [x0a; x0b; x0c; x0d]
              (list_byte_of_string "hello")
              ([x0c; x0d] ++ list_byte_of_string "hello")
              [x81; x85; x0a; x0b] [1%nat]
              (peer (clientStream
                       [([x01; x02; x03; x04], list_byte_of_string "hi")]
                     ++ [x81; x85; x0a; x0b]))
              (fresh tt))
    as (conn' & k' & n & e & E & Hc & _).
  - repeat constructor; vm_compute; discriminate.
  - reflexivity.
  - reflexivity.
  - discriminate.
  - left. vm_compute. repeat split; reflexivity.
  - reflexivity.
  - right. vm_compute. discriminate.
  - exists conn', k'. split; [exact E|]. split; [exact Hc|].
    vm_compute in E. injection E as _ <-. reflexivity.
Defined.

Lemma bad_length_unwinds_witness :
  maxAlloc
  < BigEndian.be_value [x80; x00; x00; x00; x00; x00; x00; x00]
  /\ exists conn' k',
       @handleWebSocket unit MyWSHandler.handler [2%nat]
         (peer (clientStream [([x01; x02; x03; x04],
                               list_byte_of_string "hi")]
                ++ x81 :: xff :: [x80; x00; x00; x00; x00; x00; x00; x00]
                ++ [x0a; x0b; x0c; x0d] ++ [x41]))
         (fresh tt)
       = Some (conn', k', LoopPanicked MakeSliceLen)
       /\ calls k' = [CallConnect; CallMessage "hi"; CallClose].
Proof.
  assert (Hbig : maxAlloc
                 < BigEndian.be_value [x80; x00; x00; x00; x00; x00; x00; x00])
    by (vm_compute; reflexivity).
  split; [exact Hbig|].
  destruct (@bad_length_unwinds unit MyWSHandler.handler
              [([x01; x02; x03; x04], list_byte_of_string "hi")]
              x81 xff [x80; x00; x00; x00; x00; x00; x00; x00]
              [x0a; x0b; x0c; x0d] [x41] [2%nat]
              (peer (clientStream [([x01; x02; x03; x04],
                                    list_byte_of_string "hi")]
                     ++ x81 :: xff
                        :: [x80; x00; x00; x00; x00; x00; x00; x00]
                     ++ [x0a; x0b; x0c; x0d] ++ [x41]))
              (fresh tt) MyWSHandler_keepsOpen)
    as (conn' & k' & E & _ & Hc); try reflexivity; try exact Hbig.
  - constructor; [|constructor]. split; [reflexivity|].
    vm_compute. discriminate.
  - exists conn', k'. split; [exact E | exact Hc].
Defined.

Lemma consumer_close_ends_witness :
  In DoClose (snd (@OnMessage unit Hangup.handler tt "hi"))
  /\ exists conn' k',
       @handleWebSocket unit Hangup.handler []
         (peer (clientFrame [x01; x02; x03; x04] (list_byte_of_string "hi")
                ++ clientFrame [x01; x02; x03; x04]
                     (list_byte_of_string "yo")))
         (fresh tt)
       = Some (conn', k', LoopBroke)
       /\ calls k'
          = [CallConnect; CallMessage "hi"; CallError ErrClosed; CallClose].
Proof.
  split; [left; reflexivity|].
  destruct (@consumer_close_ends unit Hangup.handler
              [x01; x02; x03; x04] (list_byte_of_string "hi")
              (clientFrame [x01; x02; x03; x04] (list_byte_of_string "yo"))
              []
              (peer (clientFrame [x01; x02; x03; x04]
                       (list_byte_of_string "hi")
                     ++ clientFrame [x01; x02; x03; x04]
                          (list_byte_of_string "yo")))
              (fresh tt))
    as (conn' & k' & E & _ & Hc); try reflexivity.
  - vm_compute. discriminate.
  - cbn. tauto.
  - left. reflexivity.
  - exists conn', k'. split; [exact E | exact Hc].
Defined.

(** ** The example program: an echo *)

Lemma Write_ok (p : list byte) (c : Conn) :
  healthy c ->
  Write p c
  = (MkConn (rd c) (rd_end c) (writes c ++ [p]) (sent c ++ p) [] false,
     None).
Proof. intros (Ho & Hf). unfold Write. rewrite Ho, Hf. reflexivity. Qed.

(** On a healthy stream [writeFrame] succeeds and sends the encoded
    message, whole. *)
Lemma writeFrame_encoded (message : list byte) (c : Conn) :
  healthy c ->
  snd (writeFrame message c) = None
  /\ sent (fst (writeFrame message c)) = sent c ++ encoded message
  /\ healthy (fst (writeFrame message c))
  /\ sameReadSide (fst (writeFrame message c)) c.
Proof.
  intros Hh. unfold encoded, writeFrame.
  rewrite Write_peer, (Write_ok _ c Hh). cbn [fst snd sent].
  destruct Hh as (Ho & _).
  repeat split; auto.
Qed.

Lemma pingBytes_S (n : nat) : pingBytes n ++ [x89; x00] = pingBytes (S n).
Proof.
  unfold pingBytes. induction n as [|n IH]; [reflexivity|].
  change (repeat [x89; x00] (S (S n)))
    with ([x89; x00] :: repeat [x89; x00] (S n)).
  change (repeat [x89; x00] (S n)) with ([x89; x00] :: repeat [x89; x00] n)
    at 1.
  cbn [concat]. rewrite <- IH, <- app_assoc. reflexivity.
Qed.

Lemma pings_healthy (n : nat) (c : Conn) :
  healthy c ->
  healthy (pings n c) /\ sent (pings n c) = sent c ++ pingBytes n.
Proof.
  intros Hh. induction n as [|n (Hn & Hs)]; cbn [pings].
  - split; [exact Hh | now rewrite app_nil_r].
  - unfold ping. rewrite (Write_ok _ _ Hn). cbn [fst sent].
    split; [split; reflexivity|].
    rewrite Hs, <- app_assoc, pingBytes_S. reflexivity.
Qed.

Lemma echo_readLoop (frames : list (list byte * list byte)) :
  Forall (fun f => length (fst f) = 4%nat
                   /\ Z.of_nat (length (snd f)) <= maxAlloc) frames ->
  forall (turns : nat) (beats : list nat) (conn : Conn) (k : Consumer unit),
    (length frames < turns)%nat ->
    healthy conn ->
    rd conn = clientStream frames ->
    exists conn' k',
      @readLoop unit MyWSHandler.handler turns beats conn k
      = Some (conn', k', LoopBroke)
      /\ sent conn' = sent conn ++ echoOutput beats frames.
Proof.
  induction 1 as [|[key payload] frames (Hk & Hm) _ IH];
    intros turns beats conn k Hlt Hh Hr;
    (destruct turns as [|turns]; [cbn [length] in Hlt; lia|]);
    cbn [readLoop]; cbv zeta;
    destruct (pings_healthy (hd O beats) conn Hh) as ((Ho & Hf) & Hs);
    rewrite <- (pings_rd (hd O beats) conn) in Hr;
    set (c0 := pings (hd O beats) conn) in *.
  - rewrite (readFrame_drained c0 Ho Hr).
    unfold invoke. cbn [OnError MyWSHandler.handler fold_left].
    eexists _, _. split; [reflexivity|]. exact Hs.
  - cbn [fst snd] in Hk, Hm.
    unfold clientStream in Hr. cbn [map concat fst snd] in Hr.
    fold (clientStream frames) in Hr.
    rewrite (readFrame_clientFrame c0 key payload _ Ho Hr Hk Hm).
    unfold invoke at 1.
    cbn [OnMessage MyWSHandler.handler fold_left perform].
    unfold Send. rewrite list_byte_of_string_of_list_byte.
    assert (Hh0 : healthy (set_rd c0 (clientStream frames)))
      by (split; [exact Ho | exact Hf]).
    destruct (writeFrame_encoded payload _ Hh0) as (_ & Hs1 & Hh1 & Hrs).
    set (c1 := fst (writeFrame payload (set_rd c0 (clientStream frames)))) in *.
    destruct (IH turns (tl beats) c1
                (MkConsumer (hstate k)
                   (calls k ++ [CallMessage (string_of_list_byte payload)])))
      as (c2 & k2 & E & Hs2).
    + cbn [length] in Hlt. lia.
    + exact Hh1.
    + destruct Hrs as (-> & _). reflexivity.
    + exists c2, k2. split; [exact E|].
      rewrite Hs2, Hs1. cbn [sent set_rd echoOutput snd]. rewrite Hs.
      rewrite <- !app_assoc. reflexivity.
Qed.

(** X4. The example program echoes. On a stream where every write goes
    through, with the example consumer and a well-formed request, the
    bytes sent over a connection are the 101 response and then, turn by
    turn, the keepalive pings of that turn and the encoded frame of the
    message just read, in the order of arrival; without keepalive writes
    they are the response and the encoded messages and nothing else. *)
Theorem echo_connection (u : string -> string)
    (frames : list (list byte * list byte)) (beats : list nat)
    (w : http.ResponseWriter) (r : http.Request) (conn : Conn) :
  Forall (fun f => length (fst f) = 4%nat
                   /\ Z.of_nat (length (snd f)) <= maxAlloc) frames ->
  wellFormed u r ->
  http.hijack w = http.HijackGives conn ->
  healthy conn ->
  rd conn = clientStream frames ->
  (exists conn' k',
     @serve unit MyWSHandler.handler u beats w r (fresh tt)
     = Some (k', Started conn', Some LoopBroke)
     /\ sent conn'
        = sent conn
          ++ list_byte_of_string
               (response (http.Get (http.header r) "Sec-WebSocket-Key"))
          ++ echoOutput beats frames)
  /\ echoOutput [] frames = concat (map (fun f => encoded (snd f)) frames).
Proof.
  intros Hall Hwf Hh Hhealthy Hr. split.
  - destruct (wellFormed_checks u r Hwf) as (E1 & E2).
    unfold serve, UpgradeToWebSocket. rewrite E1, E2, Hh.
    rewrite (Write_ok _ conn Hhealthy).
    unfold invoke at 1. cbn [OnConnect MyWSHandler.handler fold_left].
    unfold handleWebSocket.
    unfold invoke at 1. cbn [OnConnect MyWSHandler.handler fold_left].
    match goal with
    | |- context [readLoop ?t ?b ?c ?k] =>
        destruct (echo_readLoop frames Hall t b c k) as (c2 & k2 & E & Hs)
    end.
    + cbn [rd]. rewrite Hr.
      assert (Hlen : (length frames <= length (clientStream frames))%nat).
      { apply clientStream_length. eapply Forall_impl; [exact Hall|].
        intros f (_ & Hf). exact Hf. }
      lia.
    + split; reflexivity.
    + exact Hr.
    + rewrite E.
      unfold invoke. cbn [OnClose MyWSHandler.handler fold_left].
      eexists _, _. split; [reflexivity|].
      cbn [Close sent]. rewrite Hs. cbn [sent].
      rewrite <- app_assoc. reflexivity.
  - clear. induction frames as [|f frames IH]; [reflexivity|].
    cbn [echoOutput map concat hd tl]. rewrite IH. reflexivity.
Qed.

Lemma echo_connection_witness :
  healthy (peer (clientStream
                   [([x01; x02; x03; x04], list_byte_of_string "hi");
                    ([x0a; x0b; x0c; x0d], list_byte_of_string "yo")]))
  /\ exists conn' k',
       @serve unit MyWSHandler.handler (fun s => s) [1%nat]
         (hijackable
            (peer (clientStream
                     [([x01; x02; x03; x04], list_byte_of_string "hi");
                      ([x0a; x0b; x0c; x0d], list_byte_of_string "yo")])))
         sampleRequest (fresh tt)
       = Some (k', Started conn', Some LoopBroke)
       /\ sent conn'
          = list_byte_of_string (response "dGhlIHNhbXBsZSBub25jZQ==")
            ++ [x89; x00] ++ [x81; x02; x68; x69] ++ [x81; x02; x79; x6f].
Proof.
  assert (Hh : healthy
                 (peer (clientStream
                          [([x01; x02; x03; x04], list_byte_of_string "hi");
                           ([x0a; x0b; x0c; x0d],
                            list_byte_of_string "yo")])))
    by (split; reflexivity).
  split; [exact Hh|].
  destruct (echo_connection (fun s => s)
              [([x01; x02; x03; x04], list_byte_of_string "hi");
               ([x0a; x0b; x0c; x0d], list_byte_of_string "yo")]
              [1%nat]
              (hijackable
                 (peer (clientStream
                          [([x01; x02; x03; x04], list_byte_of_string "hi");
                           ([x0a; x0b; x0c; x0d],
                            list_byte_of_string "yo")])))
              sampleRequest
              (peer (clientStream
                       [([x01; x02; x03; x04], list_byte_of_string "hi");
                        ([x0a; x0b; x0c; x0d],
                         list_byte_of_string "yo")])))
    as ((conn' & k' & E & Hs) & _);
    [ | exact sampleRequest_wellFormed | reflexivity | exact Hh | reflexivity | ].
  - repeat constructor; vm_compute; discriminate.
  - exists conn', k'. split; [exact E|]. rewrite Hs. vm_compute. reflexivity.
Defined.

(** ** The handshake, the other ways *)

Lemma checks_wellFormed (u : string -> string) (r : http.Request) :
  negb (String.eqb
          (strings.ToLower u (http.Get (http.header r) "Upgrade"))
          "websocket")
  || negb (strings.Contains
             (strings.ToLower u (http.Get (http.header r) "Connection"))
             "upgrade") = false ->
  String.eqb (http.Get (http.header r) "Sec-WebSocket-Key") "" = false ->
  wellFormed u r.
Proof.
  intros E1 E2. apply orb_false_iff in E1. destruct E1 as [Ea Eb].
  apply negb_false_iff in Ea, Eb. apply String.eqb_eq in Ea.
  apply Contains_spec in Eb. apply String.eqb_neq in E2.
  repeat split; auto.
Qed.

Section Refusals.

Context {H : Type} `{handler : WSHandler H}.
Variable unicodeToLower : string -> string.

(** X8. A well-formed request whose stream cannot be taken: when [Hijack]
    returns an error the answer is status 500 on the HTTP surface, and
    when the writer is no [Hijacker] at all the call panics with nothing
    written; either way no stream is detached, no callback fires and no
    goroutine is started. *)
Theorem hijack_refused (w : http.ResponseWriter) (r : http.Request)
    (k : Consumer H) :
  wellFormed unicodeToLower r ->
  (forall e, http.hijack w = http.HijackFails e ->
     exists w',
       UpgradeToWebSocket unicodeToLower w r k = (w', k, Declined)
       /\ http.status w' = Some 500
       /\ http.hijacked w' = http.hijacked w
       /\ forall beats,
            serve unicodeToLower beats w r k = Some (k, Declined, None))
  /\ (http.hijack w = http.NoHijacker ->
      UpgradeToWebSocket unicodeToLower w r k = (w, k, Crashed NotHijacker)
      /\ forall beats,
           serve unicodeToLower beats w r k
           = Some (k, Crashed NotHijacker, None)).
Proof.
  intros Hwf. destruct (wellFormed_checks unicodeToLower r Hwf) as (E1 & E2).
  split.
  - intros e Hh. unfold serve, UpgradeToWebSocket. rewrite E1, E2, Hh.
    eexists. repeat split.
  - intros Hh. unfold serve, UpgradeToWebSocket. rewrite E1, E2, Hh.
    repeat split.
Qed.

(** X9. The stream is taken from the HTTP server exactly when the request
    is well formed and the writer gives its stream up; a callback fires
    during the call only when the connection goroutine is started, and
    that happens for well-formed requests only. *)
Theorem stream_taken_iff (w : http.ResponseWriter) (r : http.Request)
    (k : Consumer H) :
  http.hijacked w = false ->
  (http.hijacked (fst (fst (UpgradeToWebSocket unicodeToLower w r k))) = true
   <-> wellFormed unicodeToLower r
       /\ exists conn, http.hijack w = http.HijackGives conn)
  /\ ((exists conn',
         snd (UpgradeToWebSocket unicodeToLower w r k) = Started conn') ->
      wellFormed unicodeToLower r)
  /\ (snd (fst (UpgradeToWebSocket unicodeToLower w r k)) = k
      \/ exists conn',
           snd (UpgradeToWebSocket unicodeToLower w r k) = Started conn').
Proof.
  intros Hw. unfold UpgradeToWebSocket.
  destruct (negb (String.eqb
                    (strings.ToLower unicodeToLower
                       (http.Get (http.header r) "Upgrade")) "websocket")
            || negb (strings.Contains
                       (strings.ToLower unicodeToLower
                          (http.Get (http.header r) "Connection")) "upgrade"))
    eqn:E1.
  - assert (Hn : ~ wellFormed unicodeToLower r).
    { intros Hwf. destruct (wellFormed_checks unicodeToLower r Hwf) as (E & _).
      congruence. }
    cbn [fst snd http.Error http.hijacked]. rewrite Hw.
    split; [split; [discriminate | intros (Hwf & _); contradiction]|].
    split; [intros (c & Hc); discriminate | left; reflexivity].
  - destruct (String.eqb (http.Get (http.header r) "Sec-WebSocket-Key") "")
      eqn:E2.
    + assert (Hn : ~ wellFormed unicodeToLower r).
      { intros Hwf.
        destruct (wellFormed_checks unicodeToLower r Hwf) as (_ & E).
        congruence. }
      cbn [fst snd http.Error http.hijacked]. rewrite Hw.
      split; [split; [discriminate | intros (Hwf & _); contradiction]|].
      split; [intros (c & Hc); discriminate | left; reflexivity].
    + pose proof (checks_wellFormed unicodeToLower r E1 E2) as Hwf.
      destruct (http.hijack w) as [|e|conn] eqn:Hh.
      * cbn [fst snd]. rewrite Hw.
        split; [split; [discriminate | intros (_ & c & Hc); discriminate]|].
        split; [intros (c & Hc); discriminate | left; reflexivity].
      * cbn [fst snd http.Error http.hijacked]. rewrite Hw.
        split; [split; [discriminate | intros (_ & c & Hc); discriminate]|].
        split; [intros (c & Hc); discriminate | left; reflexivity].
      * destruct (Write _ conn) as [c1 [e|]].
        -- cbn [fst snd http.detach http.hijacked].
           split; [split; [intros _; split; [exact Hwf | eauto] | reflexivity]|].
           split; [intros _; exact Hwf | left; reflexivity].
        -- destruct (invoke OnConnect CallConnect c1 k) as [c2 k2].
           cbn [fst snd http.detach http.hijacked].
           split; [split; [intros _; split; [exact Hwf | eauto] | reflexivity]|].
           split; [intros _; exact Hwf | right; eauto].
Qed.

End Refusals.

(** ** The keepalive loop under any schedule *)

Lemma pings_closed_sent (n : nat) (c : Conn) :
  closed c = true -> sent (pings n c) = sent c.
Proof.
  intros Hc. induction n as [|n IH]; cbn [pings]; [reflexivity|].
  unfold ping, Write. rewrite pings_closed, Hc. cbn [fst sent]. exact IH.
Qed.

Lemma pingSelect_any (events : list ready) :
  forall (conn : Conn) (times : list Z),
    ping_conn (pingSelect events conn times)
    = pings (ticksBeforeDone events) conn
    /\ ping_returned (pingSelect events conn times) = doneSeen events
    /\ length (ping_times (pingSelect events conn times))
       = (length times + ticksBeforeDone events)%nat.
Proof.
  induction events as [|[t|] events IH]; intros conn times;
    cbn [pingSelect ticksBeforeDone doneSeen pings ping_conn ping_returned
         ping_times].
  - repeat split. lia.
  - destruct (IH (ping conn) (times ++ [t])) as (-> & -> & ->).
    rewrite pings_shift, length_app. cbn [length]. repeat split. lia.
  - repeat split. lia.
Qed.

(** X10. Whatever the runtime delivers to its [select], the keepalive
    loop writes one ping of the two bytes [0x89, 0x00] for each tick that
    comes before [done] and nothing after it, and it returns if and only
    if [done] is delivered: while [done] is not closed it has not
    returned. On a closed stream its writes send nothing. *)
Theorem pingLoop_schedule (sched : time.Ticker -> list ready)
    (conn : Conn) :
  let events := sched (time.NewTicker (15 * time.Second)) in
  let out := pingLoop sched conn in
  ping_conn out = pings (ticksBeforeDone events) conn
  /\ writes (ping_conn out)
     = writes conn ++ repeat [x89; x00] (ticksBeforeDone events)
  /\ length (ping_times out) = ticksBeforeDone events
  /\ ping_returned out = doneSeen events
  /\ (closed conn = true -> sent (ping_conn out) = sent conn).
Proof.
  cbv zeta. unfold pingLoop.
  destruct (pingSelect_any (sched (time.NewTicker (15 * time.Second)))
              conn []) as (Hc & Hr & Ht).
  rewrite Hc. split; [reflexivity|]. split; [apply pings_spec|].
  split; [exact Ht|]. split; [exact Hr|].
  apply pings_closed_sent.
Qed.

Lemma hijack_refused_witness :
  wellFormed (fun s => s) sampleRequest
  /\ exists w',
       @UpgradeToWebSocket unit MyWSHandler.handler (fun s => s)
         (http.MkWriter (http.HijackFails (ErrTransport "no stream"))
            None EmptyString false)
         sampleRequest (fresh tt)
       = (w', fresh tt, Declined)
       /\ http.status w' = Some 500
       /\ http.hijacked w' = false.
Proof.
  split; [exact sampleRequest_wellFormed|].
  destruct (@hijack_refused unit MyWSHandler.handler (fun s => s)
              (http.MkWriter (http.HijackFails (ErrTransport "no stream"))
                 None EmptyString false)
              sampleRequest (fresh tt) sampleRequest_wellFormed)
    as (Hfail & _).
  destruct (Hfail (ErrTransport "no stream") eq_refl)
    as (w' & E & Hs & Hh & _).
  exists w'. auto.
Defined.

Lemma stream_taken_iff_witness :
  http.hijacked (hijackable (peer [])) = false
  /\ http.hijacked
       (fst (fst (@UpgradeToWebSocket unit MyWSHandler.handler (fun s => s)
                    (hijackable (peer [])) sampleRequest (fresh tt))))
     = true.
Proof.
  split; [reflexivity|].
  destruct (@stream_taken_iff unit MyWSHandler.handler (fun s => s)
              (hijackable (peer [])) sampleRequest (fresh tt) eq_refl)
    as ((_ & Hback) & _).
  apply Hback. split; [exact sampleRequest_wellFormed|].
  exists (peer []). reflexivity.
Defined.

(** ** The two copies of the decoder *)

Lemma mask_test (h1 : byte) :
  negb (int_of_byte (byte_and h1 x80) =? 0) = maskBit h1.
Proof. destruct h1; vm_compute; reflexivity. Qed.

Lemma bind_ext {A B} (m : io A) (k1 k2 : A -> io B) (c : Conn) :
  (forall a c', k1 a c' = k2 a c') -> bind m k1 c = bind m k2 c.
Proof.
  intros Hk. unfold bind. destruct (m c) as [c' [a|e|p]]; auto.
Qed.

Lemma unmask_read (n : nat) (key : list byte) (c : Conn) :
  bind (ReadFull n)
       (fun payload => ret (unmask (length payload) key payload)) c
  = bind (ReadFull n) (fun payload => ret (unmask n key payload)) c.
Proof.
  unfold bind. destruct (ReadFull n c) as [c' [payload|e|p]] eqn:E; auto.
  apply ReadFull_inv in E. destruct E as (_ & -> & _). reflexivity.
Qed.

Lemma Variant_readFrame_masked (c : Conn) (h0 h1 : byte)
    (tail : list byte) :
  closed c = false ->
  rd c = h0 :: h1 :: tail ->
  maskBit h1 = true ->
  baseLen h1 <> 127 ->
  Variant.readFrame c = readFrame c.
Proof.
  intros Ho Hr Hm Hb. unfold Variant.readFrame, readFrame.
  rewrite !(bind_Ok _ _ _ _ _ (ReadFull_2 c h0 h1 tail Ho Hr)).
  cbv beta zeta. rewrite !header_base.
  change (index [h0; h1] 1) with h1. rewrite mask_test, Hm.
  apply Z.eqb_neq in Hb. rewrite Hb.
  apply bind_ext. intros L c1.
  apply bind_ext. intros key c2.
  apply bind_ext. intros n c3.
  apply unmask_read.
Qed.

(** X15. On a frame whose MASK bit is set and whose base length is not
    127, the two copies of the decoder do the same: same bytes taken,
    same payload or same error, whatever the rest of the stream. *)
Theorem decoders_agree (c : Conn) (h0 h1 : byte) (tail : list byte) :
  closed c = false ->
  rd c = h0 :: h1 :: tail ->
  maskBit h1 = true ->
  baseLen h1 <> 127 ->
  Variant.readFrame c = readFrame c
  /\ forall out c',
       readFrame c = (c', Ok out) -> Variant.readFrame c = (c', Ok out).
Proof.
  intros Ho Hr Hm Hb.
  pose proof (Variant_readFrame_masked c h0 h1 tail Ho Hr Hm Hb) as E.
  split; [exact E | intros out c' <-; exact E].
Qed.

Lemma decoders_agree_witness :
  maskBit x82 = true
  /\ baseLen x82 <> 127
  /\ Variant.readFrame
       (peer [x81; x82; x01; x02; x03; x04; x69; x6b; xff])
     = (peer [xff], Ok [x68; x69]).
Proof.
  split; [reflexivity|]. split; [vm_compute; discriminate|].
  transitivity
    (readFrame (peer [x81; x82; x01; x02; x03; x04; x69; x6b; xff])).
  - apply (decoders_agree _ x81 x82 [x01; x02; x03; x04; x69; x6b; xff]);
      [reflexivity | reflexivity | reflexivity | vm_compute; discriminate].
  - vm_compute. reflexivity.
Defined.

(** ** The other copy of the codec *)

Lemma unmask_length (key payload : list byte) :
  length (unmask (length payload) key payload) = length payload.
Proof. rewrite unmask_maskFrom. apply maskFrom_length. Qed.

(** An unmasked frame of the first tier, read by the other decoder. *)
Lemma Variant_readFrame_plain (c : Conn) (h0 h1 : byte)
    (payload rest : list byte) :
  closed c = false ->
  rd c = h0 :: h1 :: payload ++ rest ->
  baseLen h1 = Z.of_nat (length payload) ->
  baseLen h1 <= 125 ->
  maskBit h1 = false ->
  Variant.readFrame c = (set_rd c rest, Ok payload).
Proof.
  intros Ho Hr Hb Hle Hm. unfold Variant.readFrame.
  rewrite (bind_Ok _ _ _ _ _ (ReadFull_2 c h0 h1 (payload ++ rest) Ho Hr)).
  cbv beta zeta. rewrite !header_base.
  change (index [h0; h1] 1) with h1. rewrite mask_test, Hm.
  assert (E6 : (baseLen h1 =? 126) = false) by (apply Z.eqb_neq; lia).
  assert (E7 : (baseLen h1 =? 127) = false) by (apply Z.eqb_neq; lia).
  rewrite E6, E7. cbv [bind ret make_bytes].
  assert (E : (baseLen h1 <? 0) || (maxAlloc <? baseLen h1) = false).
  { apply orb_false_iff. unfold maxAlloc.
    split; apply Z.ltb_ge; lia. }
  rewrite E, Hb, Nat2Z.id.
  rewrite (ReadFull_exact (set_rd c (payload ++ rest)) payload rest Ho eq_refl).
  reflexivity.
Qed.

Lemma variantEncoded_eq (m : list byte) :
  variantEncoded m = x81 :: byte_of_int (Z.of_nat (length m)) :: m.
Proof. reflexivity. Qed.

(** X11. The other copy reads its own short frames back: a message of at
    most 125 bytes written by its [writeFrame] is returned by its
    [readFrame] as it was, unmasked and with no key on the stream, and
    the decoder stops right behind the frame. *)
Theorem Variant_short_roundtrip (m rest : list byte) :
  Z.of_nat (length m) <= 125 ->
  snd (Variant.writeFrame m (peer [])) = None
  /\ Variant.readFrame (peer (variantEncoded m ++ rest))
     = (peer rest, Ok m).
Proof.
  intros HL. split; [reflexivity|].
  destruct (small_byte (Z.of_nat (length m)) ltac:(lia)) as (_ & Hb & Hm).
  rewrite variantEncoded_eq.
  apply (Variant_readFrame_plain
           (peer ((x81 :: byte_of_int (Z.of_nat (length m)) :: m) ++ rest))
           x81 (byte_of_int (Z.of_nat (length m))) m rest);
    auto; lia.
Qed.

Lemma Variant_short_roundtrip_witness :
  Z.of_nat (length (list_byte_of_string "hello")) <= 125
  /\ Variant.readFrame
       (peer (variantEncoded (list_byte_of_string "hello") ++ [xff]))
     = (peer [xff], Ok (list_byte_of_string "hello")).
Proof.
  assert (HL : Z.of_nat (length (list_byte_of_string "hello")) <= 125)
    by (vm_compute; discriminate).
  split; [exact HL|].
  exact (proj2 (Variant_short_roundtrip (list_byte_of_string "hello")
                  [xff] HL)).
Defined.

(** What the other decoder has taken when it returns a payload. *)
Lemma Variant_readFrame_consumes (c c' : Conn) (out : list byte) :
  Variant.readFrame c = (c', Ok out) ->
  Z.of_nat (length out) <= 125
  \/ (length out + length (rd c') + 4 <= length (rd c))%nat.
Proof.
  unfold Variant.readFrame. unfold bind at 1.
  destruct (ReadFull 2 c) as [c1 [header|e|p]] eqn:E1; try discriminate.
  apply ReadFull_inv in E1. destruct E1 as (Hr1 & Hh & _ & _).
  destruct header as [|h0 [|h1 [|]]]; try discriminate Hh.
  cbv beta zeta. rewrite !header_base. change (index [h0; h1] 1) with h1.
  set (b := negb (int_of_byte (byte_and h1 x80) =? 0)).
  assert (Hbody : forall L c2,
             bind (if b then ReadFull 4 else ret [x00; x00; x00; x00])
               (fun maskKey =>
                  bind (make_bytes L)
                    (fun n =>
                       bind (ReadFull n)
                         (fun payload =>
                            ret (if b
                                 then unmask (length payload) maskKey payload
                                 else payload)))) c2
             = (c', Ok out) ->
             Z.of_nat (length out) = L
             /\ (length out + length (rd c') <= length (rd c2))%nat).
  { intros L c2. unfold bind at 1.
    destruct ((if b then ReadFull 4 else ret [x00; x00; x00; x00]) c2)
      as [c3 [key|e|p]] eqn:E3; try discriminate.
    assert (Hc3 : (length (rd c3) <= length (rd c2))%nat).
    { destruct b; [|unfold ret in E3; injection E3 as <- _; lia].
      apply ReadFull_inv in E3. destruct E3 as (-> & _).
      rewrite length_app. lia. }
    unfold bind at 1. unfold make_bytes.
    destruct ((L <? 0) || (maxAlloc <? L)) eqn:EL; [discriminate|].
    apply orb_false_iff in EL. destruct EL as [EL1 _].
    apply Z.ltb_ge in EL1. unfold bind at 1.
    destruct (ReadFull (Z.to_nat L) c3) as [c4 [payload|e|p]] eqn:E4;
      try discriminate.
    apply ReadFull_inv in E4. destruct E4 as (Hr4 & Hp & _ & _).
    unfold ret. intros [= <- <-].
    assert (Hlen : length (if b
                           then unmask (length payload) key payload
                           else payload) = length payload).
    { destruct b; [apply unmask_length | reflexivity]. }
    rewrite Hlen. split; [lia|].
    rewrite Hr4, length_app in Hc3. lia. }
  destruct (baseLen h1 =? 126) eqn:E6; [|destruct (baseLen h1 =? 127) eqn:E7].
  - unfold bind at 1. unfold bind at 1.
    destruct (ReadFull 2 c1) as [c2 [ext|e|p]] eqn:E2; try discriminate.
    apply ReadFull_inv in E2. destruct E2 as (Hr2 & He & _ & _).
    unfold ret at 1. intros Hb. apply Hbody in Hb. destruct Hb as (_ & Hb).
    right. rewrite Hr1, Hr2. cbn [length app]. rewrite length_app. lia.
  - unfold bind at 1. discriminate.
  - apply Z.eqb_neq in E6, E7. unfold bind at 1. unfold ret at 1.
    intros Hb. apply Hbody in Hb. destruct Hb as (Hb & _).
    left. rewrite Hb. unfold baseLen.
    change (Z.land (int_of_byte h1) 0x7F)
      with (Z.land (int_of_byte h1) (Z.ones 7)).
    rewrite Z.land_ones by lia.
    pose proof (Z.mod_pos_bound (int_of_byte h1) (2 ^ 7) ltac:(lia)) as Hmod.
    unfold baseLen in E6, E7.
    change (Z.land (int_of_byte h1) 0x7F)
      with (Z.land (int_of_byte h1) (Z.ones 7)) in E6, E7.
    rewrite Z.land_ones in E6, E7 by lia. lia.
Qed.

(** X12. The other copy cannot carry a longer message: its encoder keeps
    the low eight bits of the length only. For a message of 126 bytes or
    more written by its [writeFrame], its [readFrame] never returns the
    message and stops behind the frame, whatever follows on the stream:
    when it does return the very message, it has also taken at least two
    bytes of what follows; and when nothing follows the frame, it never
    returns the message at all. *)
Theorem Variant_long_lost (m : list byte) :
  126 <= Z.of_nat (length m) ->
  writes (fst (Variant.writeFrame m (peer [])))
  = [x81 :: byte_of_int (Z.of_nat (length m) mod 256) :: m]
  /\ (forall (rest : list byte) (c' : Conn) (out : list byte),
        Variant.readFrame (peer (variantEncoded m ++ rest)) = (c', Ok out) ->
        out <> m \/ (length (rd c') + 2 <= length rest)%nat)
  /\ (forall rest : list byte,
        Variant.readFrame (peer (variantEncoded m ++ rest))
        <> (peer rest, Ok m))
  /\ snd (Variant.readFrame (peer (variantEncoded m))) <> Ok m.
Proof.
  intros HL.
  assert (Hstep : forall (rest : list byte) (c' : Conn),
             Variant.readFrame (peer (variantEncoded m ++ rest))
             = (c', Ok m) ->
             (length (rd c') + 2 <= length rest)%nat).
  { intros rest c' E. apply Variant_readFrame_consumes in E.
    rewrite variantEncoded_eq in E. cbn [peer rd length app] in E.
    rewrite length_app in E. lia. }
  split; [|split; [|split]].
  - unfold Variant.writeFrame. rewrite Write_peer. cbn [fst writes app].
    do 3 f_equal. apply int_of_byte_inj. rewrite !int_of_byte_of_int.
    now rewrite Z.mod_mod by lia.
  - intros rest c' out E.
    destruct (List.list_eq_dec Byte.byte_eq_dec out m) as [-> | Hne];
      [right; now apply Hstep | left; exact Hne].
  - intros rest E. apply Hstep in E. cbn [peer rd] in E. lia.
  - destruct (Variant.readFrame (peer (variantEncoded m))) as [c' r] eqn:E.
    cbn [snd]. intros ->.
    rewrite <- (app_nil_r (variantEncoded m)) in E.
    apply Hstep in E. cbn [length] in E. lia.
Qed.

Lemma Variant_long_lost_witness :
  126 <= Z.of_nat (length (repeat x61 300))
  /\ writes (fst (Variant.writeFrame (repeat x61 300) (peer [])))
     = [x81 :: x2c :: repeat x61 300]
  /\ Variant.readFrame (peer (variantEncoded (repeat x61 300) ++ [x81; x00]))
     <> (peer [x81; x00], Ok (repeat x61 300))
  /\ snd (Variant.readFrame (peer (variantEncoded (repeat x61 300))))
     <> Ok (repeat x61 300).
Proof.
  assert (HL : 126 <= Z.of_nat (length (repeat x61 300)))
    by (vm_compute; discriminate).
  split; [exact HL|].
  destruct (Variant_long_lost (repeat x61 300) HL) as (Hw & _ & Hs & Hr).
  split; [|split; [apply Hs | exact Hr]].
  rewrite Hw. vm_compute. reflexivity.
Defined.

(** ** The other copy of the connection loop *)

(** The tier of a client frame goes by the length of its payload. *)
Lemma clientFrame_tier (key payload : list byte) :
  Z.of_nat (length payload) < 2 ^ 63 ->
  exists h1 tail,
    clientFrame key payload = x81 :: h1 :: tail
    /\ maskBit h1 = true
    /\ (Z.of_nat (length payload) <= 65535 -> baseLen h1 <> 127)
    /\ (65535 < Z.of_nat (length payload) -> baseLen h1 = 127).
Proof.
  intros HL. unfold clientFrame, encoded.
  destruct (writeFrame_shape payload (peer []) HL)
    as (h1 & ext & -> & Ha & _ & Hs).
  rewrite Write_peer. cbn [fst sent].
  destruct (set_mask_bit h1) as (Hb & Hm).
  rewrite (injectMask_frame key x81 h1 ext payload _ Ha).
  eexists _, _. split; [reflexivity|]. split; [exact Hm|].
  rewrite Hb. unfold tierHeaderSize in Hs.
  destruct Ha as [(Hlt & -> & _) | [(H6 & Hl & _) | (H7 & Hl & _)]].
  - split; [intros _; lia|]. intros Hbig. cbn [length] in Hs.
    destruct (Z.of_nat (length payload) <=? 125) eqn:E1; [lia|].
    destruct (Z.of_nat (length payload) <=? 65535) eqn:E2; lia.
  - split; [intros _; lia|]. intros Hbig. rewrite Hl in Hs.
    destruct (Z.of_nat (length payload) <=? 125) eqn:E1; [lia|].
    destruct (Z.of_nat (length payload) <=? 65535) eqn:E2; [|lia].
    apply Z.leb_le in E2. lia.
  - split; [|intros _; exact H7]. intros Hsmall. rewrite Hl in Hs.
    destruct (Z.of_nat (length payload) <=? 125) eqn:E1; [lia|].
    destruct (Z.of_nat (length payload) <=? 65535) eqn:E2; [lia|].
    apply Z.leb_gt in E2. lia.
Qed.

Lemma Variant_readFrame_clientFrame (c : Conn)
    (key payload rest : list byte) :
  closed c = false ->
  rd c = clientFrame key payload ++ rest ->
  length key = 4%nat ->
  Z.of_nat (length payload) <= 65535 ->
  Variant.readFrame c = (set_rd c rest, Ok payload).
Proof.
  intros Ho Hr Hk HL.
  destruct (clientFrame_tier key payload ltac:(lia))
    as (h1 & tail & Hs & Hm & Hsmall & _).
  pose proof Hr as Hr'. rewrite Hs in Hr'. cbn [app] in Hr'.
  rewrite (Variant_readFrame_masked c x81 h1 _ Ho Hr' Hm (Hsmall HL)).
  apply (readFrame_clientFrame c key payload rest Ho Hr Hk).
  unfold maxAlloc. lia.
Qed.

Lemma Variant_readFrame_big (c : Conn) (key payload rest : list byte) :
  closed c = false ->
  rd c = clientFrame key payload ++ rest ->
  65535 < Z.of_nat (length payload) < 2 ^ 63 ->
  exists c', Variant.readFrame c = (c', Err ErrFrameTooLarge).
Proof.
  intros Ho Hr HL.
  destruct (clientFrame_tier key payload ltac:(lia))
    as (h1 & tail & Hs & _ & _ & Hbig).
  rewrite Hs in Hr. cbn [app] in Hr.
  eexists. apply (Variant_readFrame_refuses_127 c x81 h1 _ Ho Hr).
  apply Hbig. lia.
Qed.

Lemma Variant_readFrame_drained (c : Conn) :
  closed c = false -> rd c = [] ->
  Variant.readFrame c = (c, Err (rd_end c)).
Proof.
  intros Ho Hr. unfold Variant.readFrame.
  destruct (ReadFull_short_error c 2 Ho) as (e & E & _ & He).
  { rewrite Hr. cbn. lia. }
  rewrite (bind_Err _ _ _ _ _ E), (He Hr), <- Hr, set_rd_same. reflexivity.
Qed.

Section VariantLoop.

Context {H : Type} `{handler : WSHandler H}.

Lemma Variant_readLoop_messages (frames : list (list byte * list byte))
    (tail : list byte) :
  keepsOpen ->
  Forall (fun f => length (fst f) = 4%nat
                   /\ Z.of_nat (length (snd f)) <= 65535) frames ->
  forall (t : nat) (conn : Conn) (k : Consumer H),
    closed conn = false ->
    rd conn = clientStream frames ++ tail ->
    exists conn1 k1,
      Variant.readLoop (length frames + t) conn k
      = Variant.readLoop t conn1 k1
      /\ closed conn1 = false
      /\ rd conn1 = tail
      /\ rd_end conn1 = rd_end conn
      /\ calls k1
         = calls k
           ++ map (fun f => CallMessage (string_of_list_byte (snd f)))
                  frames.
Proof.
  intros (_ & Hmsg) Hall.
  induction Hall as [|[key payload] frames (Hk & Hm) _ IH];
    intros t conn k Ho Hr.
  - exists conn, k. cbn [length Nat.add map]. rewrite app_nil_r. auto.
  - cbn [length Nat.add Variant.readLoop].
    cbn [fst snd] in Hk, Hm.
    unfold clientStream in Hr. cbn [map concat fst snd] in Hr.
    fold (clientStream frames) in Hr. rewrite <- app_assoc in Hr.
    rewrite (Variant_readFrame_clientFrame conn key payload _ Ho Hr Hk Hm).
    destruct (invoke_spec
                (fun h => OnMessage h (string_of_list_byte payload))
                (CallMessage (string_of_list_byte payload))
                (set_rd conn (clientStream frames ++ tail)) k)
      as (Hc & _ & Hrd & He & Hop & _).
    destruct (invoke _ _ (set_rd conn (clientStream frames ++ tail)) k)
      as [c2 k2].
    cbn [fst snd] in *.
    destruct (IH t c2 k2) as (c3 & k3 & E & Ho3 & Hr3 & He3 & Hc3).
    + rewrite Hop by apply Hmsg. exact Ho.
    + exact Hrd.
    + exists c3, k3. rewrite E. repeat split; auto.
      * rewrite He3, He. reflexivity.
      * rewrite Hc3, Hc. cbn [map snd]. rewrite <- app_assoc. reflexivity.
Qed.

Lemma small_frames_length (frames : list (list byte * list byte)) :
  Forall (fun f => length (fst f) = 4%nat
                   /\ Z.of_nat (length (snd f)) <= 65535) frames ->
  (length frames <= length (clientStream frames))%nat.
Proof.
  intros Hall. apply clientStream_length.
  eapply Forall_impl; [exact Hall|].
  intros f (_ & Hf). unfold maxAlloc. lia.
Qed.

(** X13. In the other copy the consumer sees a connection as it should:
    for a well-formed request and a stream of client frames of at most
    65535 bytes each that then ends, the callbacks are [OnConnect] once,
    [OnMessage] once per frame in the order of arrival, [OnError] once
    with the end of the stream, and [OnClose]. *)
Theorem Variant_lifecycle (u : string -> string)
    (frames : list (list byte * list byte)) (w : http.ResponseWriter)
    (r : http.Request) (conn : Conn) (k : Consumer H) :
  keepsOpen ->
  Forall (fun f => length (fst f) = 4%nat
                   /\ Z.of_nat (length (snd f)) <= 65535) frames ->
  wellFormed u r ->
  http.hijack w = http.HijackGives conn ->
  closed conn = false ->
  hd None (wr_faults conn) = None ->
  rd conn = clientStream frames ->
  exists conn' k',
    Variant.serve u w r k = Some (k', Started conn', Some LoopBroke)
    /\ closed conn' = true
    /\ calls k'
       = calls k ++ [CallConnect]
         ++ map (fun f => CallMessage (string_of_list_byte (snd f))) frames
         ++ [CallError (rd_end conn); CallClose].
Proof.
  intros Hkeep Hall Hwf Hh Ho Hf Hr.
  destruct (wellFormed_checks u r Hwf) as (E1 & E2).
  unfold Variant.serve, UpgradeToWebSocket. rewrite E1, E2, Hh.
  set (p := list_byte_of_string (response _)).
  destruct (Write_read_side p conn) as (Hrd & He & Hcl).
  assert (Hok : snd (Write p conn) = None).
  { unfold Write. rewrite Ho.
    destruct (wr_faults conn) as [|[f|] later];
      [reflexivity | discriminate Hf | reflexivity]. }
  destruct (Write p conn) as [c1 [e|]]; [discriminate Hok|].
  cbn [fst] in *.
  destruct (invoke_spec OnConnect CallConnect c1 k)
    as (Hc & _ & Hrd2 & He2 & Hop & _).
  destruct (invoke OnConnect CallConnect c1 k) as [c2 k2].
  cbn [fst snd] in *.
  assert (Ho2 : closed c2 = false)
    by (rewrite Hop by apply Hkeep; congruence).
  assert (Hr2 : rd c2 = clientStream frames ++ []).
  { rewrite app_nil_r. congruence. }
  pose proof (small_frames_length frames Hall) as Hlen.
  unfold Variant.handleWebSocket.
  replace (S (length (rd c2)))
    with (length frames + S (length (rd c2) - length frames))%nat
    by (rewrite Hr2, app_nil_r; lia).
  destruct (Variant_readLoop_messages frames [] Hkeep Hall
              (S (length (rd c2) - length frames)) c2 k2 Ho2 Hr2)
    as (c3 & k3 & -> & Ho3 & Hr3 & He3 & Hc3).
  cbn [Variant.readLoop]. rewrite (Variant_readFrame_drained c3 Ho3 Hr3).
  destruct (invoke_spec (fun h => OnError h (rd_end c3))
              (CallError (rd_end c3)) c3 k3) as (Hc4 & _).
  destruct (invoke _ _ c3 k3) as [c4 k4].
  destruct (invoke_spec OnClose CallClose c4 k4) as (Hc5 & _).
  destruct (invoke OnClose CallClose c4 k4) as [c5 k5].
  cbn [fst snd] in *. exists (Close c5), k5.
  split; [reflexivity|]. split; [reflexivity|].
  rewrite Hc5, Hc4, Hc3, Hc, He3, He2, He, <- !app_assoc. reflexivity.
Qed.

(** X14. The other copy gives up on a big frame: after any run of frames
    it has handed on, a client frame of more than 65535 bytes makes its
    decoder fail, the consumer gets [OnError] with "frame too large" and
    then [OnClose], and the connection is closed with that frame, and
    what follows it, never handed on. *)
Theorem Variant_big_frame_ends (frames : list (list byte * list byte))
    (key payload rest : list byte) (conn : Conn) (k : Consumer H) :
  keepsOpen ->
  Forall (fun f => length (fst f) = 4%nat
                   /\ Z.of_nat (length (snd f)) <= 65535) frames ->
  closed conn = false ->
  rd conn = clientStream frames ++ clientFrame key payload ++ rest ->
  65535 < Z.of_nat (length payload) < 2 ^ 63 ->
  exists conn' k',
    Variant.handleWebSocket conn k = Some (conn', k', LoopBroke)
    /\ closed conn' = true
    /\ calls k'
       = calls k
         ++ map (fun f => CallMessage (string_of_list_byte (snd f))) frames
         ++ [CallError ErrFrameTooLarge; CallClose].
Proof.
  intros Hkeep Hall Ho Hr HL.
  pose proof (small_frames_length frames Hall) as Hlen.
  unfold Variant.handleWebSocket.
  replace (S (length (rd conn)))
    with (length frames + S (length (rd conn) - length frames))%nat
    by (rewrite Hr, length_app; lia).
  destruct (Variant_readLoop_messages frames _ Hkeep Hall
              (S (length (rd conn) - length frames)) conn k Ho Hr)
    as (c3 & k3 & -> & Ho3 & Hr3 & _ & Hc3).
  cbn [Variant.readLoop].
  destruct (Variant_readFrame_big c3 key payload rest Ho3 Hr3 HL) as (c4 & ->).
  destruct (invoke_spec (fun h => OnError h ErrFrameTooLarge)
              (CallError ErrFrameTooLarge) c4 k3) as (Hc4 & _).
  destruct (invoke _ _ c4 k3) as [c5 k5].
  destruct (invoke_spec OnClose CallClose c5 k5) as (Hc5 & _).
  destruct (invoke OnClose CallClose c5 k5) as [c6 k6].
  cbn [fst snd] in *. exists (Close c6), k6.
  split; [reflexivity|]. split; [reflexivity|].
  rewrite Hc5, Hc4, Hc3, <- !app_assoc. reflexivity.
Qed.

End VariantLoop.

Lemma Variant_lifecycle_witness :
  exists conn' k',
    @Variant.serve unit MyWSHandler.handler (fun s => s)
      (hijackable
         (peer (clientStream
                  [([x01; x02; x03; x04], list_byte_of_string "hi");
                   ([x0a; x0b; x0c; x0d], list_byte_of_string "yo")])))
      sampleRequest (fresh tt)
    = Some (k', Started conn', Some LoopBroke)
    /\ closed conn' = true
    /\ calls k'
       = [CallConnect; CallMessage "hi"; CallMessage "yo";
          CallError EOF; CallClose].
Proof.
  destruct (@Variant_lifecycle unit MyWSHandler.handler (fun s => s)
              [([x01; x02; x03; x04], list_byte_of_string "hi");
               ([x0a; x0b; x0c; x0d], list_byte_of_string "yo")]
              (hijackable
                 (peer (clientStream
                          [([x01; x02; x03; x04], list_byte_of_string "hi");
                           ([x0a; x0b; x0c; x0d],
                            list_byte_of_string "yo")])))
              sampleRequest
              (peer (clientStream
                       [([x01; x02; x03; x04], list_byte_of_string "hi");
                        ([x0a; x0b; x0c; x0d],
                         list_byte_of_string "yo")]))
              (fresh tt))
    as (conn' & k' & E & Hc & Hk);
    [ split; intros; cbn; intuition discriminate
    | repeat constructor; vm_compute; discriminate
    | exact sampleRequest_wellFormed
    | reflexivity | reflexivity | reflexivity | reflexivity | ].
  exists conn', k'. split; [exact E|]. split; [exact Hc|].
  rewrite Hk. reflexivity.
Defined.

Lemma Variant_big_frame_ends_witness :
  exists conn' k',
    @Variant.handleWebSocket unit MyWSHandler.handler
      (peer (clientStream
               [([x01; x02; x03; x04], list_byte_of_string "hi")]
             ++ clientFrame [x0a; x0b; x0c; x0d]
                  (repeat x61 (Z.to_nat 65536))
             ++ list_byte_of_string "more"))
      (fresh tt)
    = Some (conn', k', LoopBroke)
    /\ closed conn' = true
    /\ calls k'
       = [CallMessage "hi"; CallError ErrFrameTooLarge; CallClose].
Proof.
  destruct (@Variant_big_frame_ends unit MyWSHandler.handler
              [([x01; x02; x03; x04], list_byte_of_string "hi")]
              [x0a; x0b; x0c; x0d] (repeat x61 (Z.to_nat 65536))
              (list_byte_of_string "more")
              (peer (clientStream
                       [([x01; x02; x03; x04], list_byte_of_string "hi")]
                     ++ clientFrame [x0a; x0b; x0c; x0d]
                          (repeat x61 (Z.to_nat 65536))
                     ++ list_byte_of_string "more"))
              (fresh tt))
    as (conn' & k' & E & Hc & Hk);
    [ split; intros; cbn; intuition discriminate
    | repeat constructor; vm_compute; discriminate
    | reflexivity | reflexivity
    | vm_compute; split; reflexivity | ].
  exists conn', k'. split; [exact E|]. split; [exact Hc|].
  rewrite Hk. reflexivity.
Defined.

(** ** A connection that is closed, and streams of frames *)

Lemma perform_closed_sent (c : Conn) (a : action) :
  closed c = true -> sent (perform c a) = sent c.
Proof.
  intros Hc. destruct a as [message|]; cbn [perform]; [|reflexivity].
  unfold Send.
  destruct (writeFrame_Write (list_byte_of_string message) c) as [p ->].
  unfold Write. rewrite Hc. reflexivity.
Qed.

Lemma actions_closed_sent (acts : list action) (c : Conn) :
  closed c = true -> sent (fold_left perform acts c) = sent c.
Proof.
  revert c. induction acts as [|a acts IH]; intros c Hc; cbn [fold_left].
  - reflexivity.
  - rewrite IH.
    + now apply perform_closed_sent.
    + rewrite perform_closed. destruct a; auto.
Qed.

Lemma invoke_closed {H} (cb : H -> H * list action) (ev : call)
    (conn : Conn) (k : Consumer H) :
  closed conn = true ->
  closed (fst (invoke cb ev conn k)) = true
  /\ sent (fst (invoke cb ev conn k)) = sent conn
  /\ calls (snd (invoke cb ev conn k)) = calls k ++ [ev].
Proof.
  intros Hc. unfold invoke. destruct (cb (hstate k)) as [h' acts].
  cbn [fst snd calls]. split; [|split; [|reflexivity]].
  - now apply actions_stay_closed.
  - now apply actions_closed_sent.
Qed.

(** X16. A closed connection stays silent. Whatever the consumer does in
    its callbacks and however many keepalive ticks fall in, a connection
    that is closed when [handleWebSocket] starts puts no byte on the
    stream: every [Send] returns the error of the closed stream, the
    first read fails with it, and the consumer sees [OnConnect],
    [OnError] with that error and [OnClose], nothing else. *)
Theorem closed_connection_silent {H} `{handler : WSHandler H}
    (beats : list nat) (conn : Conn) (k : Consumer H) :
  closed conn = true ->
  (forall message,
      snd (Send message conn) = Some ErrClosed
      /\ sent (fst (Send message conn)) = sent conn)
  /\ exists conn' k',
       handleWebSocket beats conn k = Some (conn', k', LoopBroke)
       /\ sent conn' = sent conn
       /\ calls k' = calls k ++ [CallConnect; CallError ErrClosed; CallClose].
Proof.
  intros Hc. split.
  - intros message. unfold Send.
    destruct (writeFrame_Write (list_byte_of_string message) conn) as [p ->].
    unfold Write. rewrite Hc. split; reflexivity.
  - unfold handleWebSocket.
    destruct (invoke_closed OnConnect CallConnect conn k Hc)
      as (Hc1 & Hs1 & Hk1).
    destruct (invoke OnConnect CallConnect conn k) as [c1 k1].
    cbn [fst snd] in *. cbn [readLoop].
    assert (Hc2 : closed (pings (hd O beats) c1) = true)
      by (rewrite pings_closed; exact Hc1).
    rewrite (readFrame_closed _ Hc2).
    destruct (invoke_closed (fun h => OnError h ErrClosed)
                (CallError ErrClosed) (pings (hd O beats) c1) k1 Hc2)
      as (Hc3 & Hs3 & Hk3).
    destruct (invoke _ _ (pings (hd O beats) c1) k1) as [c3 k3].
    cbn [fst snd] in *.
    destruct (invoke_closed OnClose CallClose c3 k3 Hc3) as (_ & Hs4 & Hk4).
    destruct (invoke OnClose CallClose c3 k3) as [c4 k4].
    cbn [fst snd] in *. exists (Close c4), k4.
    split; [reflexivity|]. split.
    + cbn [Close sent]. rewrite Hs4, Hs3, (pings_closed_sent _ _ Hc1). exact Hs1.
    + rewrite Hk4, Hk3, Hk1, <- !app_assoc. reflexivity.
Qed.

Lemma closed_connection_silent_witness :
  exists conn' k',
    @handleWebSocket unit MyWSHandler.handler [2%nat]
      (Close (peer (clientFrame [x01; x02; x03; x04]
                      (list_byte_of_string "hi"))))
      (fresh tt)
    = Some (conn', k', LoopBroke)
    /\ sent conn' = []
    /\ calls k' = [CallConnect; CallError ErrClosed; CallClose].
Proof.
  destruct (@closed_connection_silent unit MyWSHandler.handler [2%nat]
              (Close (peer (clientFrame [x01; x02; x03; x04]
                              (list_byte_of_string "hi"))))
              (fresh tt) eq_refl)
    as (_ & conn' & k' & E & Hs & Hk).
  exists conn', k'. split; [exact E|]. split; [exact Hs | exact Hk].
Defined.

(** The length fields of a header give one length, and take a number of
    bytes that their first byte fixes. *)
Lemma announces_fun (h1 : byte) (ext ext' r r' : list byte) (L L' : Z) :
  announces h1 ext L -> announces h1 ext' L' ->
  ext ++ r = ext' ++ r' ->
  ext = ext' /\ r = r' /\ L = L'.
Proof.
  intros [(Hb & -> & ->) | [(Hb & Hl & ->) | (Hb & Hl & ->)]]
         [(Hb' & -> & ->) | [(Hb' & Hl' & ->) | (Hb' & Hl' & ->)]] E;
    try lia.
  - cbn [app] in E. auto.
  - destruct (app_inj_1 ext ext' r r') as (-> & ->); [congruence | exact E|].
    auto.
  - destruct (app_inj_1 ext ext' r r') as (-> & ->); [congruence | exact E|].
    auto.
Qed.

(** X17. Frames delimit themselves: two streams that begin with a frame
    from [writeFrame] and are equal byte for byte carry the same message
    in that frame and go on alike after it, so a run of frames written
    one after another can be cut apart in one way only. *)
Theorem frames_self_delimiting (m1 m2 r1 r2 : list byte) :
  Z.of_nat (length m1) < 2 ^ 63 ->
  Z.of_nat (length m2) < 2 ^ 63 ->
  encoded m1 ++ r1 = encoded m2 ++ r2 ->
  m1 = m2 /\ r1 = r2.
Proof.
  intros H1 H2. unfold encoded.
  destruct (writeFrame_shape m1 (peer []) H1) as (h1 & ext1 & -> & A1 & _).
  destruct (writeFrame_shape m2 (peer []) H2) as (h2 & ext2 & -> & A2 & _).
  rewrite !Write_peer. cbn [fst sent app]. rewrite <- !app_assoc.
  intros E. injection E as -> E.
  destruct (announces_fun h2 ext1 ext2 _ _ _ _ A1 A2 E) as (_ & E' & HL).
  apply app_inj_1 in E'; [exact E' | lia].
Qed.

Lemma frames_self_delimiting_witness :
  encoded (list_byte_of_string "hi") ++ encoded (list_byte_of_string "yo")
  = encoded [x68; x69] ++ [x81; x02; x79; x6f]
  /\ list_byte_of_string "hi" = [x68; x69]
  /\ encoded (list_byte_of_string "yo") = [x81; x02; x79; x6f].
Proof.
  assert (E : encoded (list_byte_of_string "hi")
              ++ encoded (list_byte_of_string "yo")
              = encoded [x68; x69] ++ [x81; x02; x79; x6f])
    by (vm_compute; reflexivity).
  split; [exact E|].
  apply (frames_self_delimiting (list_byte_of_string "hi") [x68; x69]
           (encoded (list_byte_of_string "yo")) [x81; x02; x79; x6f]);
    [vm_compute; reflexivity | vm_compute; reflexivity | exact E].
Defined.

(** ** The keepalive on an active connection *)

Lemma keepsWrites_ret {A} (a : A) : keepsWrites (ret a).
Proof. intros c. reflexivity. Qed.

Lemma keepsWrites_bind {A B} (m : io A) (k : A -> io B) :
  keepsWrites m -> (forall a, keepsWrites (k a)) -> keepsWrites (bind m k).
Proof.
  intros Hm Hk c. unfold bind. specialize (Hm c).
  destruct (m c) as [c' [a|e|p]]; cbn [fst] in *; auto.
  rewrite (Hk a c'). exact Hm.
Qed.

Lemma keepsWrites_ReadFull (n : nat) : keepsWrites (ReadFull n).
Proof.
  intros c. unfold ReadFull.
  destruct (n =? 0)%nat; [reflexivity|].
  destruct (closed c); [reflexivity|].
  destruct (n <=? length (rd c))%nat; reflexivity.
Qed.

Lemma keepsWrites_make_bytes (n : Z) : keepsWrites (make_bytes n).
Proof.
  intros c. unfold make_bytes.
  destruct ((n <? 0) || (maxAlloc <? n)); reflexivity.
Qed.

(** The decoder writes nothing, however it ends. *)
Lemma keepsWrites_readFrame : keepsWrites readFrame.
Proof.
  unfold readFrame.
  repeat first [ apply keepsWrites_bind; [|intros ?]
               | apply keepsWrites_ReadFull
               | apply keepsWrites_make_bytes
               | apply keepsWrites_ret
               | match goal with |- keepsWrites (if ?b then _ else _) =>
                   destruct b end ].
Qed.

Lemma pingWrites_app (l1 l2 : list (list byte)) :
  pingWrites (l1 ++ l2) = (pingWrites l1 + pingWrites l2)%nat.
Proof. unfold pingWrites. now rewrite filter_app, length_app. Qed.

Lemma pingWrites_repeat (n : nat) : pingWrites (repeat [x89; x00] n) = n.
Proof.
  induction n as [|n IH]; [reflexivity|].
  change (repeat [x89; x00] (S n)) with ([[x89; x00]] ++ repeat [x89; x00] n).
  rewrite pingWrites_app, IH. reflexivity.
Qed.

Lemma pings_pingWrites (n : nat) (conn : Conn) :
  pingWrites (writes (pings n conn)) = (pingWrites (writes conn) + n)%nat.
Proof.
  destruct (pings_spec n conn) as (_ & ->).
  now rewrite pingWrites_app, pingWrites_repeat.
Qed.

(** No frame of the text encoder is a ping. *)
Lemma writeFrame_pingWrites (message : list byte) (c : Conn) :
  pingWrites (writes (fst (writeFrame message c))) = pingWrites (writes c).
Proof.
  unfold writeFrame. rewrite Write_writes, pingWrites_app.
  assert (Hno : forall rest : list byte, pingWrites [x81 :: rest] = 0%nat).
  { intros rest. destruct rest as [|b [|b' rest]]; reflexivity. }
  destruct (Z.of_nat (length message) <=? 125);
    [|destruct (Z.of_nat (length message) <=? 65535)];
    cbn [app]; rewrite Hno; lia.
Qed.

Lemma perform_pingWrites (c : Conn) (a : action) :
  pingWrites (writes (perform c a)) = pingWrites (writes c).
Proof.
  destruct a as [message|]; cbn [perform]; [|reflexivity].
  apply writeFrame_pingWrites.
Qed.

Lemma invoke_pingWrites {H} (cb : H -> H * list action) (ev : call)
    (conn : Conn) (k : Consumer H) :
  pingWrites (writes (fst (invoke cb ev conn k))) = pingWrites (writes conn).
Proof.
  unfold invoke. destruct (cb (hstate k)) as [h' acts]. cbn [fst].
  revert conn. induction acts as [|a acts IH]; intros conn; cbn [fold_left].
  - reflexivity.
  - rewrite IH. apply perform_pingWrites.
Qed.

Lemma list_sum_firstn_S (n : nat) (beats : list nat) :
  list_sum (firstn (S n) beats)
  = (hd O beats + list_sum (firstn n (tl beats)))%nat.
Proof.
  destruct beats as [|b beats]; cbn [firstn hd tl list_sum fold_right].
  - now rewrite firstn_nil.
  - reflexivity.
Qed.

Section KeepaliveWrites.

Context {H : Type} `{handler : WSHandler H}.

(** Each turn of the read loop lets the pings of that turn through to
    the stream, and no other ping is ever written. *)
Lemma readLoop_pingWrites (turns : nat) :
  forall (beats : list nat) (conn conn' : Conn) (k k' : Consumer H)
         (how : finished),
    readLoop turns beats conn k = Some (conn', k', how) ->
    exists n,
      pingWrites (writes conn')
      = (pingWrites (writes conn) + list_sum (firstn n beats))%nat
      /\ (length (calls k')
          + match how with LoopBroke => 0 | LoopPanicked _ => 1 end
          = length (calls k) + n)%nat.
Proof.
  induction turns as [|turns IH]; intros beats conn conn' k k' how;
    [discriminate|].
  cbn [readLoop]. cbv zeta.
  pose proof (keepsWrites_readFrame (pings (hd O beats) conn)) as Hw.
  pose proof (pings_pingWrites (hd O beats) conn) as Hp.
  destruct (readFrame (pings (hd O beats) conn)) as [c1 [msg|e|p]];
    cbn [fst] in Hw.
  - pose proof (invoke_pingWrites
                  (fun h => OnMessage h (string_of_list_byte msg))
                  (CallMessage (string_of_list_byte msg)) c1 k) as Hi.
    destruct (invoke_spec
                (fun h => OnMessage h (string_of_list_byte msg))
                (CallMessage (string_of_list_byte msg)) c1 k) as (Hc & _).
    destruct (invoke _ _ c1 k) as [c2 k2]. cbn [fst snd] in Hi, Hc.
    intros E. destruct (IH _ _ _ _ _ _ E) as (n & Hn & Hl).
    exists (S n). rewrite list_sum_firstn_S. split.
    + rewrite Hn, Hi, Hw, Hp. lia.
    + rewrite Hc, length_app in Hl. cbn [length] in Hl. lia.
  - pose proof (invoke_pingWrites (fun h => OnError h e) (CallError e)
                  c1 k) as Hi.
    destruct (invoke_spec (fun h => OnError h e) (CallError e) c1 k)
      as (Hc & _).
    destruct (invoke _ _ c1 k) as [c2 k2]. cbn [fst snd] in Hi, Hc.
    intros [= <- <- <-]. exists 1%nat. rewrite list_sum_firstn_S.
    change (list_sum (firstn 0 (tl beats))) with 0%nat. split.
    + rewrite Hi, Hw, Hp. lia.
    + rewrite Hc, length_app. cbn [length]. lia.
  - intros [= <- <- <-]. exists 1%nat. rewrite list_sum_firstn_S.
    change (list_sum (firstn 0 (tl beats))) with 0%nat. split.
    + rewrite Hw, Hp. lia.
    + lia.
Qed.

Lemma handleWebSocket_pingWrites (beats : list nat) (conn conn' : Conn)
    (k k' : Consumer H) (how : finished) :
  handleWebSocket beats conn k = Some (conn', k', how) ->
  exists n,
    pingWrites (writes conn')
    = (pingWrites (writes conn) + list_sum (firstn n beats))%nat
    /\ (length (calls k')
        + match how with LoopBroke => 0 | LoopPanicked _ => 1 end
        = length (calls k) + n + 2)%nat.
Proof.
  unfold handleWebSocket.
  pose proof (invoke_pingWrites OnConnect CallConnect conn k) as Hi.
  destruct (invoke_spec OnConnect CallConnect conn k) as (Hc & _).
  destruct (invoke OnConnect CallConnect conn k) as [c1 k1].
  cbn [fst snd] in Hi, Hc.
  destruct (readLoop (S (length (rd c1))) beats c1 k1)
    as [[[c2 k2] how2]|] eqn:E; [|discriminate].
  destruct (readLoop_pingWrites _ _ _ _ _ _ _ E) as (n & Hn & Hl).
  pose proof (invoke_pingWrites OnClose CallClose c2 k2) as Hi2.
  destruct (invoke_spec OnClose CallClose c2 k2) as (Hc2 & _).
  destruct (invoke OnClose CallClose c2 k2) as [c3 k3].
  cbn [fst snd] in Hi2, Hc2.
  intros [= <- <- <-]. exists n. split.
  - cbn [Close writes]. rewrite Hi2, Hn, Hi. reflexivity.
  - rewrite Hc2, length_app. rewrite Hc, length_app in Hl.
    cbn [length] in *. lia.
Qed.

(** C9. With the ticker it makes, of period 15 s, and [done] closed after
    [n] ticks, the keepalive loop makes [n] writes, each of the two bytes
    [0x89, 0x00], one at every multiple of 15 s, and returns; on a stream
    where writes go through, these bytes are what it sends. These bytes
    are no frame of the text encoder. The loop hands back nothing but the
    stream, whose reading side it leaves as it was; and at whatever pace
    the keepalive writes beside the read loop, whichever of its writes
    fail, the consumer gets the callbacks of a connection without
    keepalive: a failed ping raises no [OnError]. While a connection is
    active the pings reach its stream: on a connection that reads its
    frames and then the end of the stream, the pings written are those of
    the ticks that fell in the turns of the read loop, one write for each
    tick, and the ticks after [close(done)] write nothing. *)
Theorem pingLoop_keepalive (conn : Conn) (n : nat) (later : list ready)
    (beats : list nat) (k : Consumer H) :
  let out := pingLoop (fun tk => ticks tk n ++ DoneClosed :: later) conn in
  ping_returned out = true
  /\ ping_conn out = pings n conn
  /\ writes (ping_conn out)
     = writes conn ++ repeat [byte_of_int 0x89; byte_of_int 0x00] n
  /\ ping_times out
     = map (fun i => Z.of_nat i * (15 * 1000000000)) (seq 1 n)
  /\ (forall message c,
      writes (fst (writeFrame message c)) <> writes c ++ [[x89; x00]])
  /\ sameReadSide (ping_conn out) conn
  /\ observed (handleWebSocket beats conn k)
     = observed (handleWebSocket [] conn k)
  /\ (healthy conn -> sent (ping_conn out) = sent conn ++ pingBytes n)
  /\ (forall frames : list (list byte * list byte),
        keepsOpen ->
        Forall (fun f => length (fst f) = 4%nat
                         /\ Z.of_nat (length (snd f)) <= maxAlloc) frames ->
        closed conn = false ->
        rd conn = clientStream frames ->
        exists conn' k',
          handleWebSocket beats conn k = Some (conn', k', LoopBroke)
          /\ pingWrites (writes conn')
             = (pingWrites (writes conn)
                + list_sum (firstn (S (length frames)) beats))%nat).
Proof.
  unfold pingLoop, ticks. rewrite pingSelect_ticks.
  cbv zeta. cbn [ping_returned ping_conn ping_times app].
  destruct (pings_spec n conn) as (Hs & Hw).
  split; [reflexivity|]. split; [reflexivity|]. split; [exact Hw|].
  split; [reflexivity|].
  split; [|split; [exact Hs|split; [|split]]].
  - intros message c Heq. unfold writeFrame in Heq.
    rewrite Write_writes in Heq. apply app_inv_head in Heq.
    destruct (Z.of_nat (length message) <=? 125);
      [|destruct (Z.of_nat (length message) <=? 65535)]; discriminate Heq.
  - apply handleWebSocket_sameReadSide, sameReadSide_refl.
  - intros Hh. apply pings_healthy, Hh.
  - intros frames Hkeep Hall Ho Hr.
    destruct (handleWebSocket_frames frames beats conn k Hkeep Hall Ho Hr)
      as (conn' & k' & E & _ & Hcalls).
    exists conn', k'. split; [exact E|].
    destruct (handleWebSocket_pingWrites _ _ _ _ _ _ E) as (m & Hm & Hl).
    rewrite Hm. do 3 f_equal.
    rewrite Hcalls, !length_app, length_map in Hl. cbn [length] in Hl. lia.
Qed.

End KeepaliveWrites.

Lemma pingLoop_keepalive_witness :
  exists conn' k',
    @handleWebSocket unit MyWSHandler.handler [1; 0; 2; 5]%nat
      (peer (clientStream
               [([x01; x02; x03; x04], list_byte_of_string "hi");
                ([x0a; x0b; x0c; x0d], list_byte_of_string "yo")]))
      (fresh tt)
    = Some (conn', k', LoopBroke)
    /\ pingWrites (writes conn') = 3%nat.
Proof.
  destruct (@pingLoop_keepalive unit MyWSHandler.handler
              (peer (clientStream
                       [([x01; x02; x03; x04], list_byte_of_string "hi");
                        ([x0a; x0b; x0c; x0d], list_byte_of_string "yo")]))
              0%nat [] [1; 0; 2; 5]%nat (fresh tt))
    as (_ & _ & _ & _ & _ & _ & _ & _ & Hp).
  destruct (Hp [([x01; x02; x03; x04], list_byte_of_string "hi");
                ([x0a; x0b; x0c; x0d], list_byte_of_string "yo")])
    as (conn' & k' & E & Hn).
  - split; intros; cbn; intuition discriminate.
  - repeat constructor; vm_compute; discriminate.
  - reflexivity.
  - reflexivity.
  - exists conn', k'. split; [exact E|]. rewrite Hn. reflexivity.
Defined.
